(** * Police-station coverage: distance strategies and the radius solver

    A shallow embedding of [city_skylines_bfs_kdtree.py]: the brute-force
    scan, the multi-source breadth-first flood fill, the KD-tree query and
    the loop that reduces per-cell distances to the covering radius. *)

From Stdlib Require Import ZArith List Lia Bool Permutation ListSet.
Import ListNotations.
Local Open Scope Z_scope.

(** ** Python values *)

(** Exceptions the modelled code can raise. *)
Inductive exn : Type :=
| ValueError
| OverflowError.

(** A computation either returns or raises. *)
Inductive result (A : Type) : Type :=
| Ok (a : A)
| Raise (e : exn).
Arguments Ok {A} a.
Arguments Raise {A} e.

Definition bind {A B : Type} (r : result A) (f : A -> result B) : result B :=
  match r with
  | Ok a => f a
  | Raise e => Raise e
  end.

Notation "x <- r ;; k" := (bind r (fun x => k))
  (at level 61, r at next level, right associativity).

(** The numbers the distance functions handle: an integer (a Python [int], or
    a float holding an integer, which compare equal in Python) or
    [float('inf')]. *)
Inductive number : Type :=
| Fin (z : Z)
| Inf.

Definition number_ltb (a b : number) : bool :=
  match a, b with
  | Fin x, Fin y => x <? y
  | Fin _, Inf => true
  | Inf, _ => false
  end.

(** [min(a, b)] keeps [a] unless [b < a]; [max(a, b)] keeps [a] unless
    [b > a]. *)
Definition py_min (a b : number) : number := if number_ltb b a then b else a.
Definition py_max (a b : number) : number := if number_ltb a b then b else a.

(** [range(n)] *)
Definition range (n : Z) : list Z := map Z.of_nat (seq 0 (Z.to_nat n)).

(** A station is a [(row, col)] tuple. *)
Definition station : Type := (Z * Z)%type.

(** ** Brute-force strategy *)

Definition get_nearest_distance_to_police_stations_brutal_force
    (i j : Z) (police_stations : list station) : number :=
  fold_left
    (fun distance '(py, px) =>
       py_min distance (Fin (Z.max (Z.abs (i - py)) (Z.abs (j - px)))))
    police_stations Inf.

(** ** Two-dimensional arrays *)

Definition ndarray (A : Type) : Type := list (list A).

(** [np.full((rows, cols), v)]; a negative dimension is a [ValueError]. *)
Definition np_full {A : Type} (rows cols : Z) (v : A) : result (ndarray A) :=
  if (rows <? 0) || (cols <? 0) then Raise ValueError
  else Ok (repeat (repeat v (Z.to_nat cols)) (Z.to_nat rows)).

Fixpoint list_set {A : Type} (n : nat) (v : A) (l : list A) : list A :=
  match l, n with
  | [], _ => []
  | _ :: t, O => v :: t
  | h :: t, S n' => h :: list_set n' v t
  end.

(** [a[y, x]] and [a[y, x] = v].  Every access in the flood fill sits behind
    the test [0 <= y < rows and 0 <= x < cols] on an array of that shape, so
    the index is in range there. *)
Definition nd_get {A : Type} (d : A) (a : ndarray A) (y x : Z) : A :=
  nth (Z.to_nat x) (nth (Z.to_nat y) a []) d.

Definition nd_set {A : Type} (a : ndarray A) (y x : Z) (v : A) : ndarray A :=
  list_set (Z.to_nat y) (list_set (Z.to_nat x) v (nth (Z.to_nat y) a [])) a.

(** ** Multi-source flood fill *)

Definition in_bounds (rows cols y x : Z) : bool :=
  (0 <=? y) && (y <? rows) && (0 <=? x) && (x <? cols).

Definition entry : Type := (Z * Z * Z)%type.

Record bfs_state : Type := mk_bfs_state {
  distance_map : ndarray Z;
  visited : ndarray bool;
  queue : list entry
}.

(** One pass of the seeding loop over [police_stations]. *)
Definition bfs_seed (rows cols : Z) (st : bfs_state) (s : station) : bfs_state :=
  let '(py, px) := s in
  if in_bounds rows cols py px then
    {| distance_map := nd_set (distance_map st) py px 0;
       visited := nd_set (visited st) py px true;
       queue := queue st ++ [(py, px, 0)] |}
  else st.

Definition directions : list (Z * Z) :=
  [(-1, 0); (1, 0); (0, -1); (0, 1); (-1, -1); (-1, 1); (1, -1); (1, 1)].

(** One pass of [for dy, dx in directions] for the dequeued [(y, x, dist)]. *)
Definition bfs_visit (rows cols y x dist : Z) (st : bfs_state) (d : Z * Z)
    : bfs_state :=
  let '(dy, dx) := d in
  let ny := y + dy in
  let nx := x + dx in
  if in_bounds rows cols ny nx && negb (nd_get false (visited st) ny nx) then
    {| distance_map := nd_set (distance_map st) ny nx (dist + 1);
       visited := nd_set (visited st) ny nx true;
       queue := queue st ++ [(ny, nx, dist + 1)] |}
  else st.

(** The body of [while queue:] once [queue.pop(0)] gave [e]. *)
Definition bfs_expand (rows cols : Z) (e : entry) (rest : list entry)
    (st : bfs_state) : bfs_state :=
  let '(y, x, dist) := e in
  fold_left (bfs_visit rows cols y x dist) directions
    {| distance_map := distance_map st; visited := visited st; queue := rest |}.

(** [while queue: ...]; [None] when the fuel runs out before the queue is
    empty. *)
Fixpoint bfs_while (fuel : nat) (rows cols : Z) (st : bfs_state)
    : option bfs_state :=
  match queue st with
  | [] => Some st
  | e :: rest =>
      match fuel with
      | O => None
      | S fuel' => bfs_while fuel' rows cols (bfs_expand rows cols e rest st)
      end
  end.

(** The entries [queue.pop(0)] returns, in order, over the same run. *)
Fixpoint bfs_dequeued (fuel : nat) (rows cols : Z) (st : bfs_state)
    : list entry :=
  match queue st with
  | [] => []
  | e :: rest =>
      match fuel with
      | O => []
      | S fuel' =>
          e :: bfs_dequeued fuel' rows cols (bfs_expand rows cols e rest st)
      end
  end.

(** The state when the seeding loop ends; [np.zeros(shape, dtype=bool)] is
    [np.full(shape, False)]. *)
Definition bfs_seeded (rows cols : Z) (police_stations : list station)
    : result bfs_state :=
  dm <- np_full rows cols 0 ;;
  vis <- np_full rows cols false ;;
  Ok (fold_left (bfs_seed rows cols) police_stations
        {| distance_map := dm; visited := vis; queue := [] |}).

Definition get_nearest_distance_to_police_stations_bfs
    (fuel : nat) (rows cols : Z) (police_stations : list station)
    : option (result (ndarray Z)) :=
  match bfs_seeded rows cols police_stations with
  | Raise e => Some (Raise e)
  | Ok st0 =>
      match bfs_while fuel rows cols st0 with
      | Some st => Some (Ok (distance_map st))
      | None => None
      end
  end.

(** Iterations of the [while] loop that always suffice. *)
Definition bfs_fuel (rows cols : Z) (police_stations : list station) : nat :=
  (Z.to_nat rows * Z.to_nat cols + length police_stations)%nat.

(** ** Double precision *)

(** The KD-tree of the third strategy stores and compares [float64] values:
    53 significant bits, every result rounded to the nearest value with ties
    to the even significand, and an infinity past the largest finite value.
    Every double met here is a rounded integer or the rounded difference of
    two such, hence has an integral value: a double is represented by the
    integer it holds. *)

(** A non-negative integer rounded to 53 significant bits: below 2^53 it is
    kept, from there on the bits under the unit in the last place [2 ^ e]
    are rounded away. *)
Definition float64_magnitude (a : Z) : Z :=
  let e := Z.log2 a - 52 in
  if e <=? 0 then a
  else
    let q := a / 2 ^ e in
    let r := a mod 2 ^ e in
    let half := 2 ^ (e - 1) in
    if (r <? half) || ((r =? half) && Z.even q) then q * 2 ^ e
    else (q + 1) * 2 ^ e.

Definition float64_round (n : Z) : Z := Z.sgn n * float64_magnitude (Z.abs n).

(** The largest finite double. *)
Definition float64_max : Z := (2 ^ 53 - 1) * 2 ^ 971.

(** The integer rounds to a finite double. *)
Definition float64_finite (n : Z) : bool :=
  Z.abs (float64_round n) <=? float64_max.

(** A Python [int] stored into a [float64] array: an [OverflowError] when it
    rounds past the largest double. *)
Definition float64_of_int (n : Z) : result Z :=
  if float64_finite n then Ok (float64_round n) else Raise OverflowError.

(** [fabs(a - b)] on two doubles: the difference is rounded, and infinite
    past the largest double. *)
Definition float64_abs_sub (a b : Z) : number :=
  let x := Z.abs (float64_round (a - b)) in
  if x <=? float64_max then Fin x else Inf.

(** [np.array(data, dtype=np.float64)] for a list of [(row, col)] tuples. *)
Fixpoint float64_array (data : list station) : result (list station) :=
  match data with
  | [] => Ok []
  | (py, px) :: rest =>
      y <- float64_of_int py ;;
      x <- float64_of_int px ;;
      points <- float64_array rest ;;
      Ok ((y, x) :: points)
  end.

(** ** KD-tree strategy *)

(** Modelled from the spec: [scipy.spatial.KDTree], the third-party spatial
    index the query function builds and asks, is not part of the repository.
    The spec describes it as a static tree over the station coordinates that
    answers a nearest-neighbour query under a Minkowski norm, here the
    L-infinity norm ([p=np.inf]).  The model is a two-dimensional tree with
    leaf buckets, split at the midpoint of the wider axis, queried by descent
    with pruning; building one over no point at all is a [ValueError].  The
    library converts the stations and the query point to [float64] and forms
    every distance in double precision, so a coordinate or a difference
    beyond 2^53 is rounded. *)
Inductive kdtree : Type :=
| leafnode (points : list station)
| innernode (split_dim : bool) (split : Z) (less greater : kdtree).

Definition leafsize : nat := 10.

(** Coordinate of a point along an axis: [false] is the row, [true] the
    column. *)
Definition coord (d : bool) (p : station) : Z := if d then snd p else fst p.

Definition maxval (d : bool) (p0 : station) (pts : list station) : Z :=
  fold_left (fun m p => Z.max m (coord d p)) pts (coord d p0).

Definition minval (d : bool) (p0 : station) (pts : list station) : Z :=
  fold_left (fun m p => Z.min m (coord d p)) pts (coord d p0).

Fixpoint kd_build (fuel : nat) (pts : list station) : kdtree :=
  match fuel, pts with
  | O, _ => leafnode pts
  | _, [] => leafnode pts
  | S fuel', p0 :: _ =>
      if (length pts <=? leafsize)%nat then leafnode pts
      else
        let d := (maxval false p0 pts - minval false p0 pts)
                 <? (maxval true p0 pts - minval true p0 pts) in
        let hi := maxval d p0 pts in
        let lo := minval d p0 pts in
        if hi =? lo then leafnode pts
        else
          let split := (hi + lo) / 2 in
          innernode d split
            (kd_build fuel' (filter (fun p => coord d p <=? split) pts))
            (kd_build fuel' (filter (fun p => split <? coord d p) pts))
  end.

(** L-infinity distance between the query point and a stored point, in
    double precision. *)
Definition float64_minkowski_inf (i j : Z) (p : station) : number :=
  py_max (float64_abs_sub i (fst p)) (float64_abs_sub j (snd p)).

(** Nearest-neighbour descent: the near side first, the far side only when
    the splitting line is closer than the best distance so far. *)
Fixpoint kd_query (t : kdtree) (i j : Z) (best : number) : number :=
  match t with
  | leafnode pts =>
      fold_left (fun b p => py_min b (float64_minkowski_inf i j p)) pts best
  | innernode d split less greater =>
      let c := if d then j else i in
      if c <=? split then
        let b1 := kd_query less i j best in
        if number_ltb (float64_abs_sub c split) b1
        then kd_query greater i j b1 else b1
      else
        let b1 := kd_query greater i j best in
        if number_ltb (float64_abs_sub c split) b1
        then kd_query less i j b1 else b1
  end.

(** [KDTree(data)] *)
Definition KDTree (data : list station) : result kdtree :=
  match data with
  | [] => Raise ValueError
  | _ :: _ =>
      points <- float64_array data ;;
      Ok (kd_build (length points) points)
  end.

(** [tree.query((i, j), p=np.inf)], the distance component. *)
Definition KDTree_query (tree : kdtree) (i j : Z) : result number :=
  x0 <- float64_of_int i ;;
  x1 <- float64_of_int j ;;
  Ok (kd_query tree x0 x1 Inf).

Definition get_nearest_distance_to_police_stations_kd_tree
    (i j : Z) (police_stations : list station) : result number :=
  tree <- KDTree police_stations ;;
  KDTree_query tree i j.

(** ** Radius solver *)

(** The two nested [for] loops folding [max] over a per-cell distance. *)
Definition max_over_cells (query : Z -> Z -> result number) (rows cols : Z)
    : result number :=
  fold_left
    (fun acc i =>
       fold_left
         (fun acc j =>
            max_distance <- acc ;;
            distance <- query i j ;;
            Ok (py_max max_distance distance))
         (range cols) acc)
    (range rows) (Ok (Fin 0)).

Definition get_largest_nearest_distance_to_police_stations
    (rows cols : Z) (police_stations : list station) : result number :=
  max_over_cells
    (fun i j => get_nearest_distance_to_police_stations_kd_tree i j police_stations)
    rows cols.

(** The same loop fed by the brute-force scan, and by a distance field
    computed beforehand (the two other distance sources of the solver). *)
Definition largest_by_brutal_force (rows cols : Z)
    (police_stations : list station) : result number :=
  max_over_cells
    (fun i j =>
       Ok (get_nearest_distance_to_police_stations_brutal_force i j police_stations))
    rows cols.

Definition largest_of_field (rows cols : Z) (field : ndarray Z) : result number :=
  max_over_cells (fun i j => Ok (Fin (nd_get 0 field i j))) rows cols.

(** ** Station placement, the coverage display and the script body *)

(** A [button_press_event] as the click handler reads it: whether the click
    fell in the axes, and [int(event.xdata)], [int(event.ydata)]. *)
Record click : Type := mk_click {
  inaxes : bool;
  xdata : Z;
  ydata : Z
}.

(** The handler [onclick] of [get_police_positions]; [police_positions] is
    the list it appends to. *)
Definition onclick (rows cols : Z) (police_positions : list station)
    (event : click) : list station :=
  if inaxes event then
    let x := xdata event in
    let y := ydata event in
    if (0 <=? x) && (x <? cols) && (0 <=? y) && (y <? rows) then
      police_positions ++ [(y, x)]
    else police_positions
  else police_positions.

(** [get_police_positions]: the grid is allocated first (a negative side is
    a [ValueError]), then the handler runs on every click until the window is
    closed. *)
Definition get_police_positions (rows cols : Z) (events : list click)
    : result (list station) :=
  grid <- np_full rows cols 0 ;;
  Ok (fold_left (onclick rows cols) events []).



(** The bounds of the radius slider. *)
Definition slider_valmin : Z := 0.

Definition slider_valmax (rows cols : Z) : Z := 2 * Z.max rows cols.

(** The script body: place the stations, solve the radius, show it. *)
Definition main (rows cols : Z) (events : list click) : result number :=
  police_stations <- get_police_positions rows cols events ;;
  smallest_radius <-
    get_largest_nearest_distance_to_police_stations rows cols police_stations ;;
  Ok smallest_radius.

(** ** Railway network: the random graph and Prim's algorithm *)

(** A directed edge [(u, v)] and a dictionary keyed by edges, as the list of
    its items in insertion order. *)
Definition edge : Type := (Z * Z)%type.

Definition edge_eqb (e1 e2 : edge) : bool :=
  (fst e1 =? fst e2) && (snd e1 =? snd e2).

Definition weights : Type := list (edge * Z).

(** [d[k] = w]: the value of an existing key is replaced in place, a new key
    is appended. *)
Fixpoint dict_set (d : weights) (k : edge) (w : Z) : weights :=
  match d with
  | [] => [(k, w)]
  | (k', w') :: t =>
      if edge_eqb k k' then (k, w) :: t else (k', w') :: dict_set t k w
  end.

Fixpoint dict_get (d : weights) (k : edge) : option Z :=
  match d with
  | [] => None
  | (k', w') :: t => if edge_eqb k k' then Some w' else dict_get t k
  end.

(** [range(a, b)] *)
Definition range_from (a b : Z) : list Z :=
  map (fun k => a + Z.of_nat k) (seq 0 (Z.to_nat (b - a))).

(** [generate_graph].  The two random draws made for the pair [(i, j)] are
    given by [randint i j], the result of [random.randint(1, 10)], and
    [coin i j], the outcome of [random.random() < 0.5]; each pair is visited
    once, so any sequence of draws is of this form. *)
Definition generate_graph (randint : Z -> Z -> Z) (coin : Z -> Z -> bool)
    (num_nodes : Z) : weights :=
  fold_left
    (fun start_end_weights i =>
       fold_left
         (fun start_end_weights j =>
            let weight := randint i j in
            if coin i j then
              dict_set (dict_set start_end_weights (i, j) weight) (j, i) weight
            else start_end_weights)
         (range_from (i + 1) num_nodes) start_end_weights)
    (range num_nodes) [].

(** Modelled from the spec: [heapq], the standard-library binary heap the
    algorithm pushes to and pops from, is not part of the repository; its
    contract is that [heappop] removes and returns a smallest item.  The
    items are tuples [(weight, (u, v))] of integers, compared
    lexicographically, so equal items are indistinguishable and the sequence
    of popped items depends only on the items held: the model keeps them in
    ascending order. *)
Definition heap_item : Type := (Z * edge)%type.

Definition item_leb (a b : heap_item) : bool :=
  let '(w1, (u1, v1)) := a in
  let '(w2, (u2, v2)) := b in
  (w1 <? w2) || ((w1 =? w2) && ((u1 <? u2) || ((u1 =? u2) && (v1 <=? v2)))).

Fixpoint heappush (heap : list heap_item) (item : heap_item)
    : list heap_item :=
  match heap with
  | [] => [item]
  | h :: t => if item_leb item h then item :: heap else h :: heappush t item
  end.

Record prim_state : Type := mk_prim_state {
  visited_nodes : set Z;
  weight_heap : list heap_item;
  min_node_weights : weights
}.

(** The inner [while weight_heap: ... else: ...] loop: pop until an edge
    leads to an unvisited node ([break]); [None] stands for the [else]
    branch, reached when the heap runs empty. *)
Fixpoint pop_unvisited (visited_nodes : set Z) (weight_heap : list heap_item)
    : option (heap_item * list heap_item) :=
  match weight_heap with
  | [] => None
  | (min_weight, (u, v)) :: rest =>
      if set_mem Z.eq_dec v visited_nodes
      then pop_unvisited visited_nodes rest
      else Some ((min_weight, (u, v)), rest)
  end.

(** [for (a, b), weight in start_end_weights.items(): if a == v and b not in
    visited_nodes: heappush(...)] *)
Definition push_edges_from (start_end_weights : weights) (v : Z)
    (visited_nodes : set Z) (weight_heap : list heap_item) : list heap_item :=
  fold_left
    (fun heap '((a, b), weight) =>
       if (a =? v) && negb (set_mem Z.eq_dec b visited_nodes)
       then heappush heap (weight, (a, b)) else heap)
    start_end_weights weight_heap.

(** [while len(visited_nodes) < num_nodes: ...]; [None] when the fuel runs
    out. *)
Fixpoint prim_while (fuel : nat) (num_nodes : Z) (start_end_weights : weights)
    (st : prim_state) : option (result prim_state) :=
  if Z.of_nat (length (visited_nodes st)) <? num_nodes then
    match fuel with
    | O => None
    | S fuel' =>
        match pop_unvisited (visited_nodes st) (weight_heap st) with
        | None => Some (Raise ValueError)
        | Some ((min_weight, (u, v)), rest) =>
            let visited' := set_add Z.eq_dec v (visited_nodes st) in
            prim_while fuel' num_nodes start_end_weights
              {| visited_nodes := visited';
                 weight_heap :=
                   push_edges_from start_end_weights v visited' rest;
                 min_node_weights :=
                   dict_set (min_node_weights st) (u, v) min_weight |}
        end
    end
  else Some (Ok st).

(** The state before the main loop: node 0 visited, the edges leaving node 0
    on the heap. *)
Definition prim_init (start_end_weights : weights) : prim_state :=
  {| visited_nodes := set_add Z.eq_dec 0 (empty_set Z);
     weight_heap :=
       fold_left
         (fun heap '((u, v), weight) =>
            if u =? 0 then heappush heap (weight, (u, v)) else heap)
         start_end_weights [];
     min_node_weights := [] |}.

(** [prim]; what it prints is not modelled. *)
Definition prim (fuel : nat) (num_nodes : Z) (start_end_weights : weights)
    : option (result weights) :=
  match prim_while fuel num_nodes start_end_weights
          (prim_init start_end_weights) with
  | Some (Ok st) => Some (Ok (min_node_weights st))
  | Some (Raise e) => Some (Raise e)
  | None => None
  end.

(** ** Notions used to state the results *)

(** L-infinity (Chebyshev) distance between a cell and a station. *)
Definition minkowski_inf (i j : Z) (p : station) : Z :=
  Z.max (Z.abs (i - fst p)) (Z.abs (j - snd p)).

(** [k] is the L-infinity distance from [(i, j)] to a nearest station of
    [stations]. *)
Definition nearest (stations : list station) (i j k : Z) : Prop :=
  (exists s, In s stations /\ minkowski_inf i j s = k) /\
  (forall s, In s stations -> k <= minkowski_inf i j s).

(** [0 <= py < rows and 0 <= px < cols] for a station [(py, px)]. *)
Definition station_in_bounds (rows cols : Z) (s : station) : bool :=
  in_bounds rows cols (fst s) (snd s).

(** The running minimum of the brute-force loop, started at [b]. *)
Definition scan (i j : Z) (b : number) (pts : list station) : number :=
  fold_left (fun b p => py_min b (Fin (minkowski_inf i j p))) pts b.

(** The points a tree stores. *)
Fixpoint kd_points (t : kdtree) : list station :=
  match t with
  | leafnode pts => pts
  | innernode _ _ less greater => kd_points less ++ kd_points greater
  end.

(** Points on the [less] side are at or below the split, those on the
    [greater] side strictly above it. *)
Fixpoint kd_wf (t : kdtree) : Prop :=
  match t with
  | leafnode _ => True
  | innernode d split less greater =>
      (forall p, In p (kd_points less) -> coord d p <= split) /\
      (forall p, In p (kd_points greater) -> split < coord d p) /\
      kd_wf less /\ kd_wf greater
  end.

(** The nearest distance as a function, for a non-empty station list. *)
Definition nearest_distance (stations : list station) (i j : Z) : Z :=
  match get_nearest_distance_to_police_stations_brutal_force i j stations with
  | Fin k => k
  | Inf => 0
  end.

(** [a <= b] on numbers. *)
Definition number_le (a b : number) : Prop := number_ltb b a = false.

(** The running minimum of [g] over a list of points, started at [b]. *)
Definition scan_by (g : station -> number) (b : number) (pts : list station)
    : number :=
  fold_left (fun b p => py_min b (g p)) pts b.

(** A station as the tree stores it, and whether it can be stored. *)
Definition float64_station (s : station) : station :=
  (float64_round (fst s), float64_round (snd s)).

Definition station_finite (s : station) : bool :=
  float64_finite (fst s) && float64_finite (snd s).

(** Everything the query converts is finite in double precision. *)
Definition convertible (i j : Z) (stations : list station) : bool :=
  forallb station_finite stations && float64_finite i && float64_finite j.

(** The minimum the query computes once everything is converted. *)
Definition float64_scan (i j : Z) (stations : list station) : number :=
  scan_by (float64_minkowski_inf (float64_round i) (float64_round j)) Inf
    (map float64_station stations).

(** The distance from a cell to a station as the query forms it where no
    infinity arises: the station is rounded, then each coordinate
    difference. *)
Definition float64_distance (i j : Z) (s : station) : Z :=
  Z.max (Z.abs (float64_round (i - float64_round (fst s))))
        (Z.abs (float64_round (j - float64_round (snd s)))).

(** The KD-tree distance as a function, where it is finite. *)
Definition float64_nearest (stations : list station) (i j : Z) : Z :=
  match get_nearest_distance_to_police_stations_kd_tree i j stations with
  | Ok (Fin k) => k
  | _ => 0
  end.

(** Double precision is exact on a grid and its stations: every cell
    coordinate, every station coordinate and every difference between the
    two has magnitude at most 2^53, so that the query rounds nothing. *)
Definition exact_in_double (rows cols : Z) (stations : list station) : Prop :=
  forall i j s, 0 <= i < rows -> 0 <= j < cols -> In s stations ->
    Z.abs i <= 2 ^ 53 /\ Z.abs j <= 2 ^ 53 /\
    Z.abs (fst s) <= 2 ^ 53 /\ Z.abs (snd s) <= 2 ^ 53 /\
    Z.abs (i - fst s) <= 2 ^ 53 /\ Z.abs (j - snd s) <= 2 ^ 53.

(** The inner [for j in range(cols)] loop for a fixed row. *)
Definition row_loop (query : Z -> Z -> result number) (i : Z) (js : list Z)
    (acc : result number) : result number :=
  fold_left
    (fun acc j =>
       max_distance <- acc ;;
       distance <- query i j ;;
       Ok (py_max max_distance distance))
    js acc.

(** The outer [for i in range(rows)] loop. *)
Definition grid_loop (query : Z -> Z -> result number) (rs js : list Z)
    (acc : result number) : result number :=
  fold_left (fun acc i => row_loop query i js acc) rs acc.

(** An array of shape [(rows, cols)]. *)
Definition shaped {A : Type} (rows cols : Z) (a : ndarray A) : Prop :=
  length a = Z.to_nat rows /\ forall r, In r a -> length r = Z.to_nat cols.

(** [visited[y, x]] holds. *)
Definition is_visited (st : bfs_state) (y x : Z) : Prop :=
  nd_get false (visited st) y x = true.

(** Some entry of the queue is for the cell [(y, x)]. *)
Definition queued (q : list entry) (y x : Z) : Prop :=
  exists k, In (y, x, k) q.

(** The queue holds at most two consecutive layers, the older one first. *)
Fixpoint layered (q : list entry) : Prop :=
  match q with
  | [] => True
  | e :: q' =>
      (forall e', In e' q' -> snd e <= snd e' <= snd e + 1) /\ layered q'
  end.

Definition cell_eq_dec (a b : Z * Z) : {a = b} + {a <> b}.
Proof. decide equality; apply Z.eq_dec. Defined.

(** The cell of a queue entry, and the entry the seeding loop enqueues for a
    station. *)
Definition cell_of (e : entry) : Z * Z := (fst (fst e), snd (fst e)).

Definition seed_entry (s : station) : entry := (fst s, snd s, 0).

(** Invariant of the seeding loop; [seen] lists the in-bounds stations
    handled so far. *)
Record seed_inv (rows cols : Z) (seen : list station) (st : bfs_state)
    : Prop := {
  s_shape_d : shaped rows cols (distance_map st);
  s_shape_v : shaped rows cols (visited st);
  s_queue : queue st = map seed_entry seen;
  s_visited : forall y x, in_bounds rows cols y x = true ->
      (is_visited st y x <-> In (y, x) seen);
  s_zero : forall y x, in_bounds rows cols y x = true ->
      nd_get 0 (distance_map st) y x = 0
}.

(** Invariant of [while queue:]. *)
Record bfs_inv (rows cols : Z) (sources : list station) (st : bfs_state)
    : Prop := {
  inv_shape_d : shaped rows cols (distance_map st);
  inv_shape_v : shaped rows cols (visited st);
  inv_queue : forall y x k, In (y, x, k) (queue st) ->
      in_bounds rows cols y x = true /\ is_visited st y x /\
      nearest sources y x k;
  inv_seeds : forall s, In s sources -> is_visited st (fst s) (snd s);
  inv_dist : forall y x, in_bounds rows cols y x = true -> is_visited st y x ->
      nearest sources y x (nd_get 0 (distance_map st) y x);
  inv_closed : forall y x, in_bounds rows cols y x = true ->
      is_visited st y x -> ~ queued (queue st) y x ->
      forall dy dx, In (dy, dx) directions ->
        in_bounds rows cols (y + dy) (x + dx) = true ->
        is_visited st (y + dy) (x + dx);
  inv_layers : layered (queue st)
}.

(** Invariant of [for dy, dx in directions] while [(y, x, k)] is expanded;
    [done] lists the directions already handled. *)
Record visit_inv (rows cols : Z) (sources : list station) (y x k : Z)
    (done : list (Z * Z)) (st : bfs_state) : Prop := {
  v_shape_d : shaped rows cols (distance_map st);
  v_shape_v : shaped rows cols (visited st);
  v_queue : forall y' x' k', In (y', x', k') (queue st) ->
      in_bounds rows cols y' x' = true /\ is_visited st y' x' /\
      nearest sources y' x' k';
  v_seeds : forall s, In s sources -> is_visited st (fst s) (snd s);
  v_dist : forall y' x', in_bounds rows cols y' x' = true ->
      is_visited st y' x' ->
      nearest sources y' x' (nd_get 0 (distance_map st) y' x');
  v_closed : forall y' x', in_bounds rows cols y' x' = true ->
      is_visited st y' x' -> ~ queued (queue st) y' x' -> (y', x') <> (y, x) ->
      forall dy dx, In (dy, dx) directions ->
        in_bounds rows cols (y' + dy) (x' + dx) = true ->
        is_visited st (y' + dy) (x' + dx);
  v_done : forall dy dx, In (dy, dx) done ->
      in_bounds rows cols (y + dy) (x + dx) = true ->
      is_visited st (y + dy) (x + dx);
  v_layers : layered (queue st);
  v_band : forall e, In e (queue st) -> k <= snd e <= k + 1;
  v_low : forall y' x' m, in_bounds rows cols y' x' = true ->
      nearest sources y' x' m -> m <= k -> is_visited st y' x';
  v_self : in_bounds rows cols y x = true /\ is_visited st y x /\
      nearest sources y x k
}.

(** The number of cells not yet marked, and the measure that each iteration
    of [while queue:] lowers by one. *)
Definition unvisited (a : ndarray bool) : nat :=
  length (filter negb (concat a)).

Definition bfs_measure (st : bfs_state) : nat :=
  (unvisited (visited st) + length (queue st))%nat.

(** [popped] lists the entries dequeued so far: together with the queue they
    account for exactly the visited cells. *)
Record trace_inv (rows cols : Z) (distinct : Prop) (popped : list entry)
    (st : bfs_state) : Prop := {
  t_shape : shaped rows cols (visited st);
  t_cells : forall y x, in_bounds rows cols y x = true ->
      (is_visited st y x <-> In (y, x) (map cell_of (popped ++ queue st)));
  t_bounds : forall y x, In (y, x) (map cell_of (popped ++ queue st)) ->
      in_bounds rows cols y x = true;
  t_nodup : distinct -> NoDup (map cell_of (popped ++ queue st))
}.

(** The three strategies give the same distance at every cell and the same
    radius. *)
Definition strategies_agree (rows cols : Z) (stations : list station) : Prop :=
  forall fuel, (bfs_fuel rows cols stations <= fuel)%nat ->
  exists field,
    get_nearest_distance_to_police_stations_bfs fuel rows cols stations
    = Some (Ok field) /\
    (forall i j, 0 <= i < rows -> 0 <= j < cols ->
       get_nearest_distance_to_police_stations_brutal_force i j stations
       = Fin (nd_get 0 field i j) /\
       get_nearest_distance_to_police_stations_kd_tree i j stations
       = Ok (Fin (nd_get 0 field i j))) /\
    largest_of_field rows cols field
    = largest_by_brutal_force rows cols stations /\
    get_largest_nearest_distance_to_police_stations rows cols stations
    = largest_by_brutal_force rows cols stations.

(** The solver returns the maximum over the cells of the nearest-station
    distance: a number R >= 0 that no cell's nearest distance exceeds and
    some cell's nearest distance attains. *)
Definition radius_is_tight_maximum (rows cols : Z) (stations : list station)
    : Prop :=
  exists R,
    get_largest_nearest_distance_to_police_stations rows cols stations
    = Ok (Fin R) /\
    0 <= R /\
    (forall i j, 0 <= i < rows -> 0 <= j < cols ->
       exists d, nearest stations i j d /\ d <= R) /\
    (exists i j, 0 <= i < rows /\ 0 <= j < cols /\ nearest stations i j R).

(** The inputs the spec calls invalid, and the fail-fast behaviour it
    promises for them. *)
Definition invalid_input (rows cols : Z) (stations : list station) : Prop :=
  rows <= 0 \/ cols <= 0 \/ stations = [].

(** The solver, and the flood fill, end in an exception. *)
Definition solver_fails (rows cols : Z) (stations : list station) : Prop :=
  exists e,
    get_largest_nearest_distance_to_police_stations rows cols stations = Raise e.

Definition bfs_fails (fuel : nat) (rows cols : Z) (stations : list station)
    : Prop :=
  exists e,
    get_nearest_distance_to_police_stations_bfs fuel rows cols stations
    = Some (Raise e).

(** How often the cell [(y, x)] is dequeued during the run from [st0]. *)
Definition times_dequeued (fuel : nat) (rows cols : Z) (st0 : bfs_state)
    (y x : Z) : nat :=
  count_occ cell_eq_dec (map cell_of (bfs_dequeued fuel rows cols st0)) (y, x).

(** Every cell of the grid is dequeued exactly once. *)
Definition visited_exactly_once (fuel : nat) (rows cols : Z)
    (stations : list station) : Prop :=
  exists st0, bfs_seeded rows cols stations = Ok st0 /\
    forall y x, in_bounds rows cols y x = true ->
      times_dequeued fuel rows cols st0 y x = 1%nat.

(** A click the handler records. *)
Definition accepted (rows cols : Z) (event : click) : bool :=
  inaxes event && in_bounds rows cols (ydata event) (xdata event).

(** The stations the recorded clicks stand for, in click order. *)
Definition placed (rows cols : Z) (events : list click) : list station :=
  map (fun e => (ydata e, xdata e)) (filter (accepted rows cols) events).


(** The depths of a list of entries never decrease. *)
Fixpoint by_depth (q : list entry) : Prop :=
  match q with
  | [] => True
  | e :: q' => (forall e', In e' q' -> snd e <= snd e') /\ by_depth q'
  end.

(** The nodes reached by a tree: node 0 and the targets of its edges. *)
Definition reached (tree : weights) : list Z :=
  0 :: map (fun item => snd (fst item)) tree.

(** The edges of [tree] were added one at a time, each from a node reached
    so far ([seen]) to a new node, and each a lightest edge of the graph that
    leaves the nodes reached so far. *)
Fixpoint greedy_from (graph : weights) (seen : list Z) (tree : weights)
    : Prop :=
  match tree with
  | [] => True
  | ((u, v), w) :: tree' =>
      In u seen /\ ~ In v seen /\ In ((u, v), w) graph /\
      (forall a b w', In ((a, b), w') graph -> In a seen -> ~ In b seen ->
         w <= w') /\
      greedy_from graph (seen ++ [v]) tree'
  end.

(** No edge of the graph leaves the set [nodes]. *)
Definition closed_under (graph : weights) (nodes : list Z) : Prop :=
  forall a b w, In ((a, b), w) graph -> In a nodes -> In b nodes.

(** The weights of the heap items never decrease. *)
Fixpoint weight_sorted (heap : list heap_item) : Prop :=
  match heap with
  | [] => True
  | h :: t => (forall x, In x t -> fst h <= fst x) /\ weight_sorted t
  end.

(** Invariant of the main loop of [prim]. *)
Record prim_inv (graph : weights) (st : prim_state) : Prop := {
  p_visited : visited_nodes st = reached (min_node_weights st);
  p_nodup : NoDup (visited_nodes st);
  p_sound : forall w a b, In (w, (a, b)) (weight_heap st) ->
      In ((a, b), w) graph /\ In a (visited_nodes st);
  p_complete : forall a b w, In ((a, b), w) graph ->
      In a (visited_nodes st) -> ~ In b (visited_nodes st) ->
      In (w, (a, b)) (weight_heap st);
  p_sorted : weight_sorted (weight_heap st);
  p_greedy : greedy_from graph [0] (min_node_weights st)
}.

(** Two nodes joined by an item of [es], in either direction. *)
Definition adj (es : weights) (x y : Z) : Prop :=
  exists w, In ((x, y), w) es \/ In ((y, x), w) es.

(** Two nodes connected through the items of [es]. *)
Inductive conn (es : weights) : Z -> Z -> Prop :=
| conn_refl (a : Z) : conn es a a
| conn_step (a b c : Z) : adj es a b -> conn es b c -> conn es a c.

(** Consecutive nodes of the list are joined by an item of [es]. *)
Fixpoint chain (es : weights) (nodes : list Z) : Prop :=
  match nodes with
  | [] => True
  | p :: rest =>
      match rest with
      | [] => True
      | q :: _ => adj es p q /\ chain es rest
      end
  end.

(** The total weight of a list of items. *)
Definition total_weight (es : weights) : Z :=
  fold_right (fun item acc => snd item + acc) 0 es.

(** Invariant of the loops of [generate_graph]: the dictionary holds
    exactly the two directions of every pair handled so far ([handled]) whose
    coin came up, with the weight drawn for the pair. *)
Definition gen_inv (randint : Z -> Z -> Z) (coin : Z -> Z -> bool)
    (handled : Z -> Z -> Prop) (d : weights) : Prop :=
  NoDup (map fst d) /\
  forall a b w, dict_get d (a, b) = Some w <->
    a <> b /\ handled (Z.min a b) (Z.max a b) /\
    coin (Z.min a b) (Z.max a b) = true /\
    w = randint (Z.min a b) (Z.max a b).

(** ** Arithmetic of [min] and [max] on numbers *)

Lemma py_min_Fin (a b : Z) : py_min (Fin a) (Fin b) = Fin (Z.min a b).
Proof.
  unfold py_min; simpl. destruct (Z.ltb_spec b a); f_equal; lia.
Qed.

Lemma py_max_Fin (a b : Z) : py_max (Fin a) (Fin b) = Fin (Z.max a b).
Proof.
  unfold py_max; simpl. destruct (Z.ltb_spec a b); f_equal; lia.
Qed.

Lemma py_min_Inf_l (b : number) : py_min Inf b = b.
Proof. destruct b; reflexivity. Qed.

Lemma py_min_Inf_r (a : number) : py_min a Inf = a.
Proof. destruct a; reflexivity. Qed.

Lemma py_min_comm (a b : number) : py_min a b = py_min b a.
Proof.
  destruct a as [a|], b as [b|]; try reflexivity.
  rewrite !py_min_Fin. f_equal; lia.
Qed.

Lemma py_min_assoc (a b c : number) :
  py_min (py_min a b) c = py_min a (py_min b c).
Proof.
  destruct a as [a|], b as [b|], c as [c|];
    rewrite ?py_min_Inf_l, ?py_min_Inf_r, ?py_min_Fin; try reflexivity.
  f_equal; lia.
Qed.

(** ** The brute-force scan computes the nearest distance *)

Lemma brutal_force_scan (i j : Z) (stations : list station) :
  get_nearest_distance_to_police_stations_brutal_force i j stations
  = scan i j Inf stations.
Proof.
  unfold get_nearest_distance_to_police_stations_brutal_force, scan.
  generalize Inf. induction stations as [|[py px] t IH]; intros b; simpl.
  - reflexivity.
  - apply IH.
Qed.

Lemma scan_init (i j : Z) (pts : list station) (b : number) :
  scan i j b pts = py_min b (scan i j Inf pts).
Proof.
  unfold scan. revert b. induction pts as [|p t IH]; intros b; simpl.
  - now rewrite py_min_Inf_r.
  - rewrite IH, (IH (py_min Inf _)), py_min_Inf_l. apply py_min_assoc.
Qed.

Lemma scan_Fin (i j : Z) (pts : list station) (b : Z) :
  exists k, scan i j (Fin b) pts = Fin k /\ k <= b /\
    (forall s, In s pts -> k <= minkowski_inf i j s) /\
    (k = b \/ exists s, In s pts /\ minkowski_inf i j s = k).
Proof.
  revert b. induction pts as [|p t IH]; intros b.
  - exists b. unfold scan; simpl. repeat split; auto; try lia; try (intros s []).
  - unfold scan; simpl. rewrite py_min_Fin.
    destruct (IH (Z.min b (minkowski_inf i j p))) as (k & E & Hle & Hlb & Hat).
    exists k. split; [exact E|]. split; [lia|]. split.
    + intros s [<-|Hs]; [lia | now apply Hlb].
    + destruct Hat as [->|(s & Hs & Hk)].
      * destruct (Z.min_spec b (minkowski_inf i j p)) as [[_ ->]|[_ ->]];
          [now left | right; exists p; split; [now left | reflexivity]].
      * right. exists s. split; [now right | exact Hk].
Qed.

Lemma nearest_unique (stations : list station) (i j k k' : Z) :
  nearest stations i j k -> nearest stations i j k' -> k = k'.
Proof.
  intros [(s & Hs & E) L] [(s' & Hs' & E') L'].
  specialize (L _ Hs'). specialize (L' _ Hs). lia.
Qed.

Lemma brutal_force_nearest_ex (i j : Z) (stations : list station) :
  stations <> [] ->
  exists k, get_nearest_distance_to_police_stations_brutal_force i j stations
            = Fin k /\ nearest stations i j k.
Proof.
  intros Hne. rewrite brutal_force_scan.
  destruct stations as [|p t]; [congruence|].
  unfold scan; simpl.
  destruct (scan_Fin i j t (minkowski_inf i j p)) as (k & E & Hle & Hlb & Hat).
  exists k. split; [exact E|]. split.
  - destruct Hat as [->|(s & Hs & Hk)].
    + exists p. split; [now left | reflexivity].
    + exists s. split; [now right | exact Hk].
  - intros s [<-|Hs]; [lia | now apply Hlb].
Qed.

Lemma brutal_force_nearest (i j k : Z) (stations : list station) :
  nearest stations i j k ->
  get_nearest_distance_to_police_stations_brutal_force i j stations = Fin k.
Proof.
  intros Hn.
  assert (Hne : stations <> []).
  { destruct Hn as [(s & Hs & _) _]. intros ->. destruct Hs. }
  destruct (brutal_force_nearest_ex i j stations Hne) as (k' & E & Hn').
  rewrite E. f_equal. eapply nearest_unique; eauto.
Qed.

(** ** Rounding to double precision *)

Lemma log2_small (a : Z) : a < 2 ^ 53 <-> Z.log2 a - 52 <= 0.
Proof.
  destruct (Z.le_gt_cases a 0) as [H|H].
  - rewrite (Z.log2_nonpos a H). lia.
  - pose proof (Z.log2_lt_pow2 a 53 H). lia.
Qed.

Lemma magnitude_small (a : Z) : a < 2 ^ 53 -> float64_magnitude a = a.
Proof.
  intros H. unfold float64_magnitude.
  apply log2_small in H.
  destruct (Z.leb_spec (Z.log2 a - 52) 0); [reflexivity | lia].
Qed.

(** From 2^53 on, with [2 ^ e] the unit in the last place: the significand
    [q] has 53 bits, and the result is [q] or [q + 1] units. *)
Lemma magnitude_large (a : Z) :
  2 ^ 53 <= a ->
  let e := Z.log2 a - 52 in
  let q := a / 2 ^ e in
  0 < e /\ 0 < 2 ^ e /\ 2 ^ 52 <= q < 2 ^ 53 /\
  q * 2 ^ e <= a < (q + 1) * 2 ^ e /\
  a mod 2 ^ e = a - q * 2 ^ e /\
  (float64_magnitude a = q * 2 ^ e \/ float64_magnitude a = (q + 1) * 2 ^ e) /\
  (float64_magnitude a = (q + 1) * 2 ^ e <->
   (2 ^ (e - 1) < a mod 2 ^ e \/ (a mod 2 ^ e = 2 ^ (e - 1) /\ Z.even q = false))).
Proof.
  intros Ha e q.
  assert (He : 0 < e).
  { unfold e. pose proof (log2_small a). lia. }
  assert (Hp : 0 < 2 ^ e) by (apply Z.pow_pos_nonneg; lia).
  assert (Hpos : 0 < a) by lia.
  destruct (Z.log2_spec a Hpos) as [Hlo Hhi].
  replace (Z.log2 a) with (e + 52) in Hlo by (unfold e; lia).
  replace (Z.succ (Z.log2 a)) with (e + 53) in Hhi by (unfold e; lia).
  rewrite Z.pow_add_r in Hlo, Hhi by lia.
  pose proof (Z.div_mod a (2 ^ e) ltac:(lia)) as Hdm.
  pose proof (Z.mod_pos_bound a (2 ^ e) Hp) as Hm.
  fold q in Hdm.
  assert (Hq : 2 ^ 52 <= q < 2 ^ 53) by nia.
  split; [exact He|]. split; [exact Hp|]. split; [exact Hq|].
  split; [nia|]. split; [lia|].
  unfold float64_magnitude. fold e.
  destruct (Z.leb_spec e 0) as [L|L]; [lia|]. fold q.
  destruct (Z.ltb_spec (a mod 2 ^ e) (2 ^ (e - 1))) as [H1|H1]; cbn [orb].
  - split; [now left|]. split; [nia | lia].
  - destruct (Z.eqb_spec (a mod 2 ^ e) (2 ^ (e - 1))) as [H2|H2]; cbn [andb].
    + destruct (Z.even q) eqn:Ev.
      * split; [now left|]. split; [nia|]. intros [H|[_ H]]; [lia | discriminate].
      * split; [now right|]. split; [|reflexivity]. intros _. now right.
    + split; [now right|]. split; [|reflexivity]. intros _. left. lia.
Qed.

Lemma magnitude_mono (a b : Z) :
  a <= b -> float64_magnitude a <= float64_magnitude b.
Proof.
  intros Hab.
  destruct (Z.lt_ge_cases b (2 ^ 53)) as [Hb|Hb].
  - rewrite !magnitude_small by lia. exact Hab.
  - destruct (magnitude_large b Hb) as (Heb & Hpb & Hqb & Hrb & Hmb & Hvb & Hub).
    destruct (Z.lt_ge_cases a (2 ^ 53)) as [Ha|Ha].
    + rewrite (magnitude_small a Ha).
      assert (2 ^ 53 <= (b / 2 ^ (Z.log2 b - 52)) * 2 ^ (Z.log2 b - 52)).
      { replace (2 ^ 53) with (2 ^ 52 * 2 ^ 1) by reflexivity.
        assert (2 ^ 1 <= 2 ^ (Z.log2 b - 52)) by (apply Z.pow_le_mono_r; lia).
        nia. }
      destruct Hvb as [-> | ->]; nia.
    + destruct (magnitude_large a Ha) as (Hea & Hpa & Hqa & Hra & Hma & Hva & Hua).
      assert (Hl : Z.log2 a <= Z.log2 b) by now apply Z.log2_le_mono.
      set (ea := Z.log2 a - 52) in *. set (eb := Z.log2 b - 52) in *.
      set (qa := a / 2 ^ ea) in *. set (qb := b / 2 ^ eb) in *.
      destruct (Z.eq_dec ea eb) as [E|E].
      * assert (Hq : qa <= qb).
        { unfold qa, qb. rewrite E. apply Z.div_le_mono; lia. }
        destruct (Z.eq_dec qa qb) as [Eq|Eq].
        -- destruct Hva as [Hva|Hva];
             [destruct Hvb as [-> | ->]; rewrite Hva, E, Eq; nia|].
           assert (Hup : float64_magnitude b = (qb + 1) * 2 ^ eb).
           { apply Hub. apply Hua in Hva. rewrite Hma in Hva. rewrite Hmb.
             rewrite <- E, <- Eq. rewrite <- E in Hmb. destruct Hva as [H|[H Ev]].
             - left. lia.
             - destruct (Z.eq_dec a b) as [->|Hne]; [right; split; [lia | exact Ev]|].
               left. lia. }
           rewrite Hva, Hup, E, Eq. lia.
        -- assert ((qa + 1) * 2 ^ ea <= qb * 2 ^ eb) by (rewrite E; nia).
           destruct Hva as [-> | ->], Hvb as [-> | ->]; nia.
      * assert (Hlt : ea + 1 <= eb) by (unfold ea, eb in *; lia).
        assert (Hpw : 2 ^ (ea + 1) <= 2 ^ eb) by (apply Z.pow_le_mono_r; lia).
        rewrite Z.pow_add_r in Hpw by lia. change (2 ^ 1) with 2 in Hpw.
        assert ((qa + 1) * 2 ^ ea <= qb * 2 ^ eb).
        { change (2 ^ 53) with (2 * 2 ^ 52) in Hqa. nia. }
        destruct Hva as [-> | ->], Hvb as [-> | ->]; nia.
Qed.

Lemma magnitude_nonneg (a : Z) : 0 <= a -> 0 <= float64_magnitude a.
Proof.
  intros H. rewrite <- (magnitude_small 0) by reflexivity.
  now apply magnitude_mono.
Qed.

Lemma magnitude_pos (a : Z) : 0 < a -> 0 < float64_magnitude a.
Proof.
  intros H. pose proof (magnitude_mono 1 a ltac:(lia)) as M.
  rewrite (magnitude_small 1) in M by reflexivity. lia.
Qed.

Lemma float64_round_opp (n : Z) : float64_round (- n) = - float64_round n.
Proof.
  unfold float64_round. rewrite Z.abs_opp, Z.sgn_opp. lia.
Qed.

Lemma float64_round_nonneg (n : Z) :
  0 <= n -> float64_round n = float64_magnitude n.
Proof.
  intros H. unfold float64_round. rewrite Z.abs_eq by exact H.
  destruct (Z.eq_dec n 0) as [->|Hn]; [reflexivity|].
  rewrite Z.sgn_pos by lia. lia.
Qed.

Lemma float64_round_abs (n : Z) :
  Z.abs (float64_round n) = float64_magnitude (Z.abs n).
Proof.
  destruct (Z.le_gt_cases 0 n) as [H|H].
  - rewrite float64_round_nonneg by exact H. rewrite (Z.abs_eq n) by exact H.
    apply Z.abs_eq. now apply magnitude_nonneg.
  - replace n with (- - n) at 1 by lia. rewrite float64_round_opp, Z.abs_opp.
    rewrite float64_round_nonneg by lia.
    rewrite (Z.abs_neq n) by lia. apply Z.abs_eq. apply magnitude_nonneg. lia.
Qed.

(** Rounding keeps every integer of magnitude up to 2^53. *)
Lemma float64_round_exact (n : Z) :
  Z.abs n <= 2 ^ 53 -> float64_round n = n.
Proof.
  intros H. destruct (Z.eq_dec (Z.abs n) (2 ^ 53)) as [E|E].
  - destruct (Z.abs_spec n) as [[_ A]|[_ A]]; rewrite A in E.
    + rewrite E. reflexivity.
    + replace n with (- 2 ^ 53) by lia. reflexivity.
  - unfold float64_round. rewrite magnitude_small by lia.
    destruct n; simpl; lia.
Qed.

Lemma float64_round_zero (n : Z) : float64_round n = 0 <-> n = 0.
Proof.
  split; [|intros ->; reflexivity].
  intros H. pose proof (float64_round_abs n) as A. rewrite H in A.
  destruct (Z.eq_dec n 0) as [E|E]; [exact E|].
  pose proof (magnitude_pos (Z.abs n)). simpl in A. lia.
Qed.

(** A double below 2^53 in magnitude is the rounding of itself only. *)
Lemma float64_round_small (n k : Z) :
  float64_round n = k -> Z.abs k < 2 ^ 53 -> n = k.
Proof.
  intros E Hk. destruct (Z.le_gt_cases (Z.abs n) (2 ^ 53)) as [H|H].
  - now rewrite float64_round_exact in E.
  - exfalso. pose proof (float64_round_abs n) as A. rewrite E in A.
    pose proof (magnitude_mono (2 ^ 53) (Z.abs n) ltac:(lia)) as M.
    change (float64_magnitude (2 ^ 53)) with (2 ^ 53) in M. lia.
Qed.

Lemma float64_max_large : 2 ^ 53 <= float64_max.
Proof. intros H. vm_compute in H. discriminate. Qed.

Lemma float64_finite_exact (n : Z) :
  Z.abs n <= 2 ^ 53 -> float64_finite n = true.
Proof.
  intros H. unfold float64_finite. rewrite float64_round_exact by exact H.
  apply Z.leb_le. pose proof float64_max_large. lia.
Qed.

Lemma float64_of_int_finite (n : Z) :
  float64_of_int n
  = if float64_finite n then Ok (float64_round n) else Raise OverflowError.
Proof. reflexivity. Qed.

Lemma float64_abs_sub_exact (a b : Z) :
  Z.abs (a - b) <= 2 ^ 53 -> float64_abs_sub a b = Fin (Z.abs (a - b)).
Proof.
  intros H. unfold float64_abs_sub. rewrite float64_round_exact by exact H.
  pose proof float64_max_large.
  destruct (Z.leb_spec (Z.abs (a - b)) float64_max); [reflexivity | lia].
Qed.

(** The difference of a double up to 2^53 and a finite double is finite. *)
Lemma float64_abs_sub_finite (a b : Z) :
  Z.abs a <= 2 ^ 53 -> Z.abs b <= float64_max ->
  float64_abs_sub a b = Fin (Z.abs (float64_round (a - b))).
Proof.
  intros Ha Hb. unfold float64_abs_sub.
  rewrite float64_round_abs.
  pose proof (magnitude_mono (Z.abs (a - b)) (2 ^ 53 + float64_max) ltac:(lia)) as M.
  assert (E : float64_magnitude (2 ^ 53 + float64_max) = float64_max).
  { apply Z.eqb_eq. vm_compute. reflexivity. }
  rewrite E in M.
  destruct (Z.leb_spec (float64_magnitude (Z.abs (a - b))) float64_max);
    [reflexivity | lia].
Qed.

(** ** The order on numbers *)

Lemma number_le_refl (a : number) : number_le a a.
Proof. destruct a; unfold number_le; simpl; [apply Z.ltb_irrefl | reflexivity]. Qed.

Lemma number_le_trans (a b c : number) :
  number_le a b -> number_le b c -> number_le a c.
Proof.
  unfold number_le. destruct a, b, c; simpl; try congruence.
  rewrite !Z.ltb_ge. lia.
Qed.

Lemma number_le_antisym (a b : number) :
  number_le a b -> number_le b a -> a = b.
Proof.
  unfold number_le. destruct a, b; simpl; try congruence.
  rewrite !Z.ltb_ge. intros. f_equal. lia.
Qed.

Lemma number_le_Inf (a : number) : number_le a Inf.
Proof. destruct a; reflexivity. Qed.

Lemma number_le_Fin (a b : Z) : number_le (Fin a) (Fin b) <-> a <= b.
Proof. unfold number_le. simpl. rewrite Z.ltb_ge. reflexivity. Qed.

Lemma py_min_le_l (a b : number) : number_le (py_min a b) a.
Proof.
  unfold py_min, number_le. destruct a, b; simpl; try reflexivity.
  - destruct (Z.ltb_spec z0 z); simpl; apply Z.ltb_ge; lia.
  - apply Z.ltb_irrefl.
Qed.

Lemma py_min_le_r (a b : number) : number_le (py_min a b) b.
Proof.
  unfold py_min, number_le. destruct a, b; simpl; try reflexivity.
  - destruct (Z.ltb_spec z0 z); simpl; apply Z.ltb_ge; lia.
  - apply Z.ltb_irrefl.
Qed.

Lemma py_min_left (a b : number) : number_le a b -> py_min a b = a.
Proof. unfold number_le, py_min. now intros ->. Qed.

Lemma py_min_cases (a b : number) : py_min a b = a \/ py_min a b = b.
Proof. unfold py_min. destruct (number_ltb b a); auto. Qed.

Lemma py_max_ge_l (a b : number) : number_le a (py_max a b).
Proof.
  unfold py_max, number_le. destruct a as [a|], b as [b|]; simpl;
    try reflexivity.
  destruct (Z.ltb_spec a b); simpl; apply Z.ltb_ge; lia.
Qed.

Lemma py_max_ge_r (a b : number) : number_le b (py_max a b).
Proof.
  unfold py_max, number_le. destruct a as [a|], b as [b|]; simpl;
    try reflexivity.
  destruct (Z.ltb_spec a b); simpl; apply Z.ltb_ge; lia.
Qed.

Lemma py_max_mono (a b a' b' : number) :
  number_le a a' -> number_le b b' -> number_le (py_max a b) (py_max a' b').
Proof.
  intros Ha Hb. unfold py_max at 1. destruct (number_ltb a b).
  - eapply number_le_trans; [exact Hb | apply py_max_ge_r].
  - eapply number_le_trans; [exact Ha | apply py_max_ge_l].
Qed.

(** A larger exact difference gives a distance that is not smaller. *)
Lemma float64_abs_sub_mono (a b a' b' : Z) :
  Z.abs (a - b) <= Z.abs (a' - b') ->
  number_le (float64_abs_sub a b) (float64_abs_sub a' b').
Proof.
  intros H. unfold float64_abs_sub. rewrite !float64_round_abs.
  pose proof (magnitude_mono _ _ H) as M.
  destruct (Z.leb_spec (float64_magnitude (Z.abs (a' - b'))) float64_max);
    [|apply number_le_Inf].
  destruct (Z.leb_spec (float64_magnitude (Z.abs (a - b))) float64_max); [|lia].
  now apply number_le_Fin.
Qed.

(** ** The running minimum over a list of points *)

Lemma scan_by_init (g : station -> number) (pts : list station) (b : number) :
  scan_by g b pts = py_min b (scan_by g Inf pts).
Proof.
  unfold scan_by. revert b. induction pts as [|p t IH]; intros b; simpl.
  - now rewrite py_min_Inf_r.
  - rewrite IH, (IH (py_min Inf _)), py_min_Inf_l. apply py_min_assoc.
Qed.

Lemma scan_by_cons (g : station -> number) (p : station) (pts : list station) :
  scan_by g Inf (p :: pts) = py_min (g p) (scan_by g Inf pts).
Proof.
  unfold scan_by at 1. simpl. rewrite py_min_Inf_l. apply scan_by_init.
Qed.

Lemma scan_by_app (g : station -> number) (l r : list station) :
  scan_by g Inf (l ++ r) = py_min (scan_by g Inf l) (scan_by g Inf r).
Proof.
  unfold scan_by at 1. rewrite fold_left_app. fold (scan_by g Inf l).
  fold (scan_by g (scan_by g Inf l) r). apply scan_by_init.
Qed.

Lemma scan_by_le (g : station -> number) (pts : list station) (p : station) :
  In p pts -> number_le (scan_by g Inf pts) (g p).
Proof.
  induction pts as [|q t IH]; intros H; [destruct H|].
  rewrite scan_by_cons. destruct H as [->|H].
  - apply py_min_le_l.
  - eapply number_le_trans; [apply py_min_le_r | now apply IH].
Qed.

Lemma scan_by_attained (g : station -> number) (pts : list station) :
  pts <> [] -> exists p, In p pts /\ scan_by g Inf pts = g p.
Proof.
  induction pts as [|q t IH]; intros H; [congruence|].
  rewrite scan_by_cons. destruct t as [|q' t'].
  - exists q. split; [now left|]. unfold scan_by. simpl. apply py_min_Inf_r.
  - destruct (IH ltac:(discriminate)) as (p & Hp & E).
    destruct (py_min_cases (g q) (scan_by g Inf (q' :: t'))) as [-> | ->].
    + exists q. split; [now left | reflexivity].
    + exists p. split; [now right | exact E].
Qed.

Lemma scan_by_lower (g : station -> number) (pts : list station) (c : number) :
  (forall p, In p pts -> number_le c (g p)) -> number_le c (scan_by g Inf pts).
Proof.
  intros H. destruct pts as [|q t]; [apply number_le_Inf|].
  destruct (scan_by_attained g (q :: t)) as (p & Hp & ->); [discriminate|].
  now apply H.
Qed.

Lemma scan_by_incl (g : station -> number) (l l' : list station) :
  incl l l' -> number_le (scan_by g Inf l') (scan_by g Inf l).
Proof.
  intros H. apply scan_by_lower. intros p Hp. apply scan_by_le, H, Hp.
Qed.

Lemma scan_by_ext_In (g : station -> number) (l l' : list station) :
  (forall p, In p l <-> In p l') -> scan_by g Inf l = scan_by g Inf l'.
Proof.
  intros H. apply number_le_antisym; apply scan_by_incl; intros p; apply H.
Qed.

Lemma scan_by_ext (g g' : station -> number) (pts : list station) :
  (forall p, In p pts -> g p = g' p) ->
  forall b, scan_by g b pts = scan_by g' b pts.
Proof.
  unfold scan_by. induction pts as [|p t IH]; intros H b; simpl.
  - reflexivity.
  - rewrite (H p (or_introl eq_refl)). apply IH. intros q Hq. apply H. now right.
Qed.

(** ** The KD-tree query is a scan in double precision *)

Lemma float64_minkowski_inf_coord (d : bool) (i j c : Z) (p : station) :
  Z.abs ((if d then j else i) - c) <= Z.abs ((if d then j else i) - coord d p) ->
  number_le (float64_abs_sub (if d then j else i) c) (float64_minkowski_inf i j p).
Proof.
  intros H. unfold float64_minkowski_inf.
  eapply number_le_trans; [apply (float64_abs_sub_mono _ _ _ _ H)|].
  unfold coord. destruct d; [apply py_max_ge_r | apply py_max_ge_l].
Qed.

Lemma kd_query_correct (t : kdtree) (i j : Z) :
  kd_wf t ->
  forall best,
    kd_query t i j best
    = py_min best (scan_by (float64_minkowski_inf i j) Inf (kd_points t)).
Proof.
  induction t as [pts | d split less IHl greater IHg]; intros Hwf best.
  - simpl. apply (scan_by_init (float64_minkowski_inf i j) pts best).
  - destruct Hwf as (Hl & Hg & Wl & Wg).
    specialize (IHl Wl). specialize (IHg Wg).
    cbn [kd_query kd_points]. rewrite scan_by_app.
    set (c := if d then j else i).
    destruct (Z.leb_spec c split) as [Hc | Hc].
    + rewrite IHl.
      destruct (number_ltb (float64_abs_sub c split) _) eqn:Hcut.
      * rewrite IHg. apply py_min_assoc.
      * rewrite <- py_min_assoc. symmetry. apply py_min_left.
        eapply number_le_trans; [exact Hcut|].
        apply scan_by_lower. intros p Hp. specialize (Hg p Hp).
        apply float64_minkowski_inf_coord. fold c. lia.
    + rewrite IHg.
      destruct (number_ltb (float64_abs_sub c split) _) eqn:Hcut.
      * rewrite IHl, py_min_assoc. f_equal. apply py_min_comm.
      * rewrite (py_min_comm (scan_by _ Inf (kd_points less))).
        rewrite <- py_min_assoc. symmetry. apply py_min_left.
        eapply number_le_trans; [exact Hcut|].
        apply scan_by_lower. intros p Hp. specialize (Hl p Hp).
        apply float64_minkowski_inf_coord. fold c. lia.
Qed.

Lemma kd_build_points (fuel : nat) (pts : list station) (p : station) :
  In p (kd_points (kd_build fuel pts)) <-> In p pts.
Proof.
  revert pts. induction fuel as [|fuel IH]; intros pts.
  - reflexivity.
  - destruct pts as [|p0 t]; [reflexivity|].
    cbn [kd_build]. destruct (_ <=? leafsize)%nat; [reflexivity|].
    destruct (_ =? _); [reflexivity|].
    cbn [kd_points]. rewrite in_app_iff, !IH, !filter_In.
    split.
    + intros [[H _]|[H _]]; exact H.
    + intros H. match goal with |- (_ /\ (?a <=? ?b) = true) \/ _ =>
        destruct (Z.leb_spec a b) end.
      * left. now split.
      * right. split; [exact H|]. now apply Z.ltb_lt.
Qed.

Lemma kd_build_wf (fuel : nat) (pts : list station) :
  kd_wf (kd_build fuel pts).
Proof.
  revert pts. induction fuel as [|fuel IH]; intros pts.
  - exact I.
  - destruct pts as [|p0 t]; [exact I|].
    cbn [kd_build]. destruct (_ <=? leafsize)%nat; [exact I|].
    destruct (_ =? _); [exact I|].
    cbn [kd_wf]. repeat split; try apply IH.
    + intros p Hp. apply kd_build_points, filter_In in Hp.
      now apply Z.leb_le.
    + intros p Hp. apply kd_build_points, filter_In in Hp.
      now apply Z.ltb_lt.
Qed.

Lemma scan_ext_In (i j : Z) (l l' : list station) :
  (forall p, In p l <-> In p l') -> scan i j Inf l = scan i j Inf l'.
Proof.
  intros H. destruct l as [|p t].
  - destruct l' as [|p' t']; [reflexivity|].
    destruct (proj2 (H p') (or_introl eq_refl)).
  - rewrite <- !brutal_force_scan.
    destruct (brutal_force_nearest_ex i j (p :: t)) as (k & -> & Hn);
      [discriminate|].
    symmetry. apply brutal_force_nearest.
    destruct Hn as [(s & Hs & E) L]. split.
    + exists s. split; [now apply H | exact E].
    + intros s' Hs'. apply L. now apply H.
Qed.

Lemma float64_array_eq (data : list station) :
  float64_array data
  = if forallb station_finite data then Ok (map float64_station data)
    else Raise OverflowError.
Proof.
  induction data as [|[py px] t IH]; [reflexivity|].
  cbn [float64_array forallb map]. unfold station_finite at 1.
  cbn [fst snd]. rewrite !float64_of_int_finite.
  destruct (float64_finite py); [|reflexivity].
  destruct (float64_finite px); [|reflexivity].
  cbn [bind andb]. rewrite IH.
  destruct (forallb station_finite t); reflexivity.
Qed.

(** What the query function returns: a [ValueError] without stations, an
    [OverflowError] when a station or the cell does not fit a double, and
    otherwise the least of the double-precision distances. *)
Lemma kd_tree_float64_scan (i j : Z) (stations : list station) :
  stations <> [] ->
  get_nearest_distance_to_police_stations_kd_tree i j stations
  = if convertible i j stations then Ok (float64_scan i j stations)
    else Raise OverflowError.
Proof.
  intros Hne. destruct stations as [|p t]; [congruence|].
  unfold get_nearest_distance_to_police_stations_kd_tree, KDTree, KDTree_query,
    convertible, float64_scan.
  rewrite float64_array_eq.
  destruct (forallb station_finite (p :: t)); [|reflexivity].
  cbn [bind andb]. rewrite !float64_of_int_finite.
  destruct (float64_finite i); [|reflexivity].
  destruct (float64_finite j); [|reflexivity].
  cbn [bind andb]. f_equal.
  rewrite kd_query_correct by apply kd_build_wf.
  rewrite py_min_Inf_l.
  apply scan_by_ext_In. intros q. apply kd_build_points.
Qed.

Lemma kd_tree_empty (i j : Z) :
  get_nearest_distance_to_police_stations_kd_tree i j [] = Raise ValueError.
Proof. reflexivity. Qed.

(** Where double precision is exact the query returns the brute-force
    distance. *)
Lemma kd_tree_brutal_force (i j : Z) (stations : list station) :
  stations <> [] ->
  Z.abs i <= 2 ^ 53 -> Z.abs j <= 2 ^ 53 ->
  (forall s, In s stations ->
     Z.abs (fst s) <= 2 ^ 53 /\ Z.abs (snd s) <= 2 ^ 53 /\
     Z.abs (i - fst s) <= 2 ^ 53 /\ Z.abs (j - snd s) <= 2 ^ 53) ->
  get_nearest_distance_to_police_stations_kd_tree i j stations
  = Ok (get_nearest_distance_to_police_stations_brutal_force i j stations).
Proof.
  intros Hne Hi Hj Hs. rewrite kd_tree_float64_scan by exact Hne.
  assert (Hfin : forallb station_finite stations = true).
  { apply forallb_forall. intros s H. destruct (Hs s H) as (H1 & H2 & _).
    unfold station_finite. now rewrite !float64_finite_exact. }
  assert (Hmap : map float64_station stations = stations).
  { rewrite <- (map_id stations) at 2. apply map_ext_in.
    intros [py px] H. destruct (Hs _ H) as (H1 & H2 & _).
    unfold float64_station. cbn [fst snd] in *.
    now rewrite !float64_round_exact. }
  unfold convertible, float64_scan.
  rewrite Hfin, !float64_finite_exact, Hmap, !float64_round_exact by assumption.
  cbn [andb]. f_equal. rewrite brutal_force_scan. unfold scan.
  apply scan_by_ext. intros s H. destruct (Hs s H) as (_ & _ & H3 & H4).
  unfold float64_minkowski_inf, minkowski_inf.
  rewrite !float64_abs_sub_exact by assumption. apply py_max_Fin.
Qed.

Lemma exact_in_double_cell (rows cols : Z) (stations : list station) (i j : Z) :
  exact_in_double rows cols stations -> stations <> [] ->
  0 <= i < rows -> 0 <= j < cols ->
  get_nearest_distance_to_police_stations_kd_tree i j stations
  = Ok (get_nearest_distance_to_police_stations_brutal_force i j stations).
Proof.
  intros Hex Hne Hi Hj.
  destruct stations as [|s0 t] eqn:E; [congruence|]. rewrite <- E in *.
  assert (H0 : In s0 stations) by (rewrite E; now left).
  destruct (Hex i j s0 Hi Hj H0) as (Ai & Aj & _).
  apply kd_tree_brutal_force; auto.
  intros s Hs. destruct (Hex i j s Hi Hj Hs) as (_ & _ & H1 & H2 & H3 & H4).
  auto.
Qed.

(** Stations inside a grid with sides up to 2^53 are handled exactly. *)
Lemma in_bounds_exact (rows cols : Z) (stations : list station) :
  rows <= 2 ^ 53 -> cols <= 2 ^ 53 ->
  (forall s, In s stations -> station_in_bounds rows cols s = true) ->
  exact_in_double rows cols stations.
Proof.
  intros Hr Hc Hin i j s Hi Hj Hs.
  specialize (Hin s Hs). unfold station_in_bounds, in_bounds in Hin.
  rewrite !andb_true_iff in Hin.
  rewrite !Z.leb_le, !Z.ltb_lt in Hin. lia.
Qed.

(** ** The solver loop *)

Lemma In_range (n i : Z) : In i (range n) <-> 0 <= i < n.
Proof.
  unfold range. rewrite in_map_iff. split.
  - intros (k & <- & Hk). apply in_seq in Hk. lia.
  - intros H. exists (Z.to_nat i). split; [lia|]. apply in_seq. lia.
Qed.

Lemma range_nonpos (n : Z) : n <= 0 -> range n = [].
Proof.
  intros H. unfold range. now replace (Z.to_nat n) with O by lia.
Qed.

Lemma range_pos (n : Z) : 0 < n -> exists t, range n = 0 :: t.
Proof.
  intros H. unfold range. destruct (Z.to_nat n) as [|k] eqn:E; [lia|].
  simpl. eauto.
Qed.

Lemma max_over_cells_loops (query : Z -> Z -> result number) (rows cols : Z) :
  max_over_cells query rows cols
  = grid_loop query (range rows) (range cols) (Ok (Fin 0)).
Proof. reflexivity. Qed.

Lemma row_loop_spec (query : Z -> Z -> result number) (f : Z -> Z -> Z)
    (i : Z) (js : list Z) :
  (forall j, In j js -> query i j = Ok (Fin (f i j))) ->
  forall m, exists m',
    row_loop query i js (Ok (Fin m)) = Ok (Fin m') /\ m <= m' /\
    (forall j, In j js -> f i j <= m') /\
    (m' = m \/ exists j, In j js /\ f i j = m').
Proof.
  unfold row_loop. induction js as [|j js IH]; intros Hq m.
  - exists m. simpl. repeat split; auto; try lia; try (intros j []).
  - simpl. rewrite (Hq j (or_introl eq_refl)). cbn [bind]. rewrite py_max_Fin.
    destruct (IH (fun j' H => Hq j' (or_intror H)) (Z.max m (f i j)))
      as (m' & E & Hle & Hub & Hat).
    exists m'. split; [exact E|]. split; [lia|]. split.
    + intros j' [<-|Hj']; [lia | now apply Hub].
    + destruct Hat as [->|(j' & Hj' & Ej')].
      * destruct (Z.max_spec m (f i j)) as [[_ ->]|[_ ->]];
          [right; exists j; split; [now left | reflexivity] | now left].
      * right. exists j'. split; [now right | exact Ej'].
Qed.

Lemma grid_loop_spec (query : Z -> Z -> result number) (f : Z -> Z -> Z)
    (rs js : list Z) :
  (forall i j, In i rs -> In j js -> query i j = Ok (Fin (f i j))) ->
  forall m, exists m',
    grid_loop query rs js (Ok (Fin m)) = Ok (Fin m') /\ m <= m' /\
    (forall i j, In i rs -> In j js -> f i j <= m') /\
    (m' = m \/ exists i j, In i rs /\ In j js /\ f i j = m').
Proof.
  unfold grid_loop. induction rs as [|i rs IH]; intros Hq m.
  - exists m. simpl. repeat split; auto; try lia; try (intros i j []).
  - simpl.
    destruct (row_loop_spec query f i js (fun j H => Hq i j (or_introl eq_refl) H) m)
      as (m1 & E1 & Hle1 & Hub1 & Hat1).
    rewrite E1.
    destruct (IH (fun i' j H H' => Hq i' j (or_intror H) H') m1)
      as (m' & E & Hle & Hub & Hat).
    exists m'. split; [exact E|]. split; [lia|]. split.
    + intros i' j [<-|Hi'] Hj.
      * specialize (Hub1 j Hj). lia.
      * now apply Hub.
    + destruct Hat as [->|(i' & j & Hi' & Hj & Ej)].
      * destruct Hat1 as [->|(j & Hj & Ej)]; [now left|].
        right. exists i, j. repeat split; auto; now left.
      * right. exists i', j. repeat split; auto; now right.
Qed.

(** What the two nested loops return when every cell has a finite
    distance [f i j]. *)
Lemma max_over_cells_spec (query : Z -> Z -> result number) (f : Z -> Z -> Z)
    (rows cols : Z) :
  (forall i j, 0 <= i < rows -> 0 <= j < cols -> query i j = Ok (Fin (f i j))) ->
  exists R,
    max_over_cells query rows cols = Ok (Fin R) /\ 0 <= R /\
    (forall i j, 0 <= i < rows -> 0 <= j < cols -> f i j <= R) /\
    (R = 0 \/ exists i j, 0 <= i < rows /\ 0 <= j < cols /\ f i j = R).
Proof.
  intros Hq. rewrite max_over_cells_loops.
  destruct (grid_loop_spec query f (range rows) (range cols)) with (m := 0)
    as (R & E & Hle & Hub & Hat).
  { intros i j Hi Hj. apply Hq; now apply In_range. }
  exists R. split; [exact E|]. split; [exact Hle|]. split.
  - intros i j Hi Hj. apply Hub; now apply In_range.
  - destruct Hat as [->|(i & j & Hi & Hj & Ej)]; [now left|].
    right. exists i, j. rewrite <- !In_range. auto.
Qed.

Lemma row_loop_ext (q1 q2 : Z -> Z -> result number) (i : Z) (js : list Z) :
  (forall j, In j js -> q1 i j = q2 i j) ->
  forall acc, row_loop q1 i js acc = row_loop q2 i js acc.
Proof.
  unfold row_loop. induction js as [|j js IH]; intros H acc; simpl.
  - reflexivity.
  - rewrite (H j (or_introl eq_refl)). apply IH. intros j' Hj'. apply H. now right.
Qed.

Lemma max_over_cells_ext (q1 q2 : Z -> Z -> result number) (rows cols : Z) :
  (forall i j, 0 <= i < rows -> 0 <= j < cols -> q1 i j = q2 i j) ->
  max_over_cells q1 rows cols = max_over_cells q2 rows cols.
Proof.
  intros H. rewrite !max_over_cells_loops. unfold grid_loop.
  assert (Hr : forall i j, In i (range rows) -> In j (range cols) -> q1 i j = q2 i j).
  { intros i j Hi Hj. apply H; now apply In_range. }
  clear H. generalize (Ok (Fin 0)). revert Hr.
  induction (range rows) as [|i rs IH]; intros Hr acc; simpl.
  - reflexivity.
  - rewrite (row_loop_ext q1 q2 i (range cols)).
    + apply IH. intros i' j Hi' Hj. apply Hr; [now right | exact Hj].
    + intros j Hj. apply Hr; [now left | exact Hj].
Qed.

Lemma row_loop_Raise (query : Z -> Z -> result number) (i : Z) (js : list Z)
    (e : exn) :
  row_loop query i js (Raise e) = Raise e.
Proof.
  unfold row_loop. induction js as [|j js IH]; simpl; auto.
Qed.

Lemma grid_loop_Raise (query : Z -> Z -> result number) (rs js : list Z)
    (e : exn) :
  grid_loop query rs js (Raise e) = Raise e.
Proof.
  unfold grid_loop. induction rs as [|i rs IH]; simpl; auto.
  now rewrite row_loop_Raise.
Qed.

(** On a grid with a cell, a query that raises at the first cell makes the
    loop raise. *)
Lemma max_over_cells_Raise (query : Z -> Z -> result number) (rows cols : Z)
    (e : exn) :
  0 < rows -> 0 < cols -> query 0 0 = Raise e ->
  max_over_cells query rows cols = Raise e.
Proof.
  intros Hr Hc Hq. rewrite max_over_cells_loops.
  destruct (range_pos rows Hr) as (rs & ->).
  destruct (range_pos cols Hc) as (js & ->).
  change (grid_loop query (0 :: rs) (0 :: js) (Ok (Fin 0)))
    with (grid_loop query rs (0 :: js)
            (row_loop query 0 js
               (max_distance <- Ok (Fin 0) ;;
                distance <- query 0 0 ;;
                Ok (py_max max_distance distance)))).
  cbn [bind]. rewrite Hq. cbn [bind].
  rewrite row_loop_Raise. apply grid_loop_Raise.
Qed.

(** Without a cell the loop body never runs. *)
Lemma max_over_cells_no_cell (query : Z -> Z -> result number) (rows cols : Z) :
  rows <= 0 \/ cols <= 0 -> max_over_cells query rows cols = Ok (Fin 0).
Proof.
  intros [H|H]; rewrite max_over_cells_loops.
  - now rewrite (range_nonpos rows H).
  - rewrite (range_nonpos cols H). unfold grid_loop.
    induction (range rows) as [|i rs IH]; simpl; auto.
Qed.

(** ** Arrays *)

Lemma in_bounds_iff (rows cols y x : Z) :
  in_bounds rows cols y x = true <-> 0 <= y < rows /\ 0 <= x < cols.
Proof.
  unfold in_bounds. rewrite !andb_true_iff, !Z.leb_le, !Z.ltb_lt. lia.
Qed.

Lemma length_list_set {A : Type} (n : nat) (v : A) (l : list A) :
  length (list_set n v l) = length l.
Proof.
  revert n. induction l as [|h t IH]; intros [|n]; simpl; auto.
Qed.

Lemma nth_list_set_eq {A : Type} (n : nat) (v d : A) (l : list A) :
  (n < length l)%nat -> nth n (list_set n v l) d = v.
Proof.
  revert n. induction l as [|h t IH]; intros [|n] H; simpl in *; try lia; auto.
  apply IH. lia.
Qed.

Lemma nth_list_set_neq {A : Type} (n m : nat) (v d : A) (l : list A) :
  n <> m -> nth m (list_set n v l) d = nth m l d.
Proof.
  revert n m. induction l as [|h t IH]; intros [|n] [|m] H; simpl; auto.
  congruence.
Qed.

Lemma In_list_set {A : Type} (n : nat) (v r : A) (l : list A) :
  In r (list_set n v l) -> (r = v /\ (n < length l)%nat) \/ In r l.
Proof.
  revert n. induction l as [|h t IH]; intros [|n]; simpl; auto.
  - intros [<-|H]; [left; split; [reflexivity | lia] | auto].
  - intros [<-|H]; auto. destruct (IH _ H) as [[-> Hn]|Hin]; auto.
    left. split; [reflexivity | lia].
Qed.

Lemma shaped_np_full {A : Type} (rows cols : Z) (v : A) (a : ndarray A) :
  np_full rows cols v = Ok a -> shaped rows cols a.
Proof.
  unfold np_full. destruct (_ || _); [discriminate|].
  intros [= <-]. split.
  - apply repeat_length.
  - intros r Hr. apply repeat_spec in Hr. subst r. apply repeat_length.
Qed.

Lemma nd_get_np_full {A : Type} (rows cols : Z) (v d : A) (a : ndarray A)
    (y x : Z) :
  np_full rows cols v = Ok a -> in_bounds rows cols y x = true ->
  nd_get d a y x = v.
Proof.
  unfold np_full. destruct (_ || _); [discriminate|].
  intros [= <-] Hb. apply in_bounds_iff in Hb. unfold nd_get.
  rewrite nth_repeat_lt by lia. apply nth_repeat_lt. lia.
Qed.

Lemma shaped_row {A : Type} (rows cols : Z) (a : ndarray A) (y : Z) :
  shaped rows cols a -> 0 <= y < rows ->
  length (nth (Z.to_nat y) a []) = Z.to_nat cols.
Proof.
  intros [Hl Hr] Hy. apply Hr, nth_In. lia.
Qed.

Lemma shaped_nd_set {A : Type} (rows cols : Z) (a : ndarray A) (y x : Z)
    (v : A) :
  shaped rows cols a -> shaped rows cols (nd_set a y x v).
Proof.
  intros [Hl Hr]. unfold nd_set. split.
  - now rewrite length_list_set.
  - intros r Hin. apply In_list_set in Hin. destruct Hin as [[-> Hy]|Hin].
    + rewrite length_list_set. apply Hr, nth_In, Hy.
    + now apply Hr.
Qed.

Lemma nd_get_set_eq {A : Type} (rows cols : Z) (a : ndarray A) (y x : Z)
    (v d : A) :
  shaped rows cols a -> in_bounds rows cols y x = true ->
  nd_get d (nd_set a y x v) y x = v.
Proof.
  intros Hs Hb. apply in_bounds_iff in Hb. unfold nd_get, nd_set.
  pose proof (shaped_row rows cols a y Hs (proj1 Hb)) as Hrow.
  destruct Hs as [Hl _].
  rewrite nth_list_set_eq by lia. apply nth_list_set_eq. lia.
Qed.

Lemma nd_get_set_neq {A : Type} (rows cols : Z) (a : ndarray A)
    (y x y' x' : Z) (v d : A) :
  shaped rows cols a ->
  in_bounds rows cols y x = true -> in_bounds rows cols y' x' = true ->
  (y', x') <> (y, x) ->
  nd_get d (nd_set a y x v) y' x' = nd_get d a y' x'.
Proof.
  intros Hs Hb Hb' Hne. apply in_bounds_iff in Hb, Hb'.
  unfold nd_get, nd_set. destruct Hs as [Hl _].
  destruct (Z.eq_dec y' y) as [->|Hy].
  - rewrite nth_list_set_eq by lia. apply nth_list_set_neq.
    intros E. apply Hne. f_equal. lia.
  - rewrite nth_list_set_neq by lia. reflexivity.
Qed.

(** ** King moves and the L-infinity distance *)

Lemma In_directions (dy dx : Z) :
  In (dy, dx) directions <->
  -1 <= dy <= 1 /\ -1 <= dx <= 1 /\ (dy <> 0 \/ dx <> 0).
Proof.
  unfold directions. split.
  - simpl. intros H.
    repeat (destruct H as [H|H]; [injection H; intros; subst; lia|]). destruct H.
  - intros (Hy & Hx & Hne).
    assert (Ey : dy = -1 \/ dy = 0 \/ dy = 1) by lia.
    assert (Ex : dx = -1 \/ dx = 0 \/ dx = 1) by lia.
    destruct Ey as [-> | [-> | ->]], Ex as [-> | [-> | ->]]; simpl; try tauto; lia.
Qed.

Lemma directions_opposite (dy dx : Z) :
  In (dy, dx) directions -> In (- dy, - dx) directions.
Proof. rewrite !In_directions. lia. Qed.

Lemma nearest_nonneg (stations : list station) (i j k : Z) :
  nearest stations i j k -> 0 <= k.
Proof.
  intros [(s & _ & <-) _]. unfold minkowski_inf. lia.
Qed.

Lemma nearest_zero (stations : list station) (i j : Z) :
  nearest stations i j 0 <-> In (i, j) stations.
Proof.
  split.
  - intros [([sy sx] & Hs & E) _]. unfold minkowski_inf in E. simpl in E.
    replace i with sy by lia. replace j with sx by lia. exact Hs.
  - intros H. split.
    + exists (i, j). split; [exact H|]. unfold minkowski_inf. simpl. lia.
    + intros s _. unfold minkowski_inf. lia.
Qed.

Lemma nearest_ex (stations : list station) (i j : Z) :
  stations <> [] -> exists k, nearest stations i j k.
Proof.
  intros H. destruct (brutal_force_nearest_ex i j stations H) as (k & _ & Hk).
  eauto.
Qed.

(** One king move changes the nearest distance by at most one. *)
Lemma nearest_step (stations : list station) (i j k dy dx k' : Z) :
  In (dy, dx) directions ->
  nearest stations i j k -> nearest stations (i + dy) (j + dx) k' ->
  k' <= k + 1.
Proof.
  intros Hd [(s & Hs & E) _] [_ L]. apply In_directions in Hd.
  specialize (L s Hs). unfold minkowski_inf in *. lia.
Qed.

(** From a cell at positive distance, some king move inside the grid leads
    one step closer to the stations. *)
Lemma nearest_descent (rows cols : Z) (stations : list station) (i j k : Z) :
  (forall s, In s stations -> station_in_bounds rows cols s = true) ->
  in_bounds rows cols i j = true ->
  nearest stations i j k -> 0 < k ->
  exists dy dx, In (dy, dx) directions /\
    in_bounds rows cols (i + dy) (j + dx) = true /\
    nearest stations (i + dy) (j + dx) (k - 1).
Proof.
  intros Hin Hb [([sy sx] & Hs & E) L] Hk.
  pose proof (Hin _ Hs) as Hsb. unfold station_in_bounds in Hsb. simpl in Hsb.
  apply in_bounds_iff in Hb, Hsb. unfold minkowski_inf in E. simpl in E.
  exists (Z.sgn (sy - i)), (Z.sgn (sx - j)). split; [|split].
  - apply In_directions. lia.
  - apply in_bounds_iff. lia.
  - split.
    + exists (sy, sx). split; [exact Hs|]. unfold minkowski_inf. simpl. lia.
    + intros s' Hs'. specialize (L s' Hs'). unfold minkowski_inf in *. lia.
Qed.

(** ** The flood fill: invariants of the two loops *)

Lemma layered_snoc (q : list entry) (e : entry) :
  layered q -> (forall e', In e' q -> snd e' <= snd e <= snd e' + 1) ->
  layered (q ++ [e]).
Proof.
  induction q as [|h t IH]; simpl.
  - intros _ _. split; [intros e' [] | exact I].
  - intros [Hh Ht] Hall. split.
    + intros e' He'. apply in_app_or in He'. destruct He' as [He'|[<-|[]]].
      * now apply Hh.
      * apply Hall. now left.
    + apply IH; [exact Ht|]. intros e' He'. apply Hall. now right.
Qed.

Lemma mark_mono (rows cols : Z) (a : ndarray bool) (ny nx y x : Z) :
  shaped rows cols a ->
  in_bounds rows cols ny nx = true -> in_bounds rows cols y x = true ->
  nd_get false a y x = true ->
  nd_get false (nd_set a ny nx true) y x = true.
Proof.
  intros Hs Hn Hb Hv. destruct (cell_eq_dec (y, x) (ny, nx)) as [E|E].
  - injection E as -> ->. eapply nd_get_set_eq; eauto.
  - erewrite nd_get_set_neq; eauto.
Qed.

Lemma mark_inv (rows cols : Z) (a : ndarray bool) (ny nx y x : Z) :
  shaped rows cols a ->
  in_bounds rows cols ny nx = true -> in_bounds rows cols y x = true ->
  nd_get false (nd_set a ny nx true) y x = true ->
  (y, x) = (ny, nx) \/ nd_get false a y x = true.
Proof.
  intros Hs Hn Hb Hv. destruct (cell_eq_dec (y, x) (ny, nx)) as [E|E].
  - now left.
  - right. erewrite nd_get_set_neq in Hv; eauto.
Qed.

Section Flood.

Variables rows cols : Z.
Variable sources : list station.
Hypothesis sources_in_bounds :
  forall s, In s sources -> station_in_bounds rows cols s = true.

(** Every cell whose distance does not exceed that of any queued entry has
    been visited. *)
Lemma inv_low_visited (st : bfs_state) :
  bfs_inv rows cols sources st ->
  forall m y x, in_bounds rows cols y x = true -> nearest sources y x m ->
    (forall e, In e (queue st) -> m <= snd e) -> is_visited st y x.
Proof.
  intros Hinv m. 
  assert (Hm : forall n : nat, forall m y x, m = Z.of_nat n ->
            in_bounds rows cols y x = true -> nearest sources y x m ->
            (forall e, In e (queue st) -> m <= snd e) -> is_visited st y x).
  { induction n as [|n IH]; intros m' y x Em Hb Hn Hq.
    - subst m'. apply nearest_zero in Hn.
      apply (inv_seeds _ _ _ st Hinv (y, x) Hn).
    - destruct (nearest_descent rows cols sources y x m' sources_in_bounds Hb Hn)
        as (dy & dx & Hd & Hb' & Hn'); [lia|].
      assert (Hv' : is_visited st (y + dy) (x + dx)).
      { apply (IH (m' - 1) _ _); auto; [lia|].
        intros e He. specialize (Hq e He). lia. }
      assert (Hnq : ~ queued (queue st) (y + dy) (x + dx)).
      { intros (k' & Hk'). destruct (inv_queue _ _ _ st Hinv _ _ _ Hk') as (_ & _ & Hn'').
        pose proof (nearest_unique _ _ _ _ _ Hn' Hn'') as E.
        specialize (Hq _ Hk'). simpl in Hq. lia. }
      pose proof (inv_closed _ _ _ st Hinv _ _ Hb' Hv' Hnq (- dy) (- dx)
                    (directions_opposite _ _ Hd)) as Hc.
      replace (y + dy + - dy) with y in Hc by lia.
      replace (x + dx + - dx) with x in Hc by lia.
      now apply Hc. }
  intros y x Hb Hn Hq.
  apply (Hm (Z.to_nat m) m y x); auto.
  pose proof (nearest_nonneg _ _ _ _ Hn). lia.
Qed.

Lemma visit_inv_step (y x k : Z) (done : list (Z * Z)) (st : bfs_state)
    (d : Z * Z) :
  visit_inv rows cols sources y x k done st -> In d directions ->
  visit_inv rows cols sources y x k (done ++ [d]) (bfs_visit rows cols y x k st d).
Proof.
  intros V Hd. destruct d as [dy dx]. unfold bfs_visit.
  destruct (in_bounds rows cols (y + dy) (x + dx)) eqn:Hb;
    [destruct (nd_get false (visited st) (y + dy) (x + dx)) eqn:Hv|]; simpl.
  - (* already visited *)
    destruct V. constructor; auto.
    intros dy' dx' Hin Hb'. apply in_app_or in Hin.
    destruct Hin as [Hin|[E|[]]]; [now apply v_done0|].
    injection E as <- <-. exact Hv.
  - (* a fresh cell *)
    set (ny := y + dy) in *. set (nx := x + dx) in *.
    destruct V. destruct v_self0 as (Hby & Hvy & Hny).
    assert (Hn1 : nearest sources ny nx (k + 1)).
    { assert (Hne : sources <> []).
      { destruct Hny as [(s & Hs & _) _]. intros E. rewrite E in Hs. destruct Hs. }
      destruct (nearest_ex sources ny nx Hne) as (m & Hm).
      pose proof (nearest_step _ _ _ _ _ _ _ Hd Hny Hm) as Hle.
      destruct (Z_le_gt_dec m k) as [Hlow|Hhigh].
      - pose proof (v_low0 ny nx m Hb Hm Hlow) as Hvis.
        unfold is_visited in Hvis. congruence.
      - replace (k + 1) with m by lia. exact Hm. }
    assert (Hmono : forall y' x', in_bounds rows cols y' x' = true ->
              nd_get false (visited st) y' x' = true ->
              nd_get false (nd_set (visited st) ny nx true) y' x' = true).
    { intros. eapply mark_mono; eauto. }
    constructor; unfold is_visited in *; simpl.
    + now apply shaped_nd_set.
    + now apply shaped_nd_set.
    + intros y' x' k' Hin. apply in_app_or in Hin.
      destruct Hin as [Hin|[E|[]]].
      * destruct (v_queue0 _ _ _ Hin) as (B & Vi & N). auto.
      * injection E as <- <- <-.
        split; [exact Hb | split; [eapply nd_get_set_eq; eauto | exact Hn1]].
    + intros s Hs. apply Hmono; auto. apply (sources_in_bounds s Hs).
    + intros y' x' Hb' Hv'.
      destruct (mark_inv _ _ _ _ _ _ _ v_shape_v0 Hb Hb' Hv') as [E|Hold].
      * injection E as -> ->. erewrite nd_get_set_eq; eauto.
      * destruct (cell_eq_dec (y', x') (ny, nx)) as [E|E].
        -- injection E as -> ->. congruence.
        -- erewrite nd_get_set_neq; eauto.
    + intros y' x' Hb' Hv' Hnq Hne dy' dx' Hd' Hb''.
      destruct (mark_inv _ _ _ _ _ _ _ v_shape_v0 Hb Hb' Hv') as [E|Hold].
      * exfalso. apply Hnq. exists (k + 1). injection E as -> ->.
        apply in_or_app. right. now left.
      * apply Hmono; auto. apply (v_closed0 y' x'); auto.
        intros (k' & Hk'). apply Hnq. exists k'. apply in_or_app. now left.
    + intros dy' dx' Hin Hb'. apply in_app_or in Hin.
      destruct Hin as [Hin|[E|[]]].
      * apply Hmono; auto.
      * injection E as <- <-. eapply nd_get_set_eq; eauto.
    + apply layered_snoc; auto. intros e' He'. specialize (v_band0 e' He').
      simpl. lia.
    + intros e He. apply in_app_or in He. destruct He as [He|[<-|[]]]; auto.
      simpl. lia.
    + intros y' x' m Hb' Hm Hle. apply Hmono; auto. eapply v_low0; eauto.
    + split; [exact Hby | split; [now apply Hmono | exact Hny]].
  - (* outside the grid *)
    destruct V. constructor; auto.
    intros dy' dx' Hin Hb'. apply in_app_or in Hin.
    destruct Hin as [Hin|[E|[]]]; [now apply v_done0|].
    injection E as <- <-. congruence.
Qed.

Lemma visit_inv_fold (y x k : Z) (ds done : list (Z * Z)) (st : bfs_state) :
  visit_inv rows cols sources y x k done st -> (forall d, In d ds -> In d directions) ->
  visit_inv rows cols sources y x k (done ++ ds) (fold_left (bfs_visit rows cols y x k) ds st).
Proof.
  revert done st. induction ds as [|d ds IH]; intros done st V Hds; simpl.
  - now rewrite app_nil_r.
  - replace (done ++ d :: ds) with ((done ++ [d]) ++ ds)
      by (rewrite <- app_assoc; reflexivity).
    apply IH.
    + apply visit_inv_step; [exact V | apply Hds; now left].
    + intros d' Hd'. apply Hds. now right.
Qed.

Lemma layered_head_min (e : entry) (q : list entry) :
  layered (e :: q) -> forall e', In e' (e :: q) -> snd e <= snd e'.
Proof.
  intros [H _] e' [<-|He']; [lia | apply H, He'].
Qed.

(** One iteration of the [while] loop keeps the invariant. *)
Lemma bfs_inv_expand (st : bfs_state) (e : entry) (rest : list entry) :
  bfs_inv rows cols sources st -> queue st = e :: rest ->
  bfs_inv rows cols sources (bfs_expand rows cols e rest st).
Proof.
  intros Hinv Hq. destruct e as [[y x] k]. unfold bfs_expand.
  pose proof (inv_low_visited st Hinv) as Hlow.
  assert (Hhead : In (y, x, k) (queue st)) by (rewrite Hq; now left).
  destruct (inv_queue _ _ _ st Hinv _ _ _ Hhead) as (Hby & Hvy & Hny).
  pose proof (inv_layers _ _ _ st Hinv) as Hlay. rewrite Hq in Hlay.
  assert (V0 : visit_inv rows cols sources y x k []
            {| distance_map := distance_map st; visited := visited st;
               queue := rest |}).
  { destruct Hinv. constructor; unfold is_visited in *; simpl; auto.
    - intros y' x' k' Hin. apply inv_queue0. rewrite Hq. now right.
    - intros y' x' Hb' Hv' Hnq Hne. apply inv_closed0; auto.
      intros (k' & Hk'). rewrite Hq in Hk'. destruct Hk' as [E|Hk'].
      + injection E as -> -> _. now apply Hne.
      + apply Hnq. now exists k'.
    - apply Hlay.
    - intros e' He'. destruct Hlay as [Hb _]. apply (Hb e' He').
    - intros y' x' m Hb' Hm Hle. apply (Hlow m); auto.
      intros e' He'. rewrite Hq in He'.
      pose proof (layered_head_min _ _ Hlay e' He') as Hmin. simpl in Hmin. lia. }
  pose proof (visit_inv_fold y x k directions [] _ V0 (fun d H => H)) as V.
  change ([] ++ directions) with directions in V.
  destruct V. constructor; auto.
  intros y' x' Hb' Hv' Hnq dy dx Hd Hb''.
  destruct (cell_eq_dec (y', x') (y, x)) as [E|E].
  - injection E as -> ->. now apply v_done0.
  - now apply (v_closed0 y' x').
Qed.

(** When the loop ends every cell of the grid holds its nearest distance. *)
Lemma bfs_while_inv (fuel : nat) (st st' : bfs_state) :
  bfs_inv rows cols sources st -> bfs_while fuel rows cols st = Some st' ->
  bfs_inv rows cols sources st' /\ queue st' = [].
Proof.
  revert st. induction fuel as [|fuel IH]; intros st Hinv; simpl.
  - destruct (queue st) eqn:Hq; [|discriminate].
    intros [= <-]. now split.
  - destruct (queue st) as [|e rest] eqn:Hq.
    + intros [= <-]. now split.
    + apply IH. now apply bfs_inv_expand.
Qed.

Lemma bfs_inv_final (st : bfs_state) :
  bfs_inv rows cols sources st -> queue st = [] -> sources <> [] ->
  forall y x, in_bounds rows cols y x = true ->
    is_visited st y x /\ nearest sources y x (nd_get 0 (distance_map st) y x).
Proof.
  intros Hinv Hq Hne y x Hb.
  destruct (nearest_ex sources y x Hne) as (m & Hm).
  assert (Hv : is_visited st y x).
  { apply (inv_low_visited st Hinv m); auto. rewrite Hq. intros e []. }
  split; [exact Hv|]. now apply (inv_dist _ _ _ st Hinv).
Qed.

End Flood.

(** ** The seeding loop *)

Lemma fold_seed_filter (rows cols : Z) (stations : list station)
    (st : bfs_state) :
  fold_left (bfs_seed rows cols) stations st
  = fold_left (bfs_seed rows cols)
      (filter (station_in_bounds rows cols) stations) st.
Proof.
  revert st. induction stations as [|[py px] t IH]; intros st.
  - reflexivity.
  - cbn [filter fold_left].
    change (station_in_bounds rows cols (py, px))
      with (in_bounds rows cols py px).
    destruct (in_bounds rows cols py px) eqn:Hb.
    + cbn [fold_left]. apply IH.
    + replace (bfs_seed rows cols st (py, px)) with st
        by (unfold bfs_seed; now rewrite Hb).
      apply IH.
Qed.

Lemma seed_inv_fold (rows cols : Z) (ss seen : list station)
    (st : bfs_state) :
  seed_inv rows cols seen st ->
  (forall s, In s ss -> station_in_bounds rows cols s = true) ->
  seed_inv rows cols (seen ++ ss) (fold_left (bfs_seed rows cols) ss st).
Proof.
  revert seen st. induction ss as [|[py px] ss IH]; intros seen st Hs Hin; simpl.
  - now rewrite app_nil_r.
  - pose proof (app_assoc seen [((py, px) : station)] ss) as E.
    cbn [app] in E. rewrite E. clear E.
    pose proof (Hin (py, px) (or_introl eq_refl)) as Hb.
    unfold station_in_bounds in Hb. simpl in Hb. rewrite Hb.
    apply IH; [|intros s Hs'; apply Hin; now right].
    destruct Hs. constructor; unfold is_visited in *; simpl.
    + now apply shaped_nd_set.
    + now apply shaped_nd_set.
    + rewrite s_queue0, map_app. reflexivity.
    + intros y x Hb'. rewrite in_app_iff. split.
      * intros Hv.
        destruct (mark_inv _ _ _ _ _ _ _ s_shape_v0 Hb Hb' Hv) as [E|Hold].
        -- right. left. now symmetry.
        -- left. now apply s_visited0.
      * intros [Hold|[E|[]]].
        -- eapply mark_mono; eauto. now apply s_visited0.
        -- injection E as <- <-. eapply nd_get_set_eq; eauto.
    + intros y x Hb'. destruct (cell_eq_dec (y, x) (py, px)) as [E|E].
      * injection E as -> ->. eapply nd_get_set_eq; eauto.
      * erewrite nd_get_set_neq; eauto.
Qed.

(** The seeding loop succeeds on every grid without a negative side and
    leaves its invariant for the in-bounds stations. *)
Lemma bfs_seeded_inv (rows cols : Z) (stations : list station) :
  0 <= rows -> 0 <= cols ->
  exists st0, bfs_seeded rows cols stations = Ok st0 /\
    seed_inv rows cols (filter (station_in_bounds rows cols) stations) st0.
Proof.
  intros Hr Hc. unfold bfs_seeded.
  destruct (np_full rows cols 0) as [dm|] eqn:Edm.
  2:{ unfold np_full in Edm.
      destruct (Z.ltb_spec rows 0), (Z.ltb_spec cols 0); simpl in Edm;
        try lia; discriminate. }
  destruct (np_full rows cols false) as [vis|] eqn:Evis.
  2:{ unfold np_full in Evis.
      destruct (Z.ltb_spec rows 0), (Z.ltb_spec cols 0); simpl in Evis;
        try lia; discriminate. }
  cbn [bind]. eexists. split; [reflexivity|].
  rewrite fold_seed_filter.
  apply (seed_inv_fold rows cols _ []).
  - constructor; unfold is_visited; simpl.
    + eapply shaped_np_full; eauto.
    + eapply shaped_np_full; eauto.
    + reflexivity.
    + intros y x Hb. rewrite (nd_get_np_full _ _ _ _ _ _ _ Evis Hb).
      split; [discriminate | intros []].
    + intros y x Hb. apply (nd_get_np_full _ _ _ _ _ _ _ Edm Hb).
  - intros s Hs. now apply filter_In in Hs.
Qed.

Lemma layered_seeds (seen : list station) : layered (map seed_entry seen).
Proof.
  induction seen as [|s t IH]; simpl; [exact I|]. split; [|exact IH].
  intros e' He'. apply in_map_iff in He'. destruct He' as (s' & <- & _).
  simpl. lia.
Qed.

Lemma seed_inv_bfs_inv (rows cols : Z) (seen : list station) (st : bfs_state) :
  (forall s, In s seen -> station_in_bounds rows cols s = true) ->
  seed_inv rows cols seen st -> bfs_inv rows cols seen st.
Proof.
  intros Hin Hs. destruct Hs.
  assert (Hq : forall y x k, In (y, x, k) (queue st) -> k = 0 /\ In (y, x) seen).
  { intros y x k H. rewrite s_queue0 in H. apply in_map_iff in H.
    destruct H as ([sy sx] & E & Hs). unfold seed_entry in E. simpl in E.
    injection E as <- <- <-. auto. }
  constructor; auto.
  - intros y x k H. destruct (Hq _ _ _ H) as [-> Hs].
    pose proof (Hin _ Hs) as Hb. unfold station_in_bounds in Hb. simpl in Hb.
    split; [exact Hb|]. split; [now apply s_visited0 | now apply nearest_zero].
  - intros [sy sx] Hs. simpl. apply s_visited0; [apply (Hin _ Hs) | exact Hs].
  - intros y x Hb Hv. rewrite (s_zero0 y x Hb).
    apply nearest_zero. now apply s_visited0.
  - intros y x Hb Hv Hnq. exfalso. apply Hnq. exists 0.
    rewrite s_queue0. apply in_map_iff. exists (y, x).
    split; [reflexivity | now apply s_visited0].
  - rewrite s_queue0. apply layered_seeds.
Qed.

(** ** Termination of the flood fill *)

Lemma unmarked_list_set (r : list bool) (n : nat) :
  (n < length r)%nat -> nth n r false = false ->
  S (length (filter negb (list_set n true r))) = length (filter negb r).
Proof.
  revert n. induction r as [|b t IH]; intros [|n] Hn Hf; simpl in *; try lia.
  - subst b. reflexivity.
  - destruct b; simpl; rewrite <- (IH n) by (auto; lia); reflexivity.
Qed.

Lemma unmarked_concat_set (a : ndarray bool) (n : nat) (r' : list bool) :
  (n < length a)%nat ->
  (length (filter negb (concat (list_set n r' a)))
   + length (filter negb (nth n a [])))%nat
  = (length (filter negb (concat a)) + length (filter negb r'))%nat.
Proof.
  revert n. induction a as [|r t IH]; intros [|n] Hn; simpl in *; try lia.
  - rewrite !filter_app, !length_app. lia.
  - rewrite !filter_app, !length_app. specialize (IH n). lia.
Qed.

Lemma unvisited_mark (rows cols : Z) (a : ndarray bool) (y x : Z) :
  shaped rows cols a -> in_bounds rows cols y x = true ->
  nd_get false a y x = false ->
  S (unvisited (nd_set a y x true)) = unvisited a.
Proof.
  intros Hs Hb Hv. apply in_bounds_iff in Hb. unfold unvisited, nd_set.
  pose proof (shaped_row rows cols a y Hs (proj1 Hb)) as Hrow.
  destruct Hs as [Hl _]. unfold nd_get in Hv.
  pose proof (unmarked_concat_set a (Z.to_nat y)
                (list_set (Z.to_nat x) true (nth (Z.to_nat y) a []))) as H1.
  pose proof (unmarked_list_set (nth (Z.to_nat y) a []) (Z.to_nat x)) as H2.
  specialize (H1 ltac:(lia)). specialize (H2 ltac:(lia) Hv). lia.
Qed.

Lemma length_concat_shaped {A : Type} (rows cols : Z) (a : ndarray A) :
  shaped rows cols a ->
  length (concat a) = (Z.to_nat rows * Z.to_nat cols)%nat.
Proof.
  intros [Hl Hr]. rewrite <- Hl. clear Hl.
  induction a as [|r t IH]; simpl; [reflexivity|].
  rewrite length_app.
  rewrite IH by (intros r' Hr'; apply Hr; now right).
  rewrite (Hr r) by now left. reflexivity.
Qed.

Lemma unvisited_bound (rows cols : Z) (a : ndarray bool) :
  shaped rows cols a -> (unvisited a <= Z.to_nat rows * Z.to_nat cols)%nat.
Proof.
  intros Hs. rewrite <- (length_concat_shaped rows cols a Hs).
  apply filter_length_le.
Qed.

Lemma bfs_visit_measure (rows cols y x k : Z) (st : bfs_state) (d : Z * Z) :
  shaped rows cols (visited st) ->
  shaped rows cols (visited (bfs_visit rows cols y x k st d)) /\
  bfs_measure (bfs_visit rows cols y x k st d) = bfs_measure st.
Proof.
  intros Hs. destruct d as [dy dx]. unfold bfs_visit.
  destruct (in_bounds rows cols (y + dy) (x + dx)) eqn:Hb;
    [destruct (nd_get false (visited st) (y + dy) (x + dx)) eqn:Hv|];
    simpl; auto.
  split; [now apply shaped_nd_set|].
  unfold bfs_measure; simpl.
  pose proof (unvisited_mark rows cols _ _ _ Hs Hb Hv).
  rewrite length_app; simpl. lia.
Qed.

Lemma bfs_visits_measure (rows cols y x k : Z) (ds : list (Z * Z))
    (st : bfs_state) :
  shaped rows cols (visited st) ->
  shaped rows cols (visited (fold_left (bfs_visit rows cols y x k) ds st)) /\
  bfs_measure (fold_left (bfs_visit rows cols y x k) ds st) = bfs_measure st.
Proof.
  revert st. induction ds as [|d ds IH]; intros st Hs; simpl; auto.
  destruct (bfs_visit_measure rows cols y x k st d Hs) as [Hs' <-].
  now apply IH.
Qed.

(** Each iteration of the [while] loop lowers the measure by one. *)
Lemma bfs_expand_measure (rows cols : Z) (st : bfs_state) (e : entry)
    (rest : list entry) :
  shaped rows cols (visited st) -> queue st = e :: rest ->
  shaped rows cols (visited (bfs_expand rows cols e rest st)) /\
  S (bfs_measure (bfs_expand rows cols e rest st)) = bfs_measure st.
Proof.
  intros Hs Hq. destruct e as [[y x] k]. unfold bfs_expand.
  destruct (bfs_visits_measure rows cols y x k directions
              {| distance_map := distance_map st; visited := visited st;
                 queue := rest |} Hs) as [Hs' ->].
  split; [exact Hs'|]. unfold bfs_measure; simpl. rewrite Hq; simpl. lia.
Qed.

Lemma bfs_while_terminates (rows cols : Z) (fuel : nat) (st : bfs_state) :
  shaped rows cols (visited st) -> (bfs_measure st <= fuel)%nat ->
  exists st', bfs_while fuel rows cols st = Some st'.
Proof.
  revert st. induction fuel as [|fuel IH]; intros st Hs Hm.
  - unfold bfs_measure in Hm. destruct (queue st) eqn:Hq; simpl in *.
    + rewrite Hq. eauto.
    + lia.
  - simpl. destruct (queue st) as [|e rest] eqn:Hq; [eauto|].
    destruct (bfs_expand_measure rows cols st e rest Hs Hq) as [Hs' Hm'].
    apply IH; [exact Hs' | lia].
Qed.

Lemma bfs_while_fuel_mono (rows cols : Z) (fuel fuel' : nat)
    (st st' : bfs_state) :
  bfs_while fuel rows cols st = Some st' -> (fuel <= fuel')%nat ->
  bfs_while fuel' rows cols st = Some st' /\
  bfs_dequeued fuel' rows cols st = bfs_dequeued fuel rows cols st.
Proof.
  revert fuel' st. induction fuel as [|fuel IH]; intros fuel' st H Hle.
  - simpl in H. destruct (queue st) eqn:Hq; [|discriminate].
    destruct fuel'; simpl; rewrite Hq; auto.
  - destruct fuel' as [|fuel']; [lia|]. simpl in *.
    destruct (queue st) as [|e rest]; [auto|].
    destruct (IH fuel' _ H) as [H1 H2]; [lia|]. split; [exact H1|].
    now rewrite H2.
Qed.

(** ** The cells the flood fill dequeues *)

Lemma NoDup_snoc {A : Type} (l : list A) (a : A) :
  NoDup l -> ~ In a l -> NoDup (l ++ [a]).
Proof.
  intros Hl Ha. apply (Permutation_NoDup (l := a :: l)).
  - apply Permutation_cons_append.
  - now constructor.
Qed.

Section Trace.

Variables rows cols : Z.
Variable distinct : Prop.

Lemma trace_visit (popped : list entry) (y x k : Z) (st : bfs_state)
    (d : Z * Z) :
  trace_inv rows cols distinct popped st -> trace_inv rows cols distinct popped (bfs_visit rows cols y x k st d).
Proof.
  intros T. destruct d as [dy dx]. unfold bfs_visit.
  destruct (in_bounds rows cols (y + dy) (x + dx)) eqn:Hb;
    [destruct (nd_get false (visited st) (y + dy) (x + dx)) eqn:Hv|];
    simpl; auto.
  set (ny := y + dy) in *. set (nx := x + dx) in *.
  destruct T.
  assert (E : map cell_of (popped ++ queue st ++ [(ny, nx, k + 1)])
              = map cell_of (popped ++ queue st) ++ [(ny, nx)]).
  { now rewrite app_assoc, map_app. }
  constructor; unfold is_visited in *; simpl; rewrite ?E.
  - now apply shaped_nd_set.
  - intros y' x' Hb'. rewrite in_app_iff. split.
    + intros H. destruct (mark_inv _ _ _ _ _ _ _ t_shape0 Hb Hb' H) as [Eq|Hold].
      * right. left. now symmetry.
      * left. now apply t_cells0.
    + intros [Hold|[Eq|[]]].
      * eapply mark_mono; eauto. now apply t_cells0.
      * injection Eq as <- <-. eapply nd_get_set_eq; eauto.
  - intros y' x' H. apply in_app_or in H. destruct H as [H|[Eq|[]]].
    + now apply t_bounds0.
    + now injection Eq as <- <-.
  - intros Hd. apply NoDup_snoc; [now apply t_nodup0|].
    intros Hin. apply t_cells0 in Hin; [|exact Hb]. congruence.
Qed.

Lemma trace_visits (popped : list entry) (y x k : Z) (ds : list (Z * Z))
    (st : bfs_state) :
  trace_inv rows cols distinct popped st ->
  trace_inv rows cols distinct popped (fold_left (bfs_visit rows cols y x k) ds st).
Proof.
  revert st. induction ds as [|d ds IH]; intros st T; simpl; auto.
  apply IH. now apply trace_visit.
Qed.

Lemma trace_expand (popped : list entry) (st : bfs_state) (e : entry)
    (rest : list entry) :
  trace_inv rows cols distinct popped st -> queue st = e :: rest ->
  trace_inv rows cols distinct (popped ++ [e]) (bfs_expand rows cols e rest st).
Proof.
  intros T Hq. destruct e as [[y x] k]. unfold bfs_expand.
  apply trace_visits. destruct T. rewrite Hq in *.
  constructor; unfold is_visited in *; simpl; rewrite <- ?app_assoc; auto.
Qed.

Lemma trace_while (fuel : nat) (popped : list entry) (st st' : bfs_state) :
  trace_inv rows cols distinct popped st -> bfs_while fuel rows cols st = Some st' ->
  trace_inv rows cols distinct (popped ++ bfs_dequeued fuel rows cols st) st' /\ queue st' = [].
Proof.
  revert popped st. induction fuel as [|fuel IH]; intros popped st T; simpl.
  - destruct (queue st) eqn:Hq; [|discriminate].
    intros [= <-]. now rewrite app_nil_r.
  - destruct (queue st) as [|e rest] eqn:Hq.
    + intros [= <-]. now rewrite app_nil_r.
    + intros H. pose proof (trace_expand popped st e rest T Hq) as T'.
      destruct (IH _ _ T' H) as [T'' Hq'].
      rewrite <- app_assoc in T''. now split.
Qed.

End Trace.

Lemma cell_of_seed_entries (seen : list station) :
  map cell_of (map seed_entry seen) = seen.
Proof.
  rewrite map_map. rewrite <- (map_id seen) at 2. apply map_ext.
  now intros [sy sx].
Qed.

Lemma seed_inv_trace_inv (rows cols : Z) (seen : list station)
    (st : bfs_state) :
  (forall s, In s seen -> station_in_bounds rows cols s = true) ->
  seed_inv rows cols seen st -> trace_inv rows cols (NoDup seen) [] st.
Proof.
  intros Hin Hs. destruct Hs.
  constructor; simpl; rewrite ?s_queue0, ?cell_of_seed_entries; auto.
  intros y x H. apply (Hin _ H).
Qed.

(** Every dequeued entry carries the nearest distance of its cell. *)
Lemma dequeued_nearest (rows cols : Z) (sources : list station) :
  (forall s, In s sources -> station_in_bounds rows cols s = true) ->
  forall fuel st, bfs_inv rows cols sources st ->
  forall y x k, In (y, x, k) (bfs_dequeued fuel rows cols st) ->
    in_bounds rows cols y x = true /\ nearest sources y x k.
Proof.
  intros Hin. induction fuel as [|fuel IH]; intros st Hinv y x k; simpl.
  - destruct (queue st); intros [].
  - destruct (queue st) as [|e rest] eqn:Hq; [intros []|].
    intros [->|H].
    + destruct (inv_queue _ _ _ _ Hinv y x k) as (Hb & _ & Hn); auto.
      rewrite Hq. now left.
    + apply (IH (bfs_expand rows cols e rest st)); auto.
      now apply bfs_inv_expand.
Qed.

(** ** The flood fill as a whole *)

(** With a station inside the grid and enough fuel the flood fill runs to an
    empty queue; the final state satisfies the loop invariant and the
    dequeued entries account for the visited cells. *)
Lemma bfs_run (rows cols : Z) (stations : list station) (fuel : nat) :
  let sources := filter (station_in_bounds rows cols) stations in
  sources <> [] -> (bfs_fuel rows cols stations <= fuel)%nat ->
  exists st0 st',
    bfs_seeded rows cols stations = Ok st0 /\
    bfs_while fuel rows cols st0 = Some st' /\
    queue st' = [] /\
    bfs_inv rows cols sources st0 /\
    bfs_inv rows cols sources st' /\
    trace_inv rows cols (NoDup sources) (bfs_dequeued fuel rows cols st0) st'.
Proof.
  intros sources Hne Hfuel.
  assert (Hin : forall s, In s sources -> station_in_bounds rows cols s = true).
  { intros s Hs. now apply filter_In in Hs. }
  assert (Hpos : 0 <= rows /\ 0 <= cols).
  { destruct sources as [|s t] eqn:E; [congruence|].
    pose proof (Hin s (or_introl eq_refl)) as Hb.
    apply in_bounds_iff in Hb. lia. }
  destruct (bfs_seeded_inv rows cols stations) as (st0 & E0 & Hseed); try lia.
  fold sources in Hseed.
  pose proof (seed_inv_bfs_inv rows cols sources st0 Hin Hseed) as Hinv0.
  pose proof (seed_inv_trace_inv rows cols sources st0 Hin Hseed) as T0.
  destruct (bfs_while_terminates rows cols fuel st0) as (st' & Hrun).
  { apply (s_shape_v _ _ _ _ Hseed). }
  { unfold bfs_measure, bfs_fuel in *.
    pose proof (unvisited_bound rows cols _ (s_shape_v _ _ _ _ Hseed)).
    rewrite (s_queue _ _ _ _ Hseed), length_map.
    pose proof (filter_length_le (station_in_bounds rows cols) stations).
    fold sources in H0. lia. }
  destruct (bfs_while_inv rows cols sources Hin fuel st0 st' Hinv0 Hrun)
    as [Hinv' Hq'].
  destruct (trace_while rows cols (NoDup sources) fuel [] st0 st' T0 Hrun)
    as [T' _].
  exists st0, st'.
  split; [exact E0|]. split; [exact Hrun|]. split; [exact Hq'|].
  split; [exact Hinv0|]. split; [exact Hinv' | exact T'].
Qed.

Lemma dequeued_in_bounds (rows cols : Z) (distinct : Prop) (fuel : nat) :
  forall popped st, trace_inv rows cols distinct popped st ->
  forall y x, In (y, x) (map cell_of (bfs_dequeued fuel rows cols st)) ->
    in_bounds rows cols y x = true.
Proof.
  induction fuel as [|fuel IH]; intros popped st T y x; simpl.
  - destruct (queue st); intros [].
  - destruct (queue st) as [|e rest] eqn:Hq; [intros []|].
    simpl. intros [E|H].
    + apply (t_bounds _ _ _ _ _ T). rewrite Hq, map_app, in_app_iff.
      right. now left.
    + apply (IH _ _ (trace_expand rows cols distinct popped st e rest T Hq)), H.
Qed.

(** Without a station inside the grid the queue starts empty and the
    allocated array is returned as it is. *)
Lemma bfs_no_source (rows cols : Z) (stations : list station) (fuel : nat) :
  filter (station_in_bounds rows cols) stations = [] ->
  get_nearest_distance_to_police_stations_bfs fuel rows cols stations
  = Some (np_full rows cols 0).
Proof.
  intros Hf.
  unfold get_nearest_distance_to_police_stations_bfs, bfs_seeded, np_full.
  destruct (_ || _); cbn [bind]; [reflexivity|].
  rewrite fold_seed_filter, Hf. cbn [fold_left].
  destruct fuel; reflexivity.
Qed.

Lemma filter_forallb {A : Type} (f : A -> bool) (l : list A) :
  forallb f l = true -> filter f l = l.
Proof.
  induction l as [|a t IH]; simpl; [reflexivity|].
  intros H. apply andb_true_iff in H. destruct H as [-> Ht].
  now rewrite IH.
Qed.

Lemma nearest_distance_spec (stations : list station) (i j : Z) :
  stations <> [] ->
  get_nearest_distance_to_police_stations_brutal_force i j stations
  = Fin (nearest_distance stations i j) /\
  nearest stations i j (nearest_distance stations i j).
Proof.
  intros Hne. unfold nearest_distance.
  destruct (brutal_force_nearest_ex i j stations Hne) as (k & -> & Hk).
  auto.
Qed.

Lemma exact_nearest_distance (rows cols : Z) (stations : list station)
    (i j : Z) :
  exact_in_double rows cols stations -> stations <> [] ->
  0 <= i < rows -> 0 <= j < cols ->
  get_nearest_distance_to_police_stations_kd_tree i j stations
  = Ok (Fin (nearest_distance stations i j)).
Proof.
  intros Hex Hne Hi Hj. rewrite (exact_in_double_cell rows cols) by assumption.
  f_equal. now apply nearest_distance_spec.
Qed.

(** ** The query where every conversion is finite *)

Lemma scan_by_map (g : station -> number) (f : station -> station)
    (pts : list station) (b : number) :
  scan_by g b (map f pts) = scan_by (fun s => g (f s)) b pts.
Proof.
  unfold scan_by. revert b. induction pts as [|p t IH]; intros b; simpl.
  - reflexivity.
  - apply IH.
Qed.

Lemma forallb_same {A : Type} (f : A -> bool) (l l' : list A) :
  (forall a, In a l <-> In a l') -> forallb f l = forallb f l'.
Proof.
  intros H. apply Bool.eq_iff_eq_true. rewrite !forallb_forall.
  split; intros Hf a Ha; apply Hf, H, Ha.
Qed.

Lemma forallb_incl {A : Type} (f : A -> bool) (l l' : list A) :
  incl l l' -> forallb f l' = true -> forallb f l = true.
Proof.
  rewrite !forallb_forall. intros H Hf a Ha. apply Hf, H, Ha.
Qed.

Lemma float64_distance_nonneg (i j : Z) (s : station) :
  0 <= float64_distance i j s.
Proof. unfold float64_distance. lia. Qed.

Lemma float64_distance_exact (i j : Z) (s : station) :
  Z.abs (fst s) <= 2 ^ 53 -> Z.abs (snd s) <= 2 ^ 53 ->
  Z.abs (i - fst s) <= 2 ^ 53 -> Z.abs (j - snd s) <= 2 ^ 53 ->
  float64_distance i j s = minkowski_inf i j s.
Proof.
  intros H1 H2 H3 H4. unfold float64_distance, minkowski_inf.
  now rewrite (float64_round_exact (fst s)), (float64_round_exact (snd s)),
    !float64_round_exact.
Qed.

(** A cell below 2^53 is at distance 0 from the station on it only. *)
Lemma float64_distance_zero (i j : Z) (s : station) :
  Z.abs i < 2 ^ 53 -> Z.abs j < 2 ^ 53 ->
  (float64_distance i j s = 0 <-> s = (i, j)).
Proof.
  intros Hi Hj. destruct s as [py px]. unfold float64_distance. cbn [fst snd].
  split.
  - intros H.
    assert (Hy : float64_round (i - float64_round py) = 0) by lia.
    assert (Hx : float64_round (j - float64_round px) = 0) by lia.
    apply (proj1 (float64_round_zero _)) in Hy.
    apply (proj1 (float64_round_zero _)) in Hx.
    assert (Ey : py = i) by (apply float64_round_small; lia).
    assert (Ex : px = j) by (apply float64_round_small; lia).
    now subst.
  - intros [= -> ->].
    rewrite (float64_round_exact i), (float64_round_exact j) by lia.
    rewrite !Z.sub_diag. reflexivity.
Qed.

(** With the cell up to 2^53 and every station finite in double precision
    the query returns an integer: the least of the double-precision
    distances to the stations. *)
Lemma kd_tree_finite (i j : Z) (stations : list station) :
  stations <> [] -> Z.abs i <= 2 ^ 53 -> Z.abs j <= 2 ^ 53 ->
  forallb station_finite stations = true ->
  exists d,
    get_nearest_distance_to_police_stations_kd_tree i j stations = Ok (Fin d) /\
    (exists s, In s stations /\ float64_distance i j s = d) /\
    (forall s, In s stations -> d <= float64_distance i j s).
Proof.
  intros Hne Hi Hj Hfin. rewrite kd_tree_float64_scan by exact Hne.
  unfold convertible, float64_scan.
  rewrite Hfin, !float64_finite_exact, !float64_round_exact by assumption.
  cbn [andb]. rewrite scan_by_map.
  rewrite (scan_by_ext _ (fun s => Fin (float64_distance i j s))).
  2:{ intros s Hs.
      pose proof (proj1 (forallb_forall _ _) Hfin s Hs) as Hf.
      unfold station_finite in Hf. apply andb_true_iff in Hf.
      destruct Hf as [Hy Hx]. unfold float64_finite in Hy, Hx.
      apply Z.leb_le in Hy, Hx.
      unfold float64_minkowski_inf, float64_station, float64_distance.
      cbn [fst snd]. rewrite !float64_abs_sub_finite by assumption.
      apply py_max_Fin. }
  destruct (scan_by_attained (fun s => Fin (float64_distance i j s)) stations Hne)
    as (p & Hp & E).
  exists (float64_distance i j p). split; [now rewrite E|].
  split; [exists p; auto|].
  intros s Hs. apply number_le_Fin. rewrite <- E.
  apply (scan_by_le (fun s => Fin (float64_distance i j s))). exact Hs.
Qed.

Lemma float64_nearest_spec (rows cols : Z) (stations : list station) (i j : Z) :
  stations <> [] -> rows <= 2 ^ 53 -> cols <= 2 ^ 53 ->
  forallb station_finite stations = true ->
  0 <= i < rows -> 0 <= j < cols ->
  get_nearest_distance_to_police_stations_kd_tree i j stations
  = Ok (Fin (float64_nearest stations i j)) /\
  (exists s, In s stations /\
     float64_distance i j s = float64_nearest stations i j) /\
  (forall s, In s stations ->
     float64_nearest stations i j <= float64_distance i j s).
Proof.
  intros Hne Hr Hc Hfin Hi Hj.
  destruct (kd_tree_finite i j stations Hne) as (d & E & Hat & Hlb);
    [lia | lia | exact Hfin |].
  unfold float64_nearest. rewrite E. auto.
Qed.

(** ** Fewer stations, larger distances *)

Lemma kd_tree_incl (i j : Z) (stations stations' : list station) (d' : number) :
  stations <> [] -> incl stations stations' ->
  get_nearest_distance_to_police_stations_kd_tree i j stations' = Ok d' ->
  exists d,
    get_nearest_distance_to_police_stations_kd_tree i j stations = Ok d /\
    number_le d' d.
Proof.
  intros Hne Hincl E.
  assert (Hne' : stations' <> []).
  { destruct stations as [|s t]; [congruence|].
    intros E'. rewrite E' in Hincl. apply (Hincl s). now left. }
  rewrite kd_tree_float64_scan in E by exact Hne'.
  rewrite kd_tree_float64_scan by exact Hne.
  unfold convertible in *.
  destruct (forallb station_finite stations') eqn:Hfin; [|discriminate].
  rewrite (forallb_incl _ _ _ Hincl Hfin).
  destruct (float64_finite i); [|discriminate].
  destruct (float64_finite j); [|discriminate].
  cbn [andb] in *. injection E as <-.
  eexists. split; [reflexivity|].
  unfold float64_scan. apply scan_by_incl. now apply incl_map.
Qed.

Lemma row_loop_mono (q q' : Z -> Z -> result number) (i : Z) (js : list Z) :
  (forall j d', In j js -> q' i j = Ok d' ->
     exists d, q i j = Ok d /\ number_le d' d) ->
  forall m m' R', number_le m' m -> row_loop q' i js (Ok m') = Ok R' ->
  exists R, row_loop q i js (Ok m) = Ok R /\ number_le R' R.
Proof.
  unfold row_loop. induction js as [|j js IH]; intros Hq m m' R' Hm E.
  - simpl in *. injection E as <-. eauto.
  - cbn [fold_left bind] in E |- *.
    destruct (q' i j) as [d'|e] eqn:Eq'.
    + destruct (Hq j d' (or_introl eq_refl) Eq') as (d & Eq & Hd).
      rewrite Eq. cbn [bind] in E |- *.
      apply (IH (fun j0 d0 H => Hq j0 d0 (or_intror H)) _ _ _
               (py_max_mono _ _ _ _ Hm Hd) E).
    + cbn [bind] in E. fold (row_loop q' i js (Raise e)) in E.
      rewrite row_loop_Raise in E. discriminate.
Qed.

Lemma grid_loop_mono (q q' : Z -> Z -> result number) (rs js : list Z) :
  (forall i j d', In i rs -> In j js -> q' i j = Ok d' ->
     exists d, q i j = Ok d /\ number_le d' d) ->
  forall m m' R', number_le m' m -> grid_loop q' rs js (Ok m') = Ok R' ->
  exists R, grid_loop q rs js (Ok m) = Ok R /\ number_le R' R.
Proof.
  unfold grid_loop. induction rs as [|i rs IH]; intros Hq m m' R' Hm E.
  - simpl in *. injection E as <-. eauto.
  - cbn [fold_left] in E |- *.
    destruct (row_loop q' i js (Ok m')) as [m1'|e] eqn:E1.
    + destruct (row_loop_mono q q' i js
                  (fun j d' H => Hq i j d' (or_introl eq_refl) H) m m' m1' Hm E1)
        as (m1 & E1m & H1).
      rewrite E1m.
      apply (IH (fun i0 j0 d0 H => Hq i0 j0 d0 (or_intror H)) _ _ _ H1 E).
    + fold (grid_loop q' rs js (Raise e)) in E.
      rewrite grid_loop_Raise in E. discriminate.
Qed.

(** When the loop over [q'] returns and [q] returns at least as much at
    every cell where [q'] returns, the loop over [q] returns at least as
    much. *)
Lemma max_over_cells_mono (q q' : Z -> Z -> result number) (rows cols : Z)
    (R' : number) :
  (forall i j d', 0 <= i < rows -> 0 <= j < cols -> q' i j = Ok d' ->
     exists d, q i j = Ok d /\ number_le d' d) ->
  max_over_cells q' rows cols = Ok R' ->
  exists R, max_over_cells q rows cols = Ok R /\ number_le R' R.
Proof.
  intros Hq E. rewrite max_over_cells_loops in *.
  apply (grid_loop_mono q q' (range rows) (range cols)) with (m' := Fin 0).
  - intros i j d' Hi Hj. apply Hq; now apply In_range.
  - apply number_le_refl.
  - exact E.
Qed.

Lemma row_loop_Inf (i : Z) (js : list Z) :
  row_loop (fun _ _ => Ok Inf) i js (Ok Inf) = Ok Inf.
Proof.
  unfold row_loop. induction js as [|j js IH]; simpl; auto.
Qed.

Lemma grid_loop_Inf (rs js : list Z) :
  grid_loop (fun _ _ => Ok Inf) rs js (Ok Inf) = Ok Inf.
Proof.
  unfold grid_loop. induction rs as [|i rs IH]; simpl; auto.
  now rewrite row_loop_Inf.
Qed.

Lemma max_over_cells_Inf (rows cols : Z) :
  0 < rows -> 0 < cols ->
  max_over_cells (fun _ _ => Ok Inf) rows cols = Ok Inf.
Proof.
  intros Hr Hc. rewrite max_over_cells_loops.
  destruct (range_pos rows Hr) as (rs & ->).
  destruct (range_pos cols Hc) as (js & ->).
  change (grid_loop (fun _ _ => Ok Inf) (0 :: rs) (0 :: js) (Ok (Fin 0)))
    with (grid_loop (fun _ _ => Ok Inf) rs (0 :: js)
            (row_loop (fun _ _ => Ok Inf) 0 js (Ok Inf))).
  rewrite row_loop_Inf. apply grid_loop_Inf.
Qed.

(** ** The claims *)

(** C1, as stated, fails twice.  On a 1x4 grid with stations (0,0) and (0,5)
    the flood fill skips the station outside the grid and reports distance 3
    at cell (0,3), where the brute-force scan finds 2.  And for the station
    (2^53 + 1, 0) the KD-tree query at cell (0,0) returns 2^53, the station
    row having been rounded to a double, where the brute-force scan finds
    2^53 + 1. *)
Lemma C1_counterexample :
  0 < 1 /\ 0 < 4 /\ [(0, 0); (0, 5)] <> [] /\
  ~ strategies_agree 1 4 [(0, 0); (0, 5)] /\
  get_nearest_distance_to_police_stations_kd_tree 0 0 [(9007199254740993, 0)]
  = Ok (Fin 9007199254740992) /\
  get_nearest_distance_to_police_stations_brutal_force 0 0
    [(9007199254740993, 0)]
  = Fin 9007199254740993 /\
  ~ strategies_agree 1 1 [(9007199254740993, 0)].
Proof.
  split; [lia|]. split; [lia|]. split; [discriminate|]. split; [|split; [|split]].
  - intros H.
    destruct (H (bfs_fuel 1 4 [(0, 0); (0, 5)]) (le_n _)) as (field & E & Hcell & _).
    vm_compute in E. injection E as <-.
    destruct (Hcell 0 3) as [Hb _]; try lia.
    vm_compute in Hb. discriminate.
  - vm_compute. reflexivity.
  - vm_compute. reflexivity.
  - intros H.
    destruct (H (bfs_fuel 1 1 [(9007199254740993, 0)]) (le_n _))
      as (field & _ & Hcell & _).
    destruct (Hcell 0 0) as [Hb Hk]; try lia.
    rewrite <- Hb in Hk. vm_compute in Hk. discriminate.
Qed.

(** C1 (amended): on a grid with rows > 0 and cols > 0 and a non-empty
    station list for which double precision is exact (every cell coordinate,
    station coordinate and difference of the two has magnitude at most
    2^53), the brute-force scan and the KD-tree query return the same
    distance at every cell and the same radius; when moreover every station
    lies inside the grid, the flood fill returns that same distance at every
    cell, and the same radius. *)
Theorem C1_strategies_agree (rows cols : Z) (stations : list station) :
  0 < rows -> 0 < cols -> stations <> [] ->
  exact_in_double rows cols stations ->
  (forall i j, 0 <= i < rows -> 0 <= j < cols ->
     get_nearest_distance_to_police_stations_kd_tree i j stations
     = Ok (get_nearest_distance_to_police_stations_brutal_force i j stations)) /\
  get_largest_nearest_distance_to_police_stations rows cols stations
  = largest_by_brutal_force rows cols stations /\
  (forallb (station_in_bounds rows cols) stations = true ->
   strategies_agree rows cols stations).
Proof.
  intros Hr Hc Hne Hex.
  assert (Hkd : forall i j, 0 <= i < rows -> 0 <= j < cols ->
     get_nearest_distance_to_police_stations_kd_tree i j stations
     = Ok (get_nearest_distance_to_police_stations_brutal_force i j stations)).
  { intros i j Hi Hj. now apply (exact_in_double_cell rows cols). }
  assert (Hrad : get_largest_nearest_distance_to_police_stations rows cols stations
                 = largest_by_brutal_force rows cols stations).
  { apply max_over_cells_ext. exact Hkd. }
  split; [exact Hkd|]. split; [exact Hrad|].
  intros Hall fuel Hfuel.
  pose proof (filter_forallb _ _ Hall) as Hf.
  destruct (bfs_run rows cols stations fuel) as
    (st0 & st' & E0 & Hrun & Hq & _ & Hinv & _); rewrite ?Hf; auto.
  rewrite Hf in Hinv.
  assert (Hin : forall s, In s stations -> station_in_bounds rows cols s = true).
  { now apply forallb_forall. }
  assert (Hfield : forall i j, 0 <= i < rows -> 0 <= j < cols ->
            get_nearest_distance_to_police_stations_brutal_force i j stations
            = Fin (nd_get 0 (distance_map st') i j)).
  { intros i j Hi Hj. apply brutal_force_nearest.
    apply (bfs_inv_final rows cols stations Hin st' Hinv Hq Hne).
    apply in_bounds_iff. lia. }
  exists (distance_map st'). split; [|split; [|split]].
  - unfold get_nearest_distance_to_police_stations_bfs. now rewrite E0, Hrun.
  - intros i j Hi Hj. rewrite (Hkd i j Hi Hj), (Hfield i j Hi Hj). auto.
  - apply max_over_cells_ext. intros i j Hi Hj. now rewrite Hfield.
  - exact Hrad.
Qed.

Lemma C1_strategies_agree_witness : strategies_agree 4 4 [(0, 0); (3, 3)].
Proof.
  apply (C1_strategies_agree 4 4 [(0, 0); (3, 3)]).
  - lia.
  - lia.
  - discriminate.
  - intros i j s Hi Hj Hs. simpl in Hs.
    destruct Hs as [Hs | [Hs | Hs]]; [subst s; cbn [fst snd]; lia ..|].
    destruct Hs.
  - reflexivity.
Defined.

(** C2, as stated, fails: on a 1x1 grid with the station (2^53 + 1, 0) the
    solver returns 2^53, the station row having been rounded to a double,
    while the nearest-station distance of the only cell is 2^53 + 1. *)
Lemma C2_counterexample :
  0 < 1 /\ 0 < 1 /\ [(9007199254740993, 0)] <> [] /\
  get_largest_nearest_distance_to_police_stations 1 1 [(9007199254740993, 0)]
  = Ok (Fin 9007199254740992) /\
  nearest [(9007199254740993, 0)] 0 0 9007199254740993 /\
  ~ radius_is_tight_maximum 1 1 [(9007199254740993, 0)].
Proof.
  assert (Hn : nearest [(9007199254740993, 0)] 0 0 9007199254740993).
  { split.
    - exists (9007199254740993, 0). split; [now left | reflexivity].
    - intros s [<-|[]]. unfold minkowski_inf. simpl. lia. }
  split; [lia|]. split; [lia|]. split; [discriminate|].
  split; [vm_compute; reflexivity|]. split; [exact Hn|].
  intros (R & E & _ & Hall & _).
  vm_compute in E. injection E as <-.
  destruct (Hall 0 0) as (d & Hd & Hle); try lia.
  pose proof (nearest_unique _ _ _ _ _ Hd Hn). lia.
Qed.

(** C2 (amended): on a grid with rows > 0 and cols > 0 and a non-empty
    station list for which double precision is exact (every cell coordinate,
    station coordinate and difference of the two has magnitude at most
    2^53), the solver returns a number R >= 0 that is the maximum over all
    cells of the nearest-station distance: every cell's nearest distance is
    at most R, and some cell's nearest distance is exactly R. *)
Theorem C2_radius_is_tight_maximum (rows cols : Z) (stations : list station) :
  0 < rows -> 0 < cols -> stations <> [] ->
  exact_in_double rows cols stations ->
  radius_is_tight_maximum rows cols stations.
Proof.
  intros Hr Hc Hne Hex.
  destruct (max_over_cells_spec
              (fun i j => get_nearest_distance_to_police_stations_kd_tree i j stations)
              (nearest_distance stations) rows cols)
    as (R & E & HR & Hub & Hat).
  { intros i j Hi Hj. now apply (exact_nearest_distance rows cols). }
  exists R. split; [exact E|]. split; [exact HR|]. split.
  - intros i j Hi Hj. exists (nearest_distance stations i j).
    destruct (nearest_distance_spec stations i j Hne) as (_ & Hn).
    split; [exact Hn | now apply Hub].
  - destruct Hat as [->|(i & j & Hi & Hj & <-)].
    + exists 0, 0.
      destruct (nearest_distance_spec stations 0 0 Hne) as (_ & Hn).
      pose proof (nearest_nonneg _ _ _ _ Hn) as H0.
      pose proof (Hub 0 0 ltac:(lia) ltac:(lia)) as H1.
      assert (Ez : nearest_distance stations 0 0 = 0) by lia.
      rewrite Ez in Hn.
      split; [lia|]. split; [lia | exact Hn].
    + exists i, j.
      destruct (nearest_distance_spec stations i j Hne) as (_ & Hn).
      split; [exact Hi|]. split; [exact Hj | exact Hn].
Qed.

Lemma C2_radius_is_tight_maximum_witness : radius_is_tight_maximum 5 5 [(2, 2)].
Proof.
  apply (C2_radius_is_tight_maximum 5 5 [(2, 2)]).
  - lia.
  - lia.
  - discriminate.
  - intros i j s Hi Hj Hs. simpl in Hs.
    destruct Hs as [Hs | Hs]; [subst s; cbn [fst snd]; lia|].
    destruct Hs.
Defined.

(** C3, as stated, fails: with rows = 0 the input is invalid, yet the solver
    raises nothing and returns the radius 0. *)
Lemma C3_counterexample :
  invalid_input 0 4 [] /\ ~ solver_fails 0 4 [] /\
  get_largest_nearest_distance_to_police_stations 0 4 [] = Ok (Fin 0).
Proof.
  split; [left; lia|]. split; [|reflexivity].
  intros (e & He). vm_compute in He. discriminate.
Qed.

(** C3 (amended): the solver checks nothing before its loops.  On an invalid
    input with rows > 0 and cols > 0 (so the station list is empty) the query
    at the first cell raises a ValueError and no radius is returned; on an
    invalid input with rows <= 0 or cols <= 0 the loops never run and the
    solver returns 0 without an error, whatever the station list. *)
Theorem C3_solver_on_invalid_input (rows cols : Z) (stations : list station) :
  invalid_input rows cols stations ->
  get_largest_nearest_distance_to_police_stations rows cols stations
  = if (0 <? rows) && (0 <? cols) then Raise ValueError else Ok (Fin 0).
Proof.
  intros Hinv. unfold get_largest_nearest_distance_to_police_stations.
  destruct (Z.ltb_spec 0 rows) as [Hr|Hr]; [destruct (Z.ltb_spec 0 cols) as [Hc|Hc]|];
    simpl.
  - destruct Hinv as [H | [H | ->]]; try lia.
    now apply max_over_cells_Raise.
  - apply max_over_cells_no_cell. now right.
  - apply max_over_cells_no_cell. now left.
Qed.

Lemma C3_solver_on_invalid_input_witness :
  get_largest_nearest_distance_to_police_stations 3 3 [] = Raise ValueError.
Proof.
  apply (C3_solver_on_invalid_input 3 3 []).
  right. right. reflexivity.
Defined.

(** C4, as stated, fails: on a 2x2 grid whose only station (5,5) lies
    outside, the flood fill raises nothing and returns a 2x2 field. *)
Lemma C4_counterexample :
  filter (station_in_bounds 2 2) [(5, 5)] = [] /\
  ~ bfs_fails (bfs_fuel 2 2 [(5, 5)]) 2 2 [(5, 5)] /\
  get_nearest_distance_to_police_stations_bfs (bfs_fuel 2 2 [(5, 5)]) 2 2 [(5, 5)]
  = Some (Ok [[0; 0]; [0; 0]]).
Proof.
  split; [reflexivity|]. split; [|reflexivity].
  intros (e & He). vm_compute in He. discriminate.
Qed.

(** C4 (amended): when no station lies inside the grid (rows >= 0 and
    cols >= 0), the flood fill raises no error: the queue is empty after the
    seeding loop, the while loop does not run, and the function returns the
    rows x cols array it allocated, unchanged. *)
Theorem C4_bfs_without_source (rows cols : Z) (stations : list station)
    (fuel : nat) :
  0 <= rows -> 0 <= cols ->
  filter (station_in_bounds rows cols) stations = [] ->
  exists field st0,
    np_full rows cols 0 = Ok field /\ shaped rows cols field /\
    bfs_seeded rows cols stations = Ok st0 /\ queue st0 = [] /\
    bfs_dequeued fuel rows cols st0 = [] /\
    get_nearest_distance_to_police_stations_bfs fuel rows cols stations
    = Some (Ok field).
Proof.
  intros Hr Hc Hf.
  destruct (bfs_seeded_inv rows cols stations Hr Hc) as (st0 & E0 & Hseed).
  rewrite Hf in Hseed. pose proof (s_queue _ _ _ _ Hseed) as Hq. simpl in Hq.
  destruct (np_full rows cols 0) as [field|e] eqn:Efull.
  2:{ unfold bfs_seeded in E0. rewrite Efull in E0. discriminate. }
  exists field, st0. split; [reflexivity|].
  split; [eapply shaped_np_full; eauto|].
  split; [exact E0|]. split; [exact Hq|]. split.
  - destruct fuel; simpl; now rewrite Hq.
  - rewrite (bfs_no_source rows cols stations fuel Hf). now rewrite Efull.
Qed.

Lemma C4_bfs_without_source_witness :
  exists field st0,
    np_full 2 2 0 = Ok field /\ shaped 2 2 field /\
    bfs_seeded 2 2 [(5, 5)] = Ok st0 /\ queue st0 = [] /\
    bfs_dequeued 7 2 2 st0 = [] /\
    get_nearest_distance_to_police_stations_bfs 7 2 2 [(5, 5)]
    = Some (Ok field).
Proof.
  apply (C4_bfs_without_source 2 2 [(5, 5)] 7).
  - lia.
  - lia.
  - reflexivity.
Defined.

Lemma bfs_seeded_filter (rows cols : Z) (stations : list station) :
  bfs_seeded rows cols stations
  = bfs_seeded rows cols (filter (station_in_bounds rows cols) stations).
Proof.
  unfold bfs_seeded, np_full. destruct (_ || _); cbn [bind]; [reflexivity|].
  f_equal. apply fold_seed_filter.
Qed.

Lemma bfs_seeded_nonneg (rows cols : Z) (stations : list station)
    (st0 : bfs_state) :
  bfs_seeded rows cols stations = Ok st0 -> 0 <= rows /\ 0 <= cols.
Proof.
  unfold bfs_seeded, np_full.
  destruct (Z.ltb_spec rows 0), (Z.ltb_spec cols 0); simpl;
    try discriminate. lia.
Qed.

(** C5: the flood fill ignores the stations outside the grid.  After the
    seeding loop the queue holds the in-bounds stations and nothing else, a
    cell is marked visited exactly when it is an in-bounds station, no cell
    outside the grid is ever dequeued, and the result is the result on the
    sublist of in-bounds stations. *)
Theorem C5_bfs_ignores_out_of_bounds (rows cols : Z) (stations : list station)
    (fuel : nat) (st0 : bfs_state) :
  bfs_seeded rows cols stations = Ok st0 ->
  let inside := filter (station_in_bounds rows cols) stations in
  queue st0 = map seed_entry inside /\
  (forall y x, in_bounds rows cols y x = true ->
     (is_visited st0 y x <-> In (y, x) inside)) /\
  (forall y x, In (y, x) (map cell_of (bfs_dequeued fuel rows cols st0)) ->
     in_bounds rows cols y x = true) /\
  get_nearest_distance_to_police_stations_bfs fuel rows cols stations
  = get_nearest_distance_to_police_stations_bfs fuel rows cols inside.
Proof.
  intros E0 inside.
  destruct (bfs_seeded_nonneg rows cols stations st0 E0) as [Hr Hc].
  destruct (bfs_seeded_inv rows cols stations Hr Hc) as (st0' & E0' & Hseed).
  rewrite E0 in E0'. injection E0' as <-. fold inside in Hseed.
  assert (Hin : forall s, In s inside -> station_in_bounds rows cols s = true).
  { intros s Hs. now apply filter_In in Hs. }
  split; [apply (s_queue _ _ _ _ Hseed)|].
  split; [apply (s_visited _ _ _ _ Hseed)|]. split.
  - apply (dequeued_in_bounds rows cols (NoDup inside) fuel [] st0).
    now apply seed_inv_trace_inv.
  - unfold get_nearest_distance_to_police_stations_bfs, inside.
    now rewrite <- bfs_seeded_filter.
Qed.

Lemma C5_bfs_ignores_out_of_bounds_witness :
  get_nearest_distance_to_police_stations_bfs 14 3 4 [(0, 0); (7, 3)]
  = get_nearest_distance_to_police_stations_bfs 14 3 4 [(0, 0)].
Proof.
  apply (C5_bfs_ignores_out_of_bounds 3 4 [(0, 0); (7, 3)] 14
           {| distance_map := [[0; 0; 0; 0]; [0; 0; 0; 0]; [0; 0; 0; 0]];
              visited := [[true; false; false; false];
                          [false; false; false; false];
                          [false; false; false; false]];
              queue := [(0, 0, 0)] |}).
  reflexivity.
Defined.

(** C6, as stated, fails: the solver does not return 2 on the 4x4 grid with
    stations (0,0) and (3,3). *)
Lemma C6_counterexample :
  get_largest_nearest_distance_to_police_stations 4 4 [(0, 0); (3, 3)]
  <> Ok (Fin 2).
Proof. vm_compute. discriminate. Qed.

(** C6 (amended): on the 4x4 grid with stations (0,0) and (3,3) the solved
    radius is 3; cell (0,3) lies at distance 3 from both stations. *)
Theorem C6_radius_4x4 :
  get_largest_nearest_distance_to_police_stations 4 4 [(0, 0); (3, 3)]
  = Ok (Fin 3) /\
  largest_by_brutal_force 4 4 [(0, 0); (3, 3)] = Ok (Fin 3) /\
  get_nearest_distance_to_police_stations_brutal_force 0 3 [(0, 0); (3, 3)]
  = Fin 3 /\
  minkowski_inf 0 3 (0, 0) = 3 /\ minkowski_inf 0 3 (3, 3) = 3.
Proof. repeat split; reflexivity. Qed.

(** C7: the solved radius is antitone in the station set.  For a non-empty
    station list and any list that contains all of its stations: whenever
    the solver returns a radius on the larger list it returns one on the
    smaller list too, and the larger list's radius is not larger (removing
    stations, down to a non-empty list, never decreases the radius; adding
    stations never increases it).  The solver does return an integer radius
    on both lists when the sides of the grid are at most 2^53 and every
    station of the larger list is finite in double precision. *)
Theorem C7_radius_antitone (rows cols : Z) (stations stations' : list station) :
  stations <> [] -> incl stations stations' ->
  (forall R',
     get_largest_nearest_distance_to_police_stations rows cols stations'
     = Ok R' ->
     exists R,
       get_largest_nearest_distance_to_police_stations rows cols stations
       = Ok R /\ number_le R' R) /\
  (rows <= 2 ^ 53 -> cols <= 2 ^ 53 ->
   forallb station_finite stations' = true ->
   exists R R',
     get_largest_nearest_distance_to_police_stations rows cols stations
     = Ok (Fin R) /\
     get_largest_nearest_distance_to_police_stations rows cols stations'
     = Ok (Fin R') /\
     R' <= R).
Proof.
  intros Hne Hincl.
  assert (Hmono : forall R',
     get_largest_nearest_distance_to_police_stations rows cols stations'
     = Ok R' ->
     exists R,
       get_largest_nearest_distance_to_police_stations rows cols stations
       = Ok R /\ number_le R' R).
  { intros R' E'.
    apply (max_over_cells_mono _
             (fun i j =>
                get_nearest_distance_to_police_stations_kd_tree i j stations')
             rows cols R'); [|exact E'].
    intros i j d' _ _. now apply kd_tree_incl. }
  split; [exact Hmono|].
  intros Hrb Hcb Hfin.
  assert (Hne' : stations' <> []).
  { destruct stations as [|s t]; [congruence|].
    intros E. rewrite E in Hincl. apply (Hincl s). now left. }
  destruct (max_over_cells_spec
              (fun i j => get_nearest_distance_to_police_stations_kd_tree i j stations')
              (float64_nearest stations') rows cols)
    as (R' & E' & _).
  { intros i j Hi Hj. now apply (float64_nearest_spec rows cols). }
  destruct (max_over_cells_spec
              (fun i j => get_nearest_distance_to_police_stations_kd_tree i j stations)
              (float64_nearest stations) rows cols)
    as (R & E & _).
  { intros i j Hi Hj. apply (float64_nearest_spec rows cols); auto.
    exact (forallb_incl _ _ _ Hincl Hfin). }
  exists R, R'. split; [exact E|]. split; [exact E'|].
  destruct (Hmono (Fin R') E') as (R0 & E0 & Hle).
  unfold get_largest_nearest_distance_to_police_stations in E0.
  rewrite E in E0. injection E0 as <-. now apply number_le_Fin.
Qed.

Lemma C7_radius_antitone_witness :
  exists R R',
    get_largest_nearest_distance_to_police_stations 4 4 [(0, 0)]
    = Ok (Fin R) /\
    get_largest_nearest_distance_to_police_stations 4 4 [(0, 0); (3, 3)]
    = Ok (Fin R') /\
    R' <= R.
Proof.
  apply (C7_radius_antitone 4 4 [(0, 0)] [(0, 0); (3, 3)]).
  - discriminate.
  - intros s Hs. simpl in Hs. destruct Hs as [Hs|Hs].
    + left. exact Hs.
    + destruct Hs.
  - lia.
  - lia.
  - reflexivity.
Defined.

(** C8, as stated, fails: the seeding loop enqueues a station without
    looking at [visited], so on a 1x1 grid with the station (0,0) listed
    twice the cell (0,0) is enqueued and dequeued twice. *)
Lemma C8_counterexample :
  filter (station_in_bounds 1 1) [(0, 0); (0, 0)] <> [] /\
  ~ visited_exactly_once (bfs_fuel 1 1 [(0, 0); (0, 0)]) 1 1 [(0, 0); (0, 0)].
Proof.
  split; [discriminate|].
  intros (st0 & E & H). vm_compute in E. injection E as <-.
  specialize (H 0 0 eq_refl). vm_compute in H. discriminate.
Qed.

(** C8 (amended): with at least one station inside the grid (so rows > 0
    and cols > 0) the flood fill terminates and returns a rows x cols field.
    Every cell of the grid is dequeued at least once, and exactly once when
    the in-bounds stations are pairwise distinct; every dequeued entry
    (y, x, k) lies in the grid, k is the distance from (y, x) to the nearest
    in-bounds station, and the returned field holds k at (y, x); so the
    field holds that nearest distance at every cell. *)
Theorem C8_flood_fill_layers (rows cols : Z) (stations : list station)
    (fuel : nat) :
  let sources := filter (station_in_bounds rows cols) stations in
  sources <> [] -> (bfs_fuel rows cols stations <= fuel)%nat ->
  exists st0 field,
    bfs_seeded rows cols stations = Ok st0 /\
    get_nearest_distance_to_police_stations_bfs fuel rows cols stations
    = Some (Ok field) /\
    shaped rows cols field /\
    (forall y x, in_bounds rows cols y x = true ->
       (1 <= times_dequeued fuel rows cols st0 y x)%nat /\
       (NoDup sources -> times_dequeued fuel rows cols st0 y x = 1%nat) /\
       nearest sources y x (nd_get 0 field y x)) /\
    (forall y x k, In (y, x, k) (bfs_dequeued fuel rows cols st0) ->
       in_bounds rows cols y x = true /\ nearest sources y x k /\
       nd_get 0 field y x = k).
Proof.
  intros sources Hne Hfuel.
  assert (Hin : forall s, In s sources -> station_in_bounds rows cols s = true).
  { intros s Hs. now apply filter_In in Hs. }
  destruct (bfs_run rows cols stations fuel Hne Hfuel)
    as (st0 & st' & E0 & Hrun & Hq & Hinv0 & Hinv & T).
  fold sources in Hinv0, Hinv, T.
  pose proof (bfs_inv_final rows cols sources Hin st' Hinv Hq Hne) as Hfinal.
  exists st0, (distance_map st').
  split; [exact E0|]. split; [|split; [|split]].
  - unfold get_nearest_distance_to_police_stations_bfs. now rewrite E0, Hrun.
  - apply (inv_shape_d _ _ _ _ Hinv).
  - intros y x Hb. destruct (Hfinal y x Hb) as [Hv Hn].
    assert (Hocc : In (y, x) (map cell_of (bfs_dequeued fuel rows cols st0))).
    { apply (t_cells _ _ _ _ _ T y x Hb) in Hv.
      now rewrite Hq, app_nil_r in Hv. }
    unfold times_dequeued. split; [|split].
    + apply (count_occ_In cell_eq_dec) in Hocc. lia.
    + intros Hnd. pose proof (t_nodup _ _ _ _ _ T Hnd) as Hnd'.
      rewrite Hq, app_nil_r in Hnd'.
      now apply (proj1 (NoDup_count_occ' cell_eq_dec _) Hnd').
    + exact Hn.
  - intros y x k Hk.
    destruct (dequeued_nearest rows cols sources Hin fuel st0 Hinv0 y x k Hk)
      as [Hb Hn].
    split; [exact Hb|]. split; [exact Hn|].
    destruct (Hfinal y x Hb) as [_ Hn'].
    eapply nearest_unique; eauto.
Qed.

Lemma C8_flood_fill_layers_witness :
  exists st0 field,
    bfs_seeded 4 4 [(0, 0); (3, 3)] = Ok st0 /\
    get_nearest_distance_to_police_stations_bfs 18 4 4 [(0, 0); (3, 3)]
    = Some (Ok field) /\
    shaped 4 4 field /\
    (forall y x, in_bounds 4 4 y x = true ->
       (1 <= times_dequeued 18 4 4 st0 y x)%nat /\
       (NoDup [(0, 0); (3, 3)] -> times_dequeued 18 4 4 st0 y x = 1%nat) /\
       nearest [(0, 0); (3, 3)] y x (nd_get 0 field y x)) /\
    (forall y x k, In (y, x, k) (bfs_dequeued 18 4 4 st0) ->
       in_bounds 4 4 y x = true /\ nearest [(0, 0); (3, 3)] y x k /\
       nd_get 0 field y x = k).
Proof.
  apply (C8_flood_fill_layers 4 4 [(0, 0); (3, 3)] 18).
  - discriminate.
  - vm_compute. lia.
Defined.

(** C10: on an empty station list the brute-force scan raises nothing and
    returns positive infinity at every cell, and the solver loop fed by it
    returns positive infinity on every grid with rows > 0 and cols > 0. *)
Theorem C10_brutal_force_empty (rows cols : Z) :
  0 < rows -> 0 < cols ->
  (forall i j,
     get_nearest_distance_to_police_stations_brutal_force i j [] = Inf) /\
  largest_by_brutal_force rows cols [] = Ok Inf.
Proof.
  intros Hr Hc. split; [reflexivity|].
  unfold largest_by_brutal_force.
  now apply (max_over_cells_Inf rows cols).
Qed.

Lemma C10_brutal_force_empty_witness :
  (forall i j,
     get_nearest_distance_to_police_stations_brutal_force i j [] = Inf) /\
  largest_by_brutal_force 2 3 [] = Ok Inf.
Proof.
  apply (C10_brutal_force_empty 2 3).
  - lia.
  - lia.
Defined.

(** ** Further properties of the scan, the query and the solver *)

Lemma nearest_ext (stations stations' : list station) (i j k : Z) :
  (forall s, In s stations <-> In s stations') ->
  nearest stations i j k -> nearest stations' i j k.
Proof.
  intros H [(s & Hs & E) L]. split.
  - exists s. split; [now apply H | exact E].
  - intros s' Hs'. apply L. now apply H.
Qed.

Lemma same_stations_nil (stations' : list station) :
  (forall s : station, In s [] <-> In s stations') -> stations' = [].
Proof.
  intros H. destruct stations' as [|s t]; [reflexivity|].
  destruct (proj2 (H s) (or_introl eq_refl)).
Qed.

(** The order of the stations and repeated stations do not matter: two
    lists holding the same stations give the same scan, the same query
    result (an error for both when they are empty) and the same radius. *)
Theorem stations_as_a_set (rows cols : Z) (stations stations' : list station) :
  (forall s, In s stations <-> In s stations') ->
  (forall i j,
     get_nearest_distance_to_police_stations_brutal_force i j stations
     = get_nearest_distance_to_police_stations_brutal_force i j stations') /\
  (forall i j,
     get_nearest_distance_to_police_stations_kd_tree i j stations
     = get_nearest_distance_to_police_stations_kd_tree i j stations') /\
  get_largest_nearest_distance_to_police_stations rows cols stations
  = get_largest_nearest_distance_to_police_stations rows cols stations'.
Proof.
  intros H.
  assert (Hb : forall i j,
     get_nearest_distance_to_police_stations_brutal_force i j stations
     = get_nearest_distance_to_police_stations_brutal_force i j stations').
  { intros i j. rewrite !brutal_force_scan. now apply scan_ext_In. }
  assert (Hk : forall i j,
     get_nearest_distance_to_police_stations_kd_tree i j stations
     = get_nearest_distance_to_police_stations_kd_tree i j stations').
  { intros i j. destruct stations as [|s t].
    - now rewrite (same_stations_nil stations' H).
    - assert (Hne' : stations' <> []).
      { intros ->. destruct (proj1 (H s) (or_introl eq_refl)). }
      rewrite kd_tree_float64_scan by discriminate.
      rewrite kd_tree_float64_scan by exact Hne'.
      unfold convertible, float64_scan.
      rewrite (forallb_same station_finite (s :: t) stations' H).
      rewrite (scan_by_ext_In _ (map float64_station (s :: t))
                 (map float64_station stations')); [reflexivity|].
      intros p. rewrite !in_map_iff.
      split; intros (q & E & Hq); exists q; (split; [exact E | now apply H]). }
  split; [exact Hb|]. split; [exact Hk|].
  apply max_over_cells_ext. intros i j _ _. apply Hk.
Qed.

Lemma stations_as_a_set_witness :
  get_largest_nearest_distance_to_police_stations 4 4 [(0, 0); (3, 3)]
  = get_largest_nearest_distance_to_police_stations 4 4 [(3, 3); (0, 0); (3, 3)].
Proof.
  apply (stations_as_a_set 4 4 [(0, 0); (3, 3)] [(3, 3); (0, 0); (3, 3)]).
  intros s. simpl. tauto.
Defined.

(** On a grid with sides up to 2^53 and stations that are finite in double
    precision, the solved radius is 0 exactly when every cell of the grid
    holds a station. *)
Theorem radius_zero_iff (rows cols : Z) (stations : list station) :
  0 < rows -> 0 < cols -> stations <> [] ->
  rows <= 2 ^ 53 -> cols <= 2 ^ 53 ->
  forallb station_finite stations = true ->
  (get_largest_nearest_distance_to_police_stations rows cols stations
   = Ok (Fin 0)
   <-> forall i j, 0 <= i < rows -> 0 <= j < cols -> In (i, j) stations).
Proof.
  intros Hr Hc Hne Hrb Hcb Hfin.
  destruct (max_over_cells_spec
              (fun i j => get_nearest_distance_to_police_stations_kd_tree i j stations)
              (float64_nearest stations) rows cols)
    as (R & E & HR & Hub & Hat).
  { intros i j Hi Hj. now apply (float64_nearest_spec rows cols). }
  unfold get_largest_nearest_distance_to_police_stations. rewrite E. split.
  - intros [= ->] i j Hi Hj.
    destruct (float64_nearest_spec rows cols stations i j)
      as (_ & (s & Hs & Es) & _); auto.
    specialize (Hub i j Hi Hj). pose proof (float64_distance_nonneg i j s).
    assert (Z0 : float64_distance i j s = 0) by lia.
    apply float64_distance_zero in Z0; [now subst s | lia | lia].
  - intros Hall. do 2 f_equal.
    destruct Hat as [->|(i & j & Hi & Hj & <-)]; [reflexivity|].
    destruct (float64_nearest_spec rows cols stations i j)
      as (_ & (s & Hs & Es) & Hlb); auto.
    specialize (Hlb (i, j) (Hall i j Hi Hj)).
    rewrite (proj2 (float64_distance_zero i j (i, j) ltac:(lia) ltac:(lia))
               eq_refl) in Hlb.
    pose proof (float64_distance_nonneg i j s). lia.
Qed.

Lemma radius_zero_iff_witness :
  get_largest_nearest_distance_to_police_stations 1 2 [(0, 0); (0, 1)]
  = Ok (Fin 0)
  <-> forall i j, 0 <= i < 1 -> 0 <= j < 2 -> In (i, j) [(0, 0); (0, 1)].
Proof.
  apply (radius_zero_iff 1 2 [(0, 0); (0, 1)]).
  - lia.
  - lia.
  - discriminate.
  - lia.
  - lia.
  - reflexivity.
Defined.

(** On a grid with sides up to 2^53, with a station inside the grid the
    solved radius is at most max(rows, cols) - 1, whatever other stations,
    finite in double precision, the list holds. *)
Theorem radius_bound (rows cols : Z) (stations : list station) (s : station) :
  0 < rows -> 0 < cols ->
  rows <= 2 ^ 53 -> cols <= 2 ^ 53 ->
  forallb station_finite stations = true ->
  In s stations -> station_in_bounds rows cols s = true ->
  exists R,
    get_largest_nearest_distance_to_police_stations rows cols stations
    = Ok (Fin R) /\ 0 <= R <= Z.max rows cols - 1.
Proof.
  intros Hr Hc Hrb Hcb Hfin Hs Hb.
  assert (Hne : stations <> []) by (intros ->; destruct Hs).
  destruct (max_over_cells_spec
              (fun i j => get_nearest_distance_to_police_stations_kd_tree i j stations)
              (float64_nearest stations) rows cols)
    as (R & E & HR & Hub & Hat).
  { intros i j Hi Hj. now apply (float64_nearest_spec rows cols). }
  exists R. split; [exact E|]. split; [exact HR|].
  destruct Hat as [->|(i & j & Hi & Hj & <-)]; [lia|].
  destruct (float64_nearest_spec rows cols stations i j) as (_ & _ & L); auto.
  specialize (L s Hs). apply in_bounds_iff in Hb.
  rewrite float64_distance_exact in L by lia.
  unfold minkowski_inf in L. lia.
Qed.

Lemma radius_bound_witness :
  exists R,
    get_largest_nearest_distance_to_police_stations 4 6 [(9, 9); (1, 2)]
    = Ok (Fin R) /\ 0 <= R <= Z.max 4 6 - 1.
Proof.
  apply (radius_bound 4 6 [(9, 9); (1, 2)] (1, 2)).
  - lia.
  - lia.
  - lia.
  - lia.
  - reflexivity.
  - right. left. reflexivity.
  - reflexivity.
Defined.

(** With stations that are finite in double precision, enlarging the grid
    up to sides of 2^53 never lowers the solved radius. *)
Theorem radius_grows_with_grid (rows cols rows' cols' : Z)
    (stations : list station) :
  stations <> [] -> rows <= rows' -> cols <= cols' ->
  rows' <= 2 ^ 53 -> cols' <= 2 ^ 53 ->
  forallb station_finite stations = true ->
  exists R R',
    get_largest_nearest_distance_to_police_stations rows cols stations
    = Ok (Fin R) /\
    get_largest_nearest_distance_to_police_stations rows' cols' stations
    = Ok (Fin R') /\ R <= R'.
Proof.
  intros Hne Hr Hc Hrb Hcb Hfin.
  destruct (max_over_cells_spec
              (fun i j => get_nearest_distance_to_police_stations_kd_tree i j stations)
              (float64_nearest stations) rows cols)
    as (R & E & HR & Hub & Hat).
  { intros i j Hi Hj. apply (float64_nearest_spec rows cols); auto; lia. }
  destruct (max_over_cells_spec
              (fun i j => get_nearest_distance_to_police_stations_kd_tree i j stations)
              (float64_nearest stations) rows' cols')
    as (R' & E' & HR' & Hub' & Hat').
  { intros i j Hi Hj. now apply (float64_nearest_spec rows' cols'). }
  exists R, R'. split; [exact E|]. split; [exact E'|].
  destruct Hat as [->|(i & j & Hi & Hj & <-)]; [exact HR'|].
  apply Hub'; lia.
Qed.

Lemma radius_grows_with_grid_witness :
  exists R R',
    get_largest_nearest_distance_to_police_stations 3 3 [(1, 1)] = Ok (Fin R) /\
    get_largest_nearest_distance_to_police_stations 5 4 [(1, 1)] = Ok (Fin R') /\
    R <= R'.
Proof.
  apply (radius_grows_with_grid 3 3 5 4 [(1, 1)]).
  - discriminate.
  - lia.
  - lia.
  - lia.
  - lia.
  - reflexivity.
Defined.

(** ** The coverage display *)




(** ** Placing stations and running the script *)

Lemma onclick_accepted (rows cols : Z) (acc : list station) (e : click) :
  onclick rows cols acc e
  = if accepted rows cols e then acc ++ [(ydata e, xdata e)] else acc.
Proof.
  unfold onclick, accepted, in_bounds.
  destruct (inaxes e); [|reflexivity]. cbn [andb].
  destruct (0 <=? xdata e), (xdata e <? cols), (0 <=? ydata e),
    (ydata e <? rows); reflexivity.
Qed.

Lemma fold_onclick (rows cols : Z) (events : list click) (acc : list station) :
  fold_left (onclick rows cols) events acc = acc ++ placed rows cols events.
Proof.
  unfold placed. revert acc. induction events as [|e t IH]; intros acc.
  - simpl. now rewrite app_nil_r.
  - cbn [fold_left filter]. rewrite IH, onclick_accepted.
    destruct (accepted rows cols e); [|reflexivity].
    cbn [map]. now rewrite <- app_assoc.
Qed.

Lemma placed_in_bounds (rows cols : Z) (events : list click) (s : station) :
  In s (placed rows cols events) -> station_in_bounds rows cols s = true.
Proof.
  unfold placed. rewrite in_map_iff. intros (e & <- & He).
  apply filter_In in He. destruct He as [_ Ha]. unfold accepted in Ha.
  apply andb_true_iff in Ha. apply Ha.
Qed.

Lemma get_police_positions_eq (rows cols : Z) (events : list click) :
  get_police_positions rows cols events
  = if (rows <? 0) || (cols <? 0) then Raise ValueError
    else Ok (placed rows cols events).
Proof.
  unfold get_police_positions, np_full.
  destruct (_ || _); cbn [bind]; [reflexivity|].
  now rewrite fold_onclick.
Qed.

Lemma get_police_positions_Ok (rows cols : Z) (events : list click) :
  0 <= rows -> 0 <= cols ->
  get_police_positions rows cols events = Ok (placed rows cols events).
Proof.
  intros Hr Hc. rewrite get_police_positions_eq.
  destruct (Z.ltb_spec rows 0), (Z.ltb_spec cols 0); simpl; try lia.
  reflexivity.
Qed.

Lemma placed_nonempty_grid (rows cols : Z) (events : list click) :
  placed rows cols events <> [] -> 0 < rows /\ 0 < cols.
Proof.
  intros H. destruct (placed rows cols events) as [|s t] eqn:E; [congruence|].
  assert (Hs : In s (placed rows cols events)) by (rewrite E; now left).
  apply placed_in_bounds, in_bounds_iff in Hs. lia.
Qed.

(** With all stations inside the grid the flood fill returns the brute-force
    distances. *)
Lemma bfs_field_brutal_force (rows cols : Z) (stations : list station)
    (fuel : nat) :
  stations <> [] ->
  forallb (station_in_bounds rows cols) stations = true ->
  (bfs_fuel rows cols stations <= fuel)%nat ->
  exists field,
    get_nearest_distance_to_police_stations_bfs fuel rows cols stations
    = Some (Ok field) /\
    forall i j, 0 <= i < rows -> 0 <= j < cols ->
      get_nearest_distance_to_police_stations_brutal_force i j stations
      = Fin (nd_get 0 field i j).
Proof.
  intros Hne Hall Hfuel.
  pose proof (filter_forallb _ _ Hall) as Hf.
  destruct (bfs_run rows cols stations fuel) as
    (st0 & st' & E0 & Hrun & Hq & _ & Hinv & _); rewrite ?Hf; auto.
  rewrite Hf in Hinv.
  assert (Hin : forall s, In s stations -> station_in_bounds rows cols s = true).
  { now apply forallb_forall. }
  exists (distance_map st'). split.
  - unfold get_nearest_distance_to_police_stations_bfs. now rewrite E0, Hrun.
  - intros i j Hi Hj. apply brutal_force_nearest.
    apply (bfs_inv_final rows cols stations Hin st' Hinv Hq Hne).
    apply in_bounds_iff. lia.
Qed.

(** [get_police_positions] fails with a ValueError on a negative side and
    otherwise returns, in click order and as (row, column), the clicks that
    fell in the axes and inside the grid; every station it returns lies
    inside the grid. *)
Theorem get_police_positions_placed (rows cols : Z) (events : list click) :
  get_police_positions rows cols events
  = (if (rows <? 0) || (cols <? 0) then Raise ValueError
     else Ok (placed rows cols events)) /\
  forallb (station_in_bounds rows cols) (placed rows cols events) = true.
Proof.
  split; [apply get_police_positions_eq|].
  apply forallb_forall. intros s. apply placed_in_bounds.
Qed.

(** The script fails with a ValueError when a side of the grid is negative
    (in [get_police_positions], before any distance is computed) and when, on
    a grid with a cell, no click was recorded (in the first query of the
    solver). *)
Theorem main_fails (rows cols : Z) (events : list click) :
  rows < 0 \/ cols < 0 \/
  (0 < rows /\ 0 < cols /\ placed rows cols events = []) ->
  main rows cols events = Raise ValueError.
Proof.
  intros H. unfold main. rewrite get_police_positions_eq.
  destruct (Z.ltb_spec rows 0) as [Hr|Hr]; [reflexivity|].
  destruct (Z.ltb_spec cols 0) as [Hc|Hc]; [reflexivity|].
  destruct H as [H | [H | (Hr' & Hc' & Hp)]]; try lia.
  cbn [orb bind]. rewrite Hp.
  unfold get_largest_nearest_distance_to_police_stations.
  rewrite (max_over_cells_Raise _ rows cols ValueError); auto.
Qed.

Lemma main_fails_witness :
  main 3 3 [{| inaxes := true; xdata := 7; ydata := 1 |};
            {| inaxes := false; xdata := 1; ydata := 1 |}]
  = Raise ValueError.
Proof.
  apply main_fails. right. right.
  split; [lia|]. split; [lia | reflexivity].
Defined.

(** When at least one click was recorded, on a grid with sides up to 2^53,
    the script obtains a radius R with 0 <= R <= max(rows, cols) - 1, so the
    initial value handed to the radius slider lies within the slider's
    bounds 0 and 2 * max(rows, cols). *)
Theorem main_radius_in_slider_range (rows cols : Z) (events : list click) :
  rows <= 2 ^ 53 -> cols <= 2 ^ 53 ->
  placed rows cols events <> [] ->
  exists R,
    main rows cols events = Ok (Fin R) /\
    0 <= R <= Z.max rows cols - 1 /\
    slider_valmin <= R <= slider_valmax rows cols.
Proof.
  intros Hrb Hcb Hne.
  destruct (placed_nonempty_grid rows cols events Hne) as [Hr Hc].
  unfold main. rewrite get_police_positions_Ok by lia. cbn [bind].
  assert (Hex : exact_in_double rows cols (placed rows cols events)).
  { apply in_bounds_exact; auto. intros s. apply placed_in_bounds. }
  destruct (placed rows cols events) as [|s t] eqn:E; [congruence|].
  assert (Hs : In s (placed rows cols events)) by (rewrite E; now left).
  pose proof (placed_in_bounds rows cols events s Hs) as Hb.
  set (stations := s :: t) in *.
  assert (Hne' : stations <> []) by discriminate.
  destruct (max_over_cells_spec
              (fun i j => get_nearest_distance_to_police_stations_kd_tree i j stations)
              (nearest_distance stations) rows cols)
    as (R & ER & HR & Hub & Hat).
  { intros i j Hi Hj. now apply (exact_nearest_distance rows cols). }
  assert (Hle : R <= Z.max rows cols - 1).
  { destruct Hat as [->|(i & j & Hi & Hj & <-)]; [lia|].
    destruct (nearest_distance_spec stations i j Hne') as (_ & [_ L]).
    specialize (L s (or_introl eq_refl)). apply in_bounds_iff in Hb.
    unfold minkowski_inf in L. lia. }
  exists R. unfold get_largest_nearest_distance_to_police_stations.
  rewrite ER. cbn [bind]. split; [reflexivity|].
  unfold slider_valmin, slider_valmax. lia.
Qed.

Lemma main_radius_in_slider_range_witness :
  exists R,
    main 4 4 [{| inaxes := true; xdata := 0; ydata := 0 |};
              {| inaxes := true; xdata := 9; ydata := 2 |};
              {| inaxes := true; xdata := 3; ydata := 3 |}] = Ok (Fin R) /\
    0 <= R <= Z.max 4 4 - 1 /\
    slider_valmin <= R <= slider_valmax 4 4.
Proof.
  apply main_radius_in_slider_range.
  - lia.
  - lia.
  - discriminate.
Defined.

(** On the stations placed through the click handler, on a grid with sides
    up to 2^53, the three strategies agree: the flood fill returns, at every
    cell, the distance the brute-force scan and the KD-tree query return. *)
Theorem placed_stations_agree (rows cols : Z) (events : list click)
    (fuel : nat) :
  rows <= 2 ^ 53 -> cols <= 2 ^ 53 ->
  placed rows cols events <> [] ->
  (bfs_fuel rows cols (placed rows cols events) <= fuel)%nat ->
  exists field,
    get_nearest_distance_to_police_stations_bfs fuel rows cols
      (placed rows cols events) = Some (Ok field) /\
    forall i j, 0 <= i < rows -> 0 <= j < cols ->
      get_nearest_distance_to_police_stations_brutal_force i j
        (placed rows cols events) = Fin (nd_get 0 field i j) /\
      get_nearest_distance_to_police_stations_kd_tree i j
        (placed rows cols events) = Ok (Fin (nd_get 0 field i j)).
Proof.
  intros Hrb Hcb Hne Hfuel.
  destruct (bfs_field_brutal_force rows cols (placed rows cols events) fuel Hne)
    as (field & E & Hfield); auto.
  { apply forallb_forall. intros s. apply placed_in_bounds. }
  exists field. split; [exact E|]. intros i j Hi Hj.
  rewrite (exact_in_double_cell rows cols) by
    (auto; apply in_bounds_exact; auto; intros s; apply placed_in_bounds).
  rewrite (Hfield i j Hi Hj). auto.
Qed.

Lemma placed_stations_agree_witness :
  exists field,
    get_nearest_distance_to_police_stations_bfs 20 4 4
      (placed 4 4 [{| inaxes := true; xdata := 0; ydata := 0 |};
                   {| inaxes := true; xdata := 9; ydata := 2 |}])
    = Some (Ok field) /\
    forall i j, 0 <= i < 4 -> 0 <= j < 4 ->
      get_nearest_distance_to_police_stations_brutal_force i j
        (placed 4 4 [{| inaxes := true; xdata := 0; ydata := 0 |};
                     {| inaxes := true; xdata := 9; ydata := 2 |}])
      = Fin (nd_get 0 field i j) /\
      get_nearest_distance_to_police_stations_kd_tree i j
        (placed 4 4 [{| inaxes := true; xdata := 0; ydata := 0 |};
                     {| inaxes := true; xdata := 9; ydata := 2 |}])
      = Ok (Fin (nd_get 0 field i j)).
Proof.
  apply placed_stations_agree.
  - lia.
  - lia.
  - discriminate.
  - vm_compute. lia.
Defined.

(** ** Further properties of the flood fill *)

Lemma shaped_ext {A : Type} (rows cols : Z) (d : A) (a b : ndarray A) :
  shaped rows cols a -> shaped rows cols b ->
  (forall y x, in_bounds rows cols y x = true -> nd_get d a y x = nd_get d b y x) ->
  a = b.
Proof.
  intros [La Ra] [Lb Rb] H.
  apply (nth_ext a b [] []); [congruence|].
  intros n Hn.
  assert (Hra : length (nth n a []) = Z.to_nat cols) by (apply Ra, nth_In; lia).
  assert (Hrb : length (nth n b []) = Z.to_nat cols) by (apply Rb, nth_In; lia).
  apply (nth_ext _ _ d d); [congruence|].
  intros m Hm.
  specialize (H (Z.of_nat n) (Z.of_nat m)). unfold nd_get in H.
  rewrite !Nat2Z.id in H. apply H. apply in_bounds_iff. lia.
Qed.

Lemma nonempty_In {A : Type} (l : list A) : l <> [] -> exists a, In a l.
Proof.
  destruct l as [|a t]; [congruence|]. intros _. exists a. now left.
Qed.

(** The run of the flood fill on any grid without a negative side. *)
Lemma bfs_run_any (rows cols : Z) (stations : list station) (fuel : nat) :
  let sources := filter (station_in_bounds rows cols) stations in
  0 <= rows -> 0 <= cols -> (bfs_fuel rows cols stations <= fuel)%nat ->
  exists st0 st',
    bfs_seeded rows cols stations = Ok st0 /\
    seed_inv rows cols sources st0 /\
    bfs_while fuel rows cols st0 = Some st' /\
    queue st' = [] /\
    bfs_inv rows cols sources st'.
Proof.
  intros sources Hr Hc Hfuel.
  assert (Hin : forall s, In s sources -> station_in_bounds rows cols s = true).
  { intros s Hs. now apply filter_In in Hs. }
  destruct (bfs_seeded_inv rows cols stations Hr Hc) as (st0 & E0 & Hseed).
  fold sources in Hseed.
  pose proof (seed_inv_bfs_inv rows cols sources st0 Hin Hseed) as Hinv0.
  destruct (bfs_while_terminates rows cols fuel st0) as (st' & Hrun).
  { apply (s_shape_v _ _ _ _ Hseed). }
  { unfold bfs_measure, bfs_fuel in *.
    pose proof (unvisited_bound rows cols _ (s_shape_v _ _ _ _ Hseed)).
    rewrite (s_queue _ _ _ _ Hseed), length_map.
    pose proof (filter_length_le (station_in_bounds rows cols) stations) as Hl.
    fold sources in Hl. lia. }
  destruct (bfs_while_inv rows cols sources Hin fuel st0 st' Hinv0 Hrun)
    as [Hinv' Hq'].
  exists st0, st'.
  split; [exact E0|]. split; [exact Hseed|]. split; [exact Hrun|].
  split; [exact Hq' | exact Hinv'].
Qed.

Lemma bfs_negative_side (rows cols : Z) (stations : list station) (fuel : nat) :
  rows < 0 \/ cols < 0 ->
  get_nearest_distance_to_police_stations_bfs fuel rows cols stations
  = Some (Raise ValueError).
Proof.
  intros H.
  unfold get_nearest_distance_to_police_stations_bfs, bfs_seeded, np_full.
  destruct (Z.ltb_spec rows 0), (Z.ltb_spec cols 0); simpl; try reflexivity.
  lia.
Qed.

(** The flood fill raises a ValueError exactly when a side of the grid is
    negative.  On every other grid, whatever the stations, it terminates
    within rows * cols + len(stations) iterations of its while loop and
    returns an array of shape (rows, cols). *)
Theorem bfs_returns_a_field (rows cols : Z) (stations : list station)
    (fuel : nat) :
  (bfs_fuel rows cols stations <= fuel)%nat ->
  (rows < 0 \/ cols < 0 ->
   get_nearest_distance_to_police_stations_bfs fuel rows cols stations
   = Some (Raise ValueError)) /\
  (0 <= rows -> 0 <= cols ->
   exists field,
     get_nearest_distance_to_police_stations_bfs fuel rows cols stations
     = Some (Ok field) /\ shaped rows cols field).
Proof.
  intros Hfuel. split; [apply bfs_negative_side|].
  intros Hr Hc.
  destruct (bfs_run_any rows cols stations fuel Hr Hc Hfuel)
    as (st0 & st' & E0 & _ & Hrun & _ & Hinv).
  exists (distance_map st'). split.
  - unfold get_nearest_distance_to_police_stations_bfs. now rewrite E0, Hrun.
  - apply (inv_shape_d _ _ _ _ Hinv).
Qed.

Lemma bfs_returns_a_field_witness :
  exists field,
    get_nearest_distance_to_police_stations_bfs 5 3 0 [(0, 0); (1, 1)]
    = Some (Ok field) /\ shaped 3 0 field.
Proof.
  apply (bfs_returns_a_field 3 0 [(0, 0); (1, 1)] 5).
  - vm_compute. lia.
  - lia.
  - lia.
Defined.

(** The result of the flood fill depends only on which stations lie inside
    the grid: their order, repetitions, and the stations outside the grid do
    not matter. *)
Theorem bfs_stations_as_a_set (rows cols : Z) (stations stations' : list station)
    (fuel fuel' : nat) :
  (forall s, station_in_bounds rows cols s = true ->
     (In s stations <-> In s stations')) ->
  (bfs_fuel rows cols stations <= fuel)%nat ->
  (bfs_fuel rows cols stations' <= fuel')%nat ->
  get_nearest_distance_to_police_stations_bfs fuel rows cols stations
  = get_nearest_distance_to_police_stations_bfs fuel' rows cols stations'.
Proof.
  intros Hsame Hfuel Hfuel'.
  destruct (Z_lt_ge_dec rows 0) as [Hr|Hr].
  { now rewrite !bfs_negative_side by auto. }
  destruct (Z_lt_ge_dec cols 0) as [Hc|Hc].
  { now rewrite !bfs_negative_side by auto. }
  assert (Hsrc : forall s,
            In s (filter (station_in_bounds rows cols) stations)
            <-> In s (filter (station_in_bounds rows cols) stations')).
  { intros s. rewrite !filter_In.
    split; intros [Hs Hb]; (split; [now apply (Hsame s Hb) | exact Hb]). }
  assert (Hin : forall s,
            In s (filter (station_in_bounds rows cols) stations) ->
            station_in_bounds rows cols s = true).
  { intros s Hs. now apply filter_In in Hs. }
  assert (Hin' : forall s,
            In s (filter (station_in_bounds rows cols) stations') ->
            station_in_bounds rows cols s = true).
  { intros s Hs. now apply filter_In in Hs. }
  destruct (list_eq_dec cell_eq_dec
              (filter (station_in_bounds rows cols) stations) [])
    as [Esrc|Hne].
  - rewrite Esrc in Hsrc. pose proof (same_stations_nil _ Hsrc) as Esrc'.
    now rewrite !bfs_no_source.
  - assert (Hne' : filter (station_in_bounds rows cols) stations' <> []).
    { intros E. rewrite E in Hsrc.
      destruct (nonempty_In _ Hne) as (s0 & Hs0).
      destruct (proj1 (Hsrc s0) Hs0). }
    destruct (bfs_run_any rows cols stations fuel) as
      (st0 & st1 & E0 & _ & Hrun & Hq & Hinv); try lia.
    destruct (bfs_run_any rows cols stations' fuel') as
      (st0' & st1' & E0' & _ & Hrun' & Hq' & Hinv'); try lia.
    unfold get_nearest_distance_to_police_stations_bfs.
    rewrite E0, Hrun, E0', Hrun'. do 2 f_equal.
    apply (shaped_ext rows cols 0).
    + apply (inv_shape_d _ _ _ _ Hinv).
    + apply (inv_shape_d _ _ _ _ Hinv').
    + intros y x Hb.
      destruct (bfs_inv_final rows cols _ Hin st1 Hinv Hq Hne y x Hb)
        as [_ Hn].
      destruct (bfs_inv_final rows cols _ Hin' st1' Hinv' Hq' Hne' y x Hb)
        as [_ Hn'].
      apply (nearest_ext _ _ _ _ _ Hsrc) in Hn.
      eapply nearest_unique; eauto.
Qed.

Lemma bfs_stations_as_a_set_witness :
  get_nearest_distance_to_police_stations_bfs 20 3 4 [(0, 0); (2, 3); (7, 7)]
  = get_nearest_distance_to_police_stations_bfs 30 3 4 [(2, 3); (0, 0); (2, 3)].
Proof.
  apply bfs_stations_as_a_set.
  - intros [sy sx] Hb. simpl.
    assert (Hne : (7, 7) <> (sy, sx)).
    { intros E. injection E as <- <-. discriminate Hb. }
    tauto.
  - vm_compute. lia.
  - vm_compute. lia.
Defined.

(** With a station inside the grid, the field the flood fill returns holds 0
    exactly at the in-bounds stations, changes by at most 1 between two
    cells a king move apart, and stays between 0 and max(rows, cols) - 1. *)
Theorem bfs_field_profile (rows cols : Z) (stations : list station)
    (fuel : nat) :
  filter (station_in_bounds rows cols) stations <> [] ->
  (bfs_fuel rows cols stations <= fuel)%nat ->
  exists field,
    get_nearest_distance_to_police_stations_bfs fuel rows cols stations
    = Some (Ok field) /\
    (forall y x, in_bounds rows cols y x = true ->
       (nd_get 0 field y x = 0 <-> In (y, x) stations) /\
       0 <= nd_get 0 field y x <= Z.max rows cols - 1) /\
    (forall y x dy dx, in_bounds rows cols y x = true ->
       In (dy, dx) directions ->
       in_bounds rows cols (y + dy) (x + dx) = true ->
       Z.abs (nd_get 0 field (y + dy) (x + dx) - nd_get 0 field y x) <= 1).
Proof.
  intros Hne Hfuel.
  assert (Hin : forall s,
            In s (filter (station_in_bounds rows cols) stations) ->
            station_in_bounds rows cols s = true).
  { intros s Hs. now apply filter_In in Hs. }
  destruct (bfs_run rows cols stations fuel Hne Hfuel)
    as (st0 & st' & E0 & Hrun & Hq & _ & Hinv & _).
  pose proof (bfs_inv_final rows cols _ Hin st' Hinv Hq Hne) as Hfinal.
  exists (distance_map st'). split; [|split].
  - unfold get_nearest_distance_to_police_stations_bfs. now rewrite E0, Hrun.
  - intros y x Hb. destruct (Hfinal y x Hb) as [_ Hn]. split; [split|].
    + intros E. rewrite E in Hn. apply nearest_zero, filter_In in Hn. apply Hn.
    + intros Hs.
      assert (H0 : nearest (filter (station_in_bounds rows cols) stations) y x 0).
      { apply nearest_zero, filter_In. split; [exact Hs | exact Hb]. }
      eapply nearest_unique; eauto.
    + pose proof (nearest_nonneg _ _ _ _ Hn) as H0.
      destruct Hn as [([sy sx] & Hs & E) _].
      apply Hin, in_bounds_iff in Hs. simpl in Hs. apply in_bounds_iff in Hb.
      unfold minkowski_inf in E. simpl in E. lia.
  - intros y x dy dx Hb Hd Hb'.
    destruct (Hfinal y x Hb) as [_ Hn].
    destruct (Hfinal _ _ Hb') as [_ Hn'].
    pose proof (nearest_step _ _ _ _ _ _ _ Hd Hn Hn') as H1.
    pose proof (directions_opposite _ _ Hd) as Hd'.
    assert (Hback : nearest (filter (station_in_bounds rows cols) stations)
                      (y + dy + - dy) (x + dx + - dx)
                      (nd_get 0 (distance_map st') y x)).
    { replace (y + dy + - dy) with y by lia.
      replace (x + dx + - dx) with x by lia. exact Hn. }
    pose proof (nearest_step _ _ _ _ _ _ _ Hd' Hn' Hback) as H2.
    lia.
Qed.

Lemma bfs_field_profile_witness :
  exists field,
    get_nearest_distance_to_police_stations_bfs 18 4 4 [(0, 0); (3, 3)]
    = Some (Ok field) /\
    (forall y x, in_bounds 4 4 y x = true ->
       (nd_get 0 field y x = 0 <-> In (y, x) [(0, 0); (3, 3)]) /\
       0 <= nd_get 0 field y x <= Z.max 4 4 - 1) /\
    (forall y x dy dx, in_bounds 4 4 y x = true ->
       In (dy, dx) directions ->
       in_bounds 4 4 (y + dy) (x + dx) = true ->
       Z.abs (nd_get 0 field (y + dy) (x + dx) - nd_get 0 field y x) <= 1).
Proof.
  apply (bfs_field_profile 4 4 [(0, 0); (3, 3)] 18).
  - discriminate.
  - vm_compute. lia.
Defined.

(** *** The order and the number of the dequeued entries *)

Lemma bfs_visit_queue (rows cols y x k : Z) (st : bfs_state) (d : Z * Z) :
  queue (bfs_visit rows cols y x k st d) = queue st \/
  exists e, snd e = k + 1 /\
    queue (bfs_visit rows cols y x k st d) = queue st ++ [e].
Proof.
  destruct d as [dy dx]. unfold bfs_visit.
  destruct (in_bounds rows cols (y + dy) (x + dx)
            && negb (nd_get false (visited st) (y + dy) (x + dx))).
  - right. exists (y + dy, x + dx, k + 1). now split.
  - now left.
Qed.

Lemma bfs_visits_queue (rows cols y x k : Z) (ds : list (Z * Z))
    (st : bfs_state) :
  exists news,
    queue (fold_left (bfs_visit rows cols y x k) ds st) = queue st ++ news /\
    forall e, In e news -> snd e = k + 1.
Proof.
  revert st. induction ds as [|d ds IH]; intros st.
  - exists []. simpl. split; [now rewrite app_nil_r | intros e []].
  - cbn [fold_left].
    destruct (IH (bfs_visit rows cols y x k st d)) as (news & E & Hn).
    destruct (bfs_visit_queue rows cols y x k st d) as [Eq|(e & He & Eq)];
      rewrite Eq in E.
    + exists news. now split.
    + exists (e :: news). split.
      * rewrite E. now rewrite <- app_assoc.
      * intros e' [<-|He']; [exact He | now apply Hn].
Qed.

Lemma layered_app_band (k : Z) (news q : list entry) :
  layered q -> (forall e, In e q -> k <= snd e <= k + 1) ->
  (forall e, In e news -> snd e = k + 1) ->
  layered (q ++ news).
Proof.
  revert q. induction news as [|n news IH]; intros q Hl Hb Hn.
  - now rewrite app_nil_r.
  - replace (q ++ n :: news) with ((q ++ [n]) ++ news)
      by (rewrite <- app_assoc; reflexivity).
    pose proof (Hn n (or_introl eq_refl)) as En.
    apply IH.
    + apply layered_snoc; [exact Hl|]. intros e' He'.
      specialize (Hb e' He'). lia.
    + intros e He. apply in_app_or in He. destruct He as [He|[<-|[]]].
      * now apply Hb.
      * lia.
    + intros e He. apply Hn. now right.
Qed.

Lemma bfs_expand_layered (rows cols : Z) (st : bfs_state) (e : entry)
    (rest : list entry) :
  layered (e :: rest) ->
  layered (queue (bfs_expand rows cols e rest st)) /\
  forall e', In e' (queue (bfs_expand rows cols e rest st)) ->
    snd e <= snd e' <= snd e + 1.
Proof.
  intros [Hb Hl]. destruct e as [[y x] k]. unfold bfs_expand.
  destruct (bfs_visits_queue rows cols y x k directions
              {| distance_map := distance_map st; visited := visited st;
                 queue := rest |}) as (news & E & Hn).
  rewrite E. cbn [queue snd] in *. split.
  - now apply (layered_app_band k).
  - intros e' He'. apply in_app_or in He'. destruct He' as [He'|He'].
    + now apply Hb.
    + rewrite (Hn e' He'). lia.
Qed.

Lemma dequeued_by_depth (rows cols : Z) (fuel : nat) :
  forall st, layered (queue st) ->
  by_depth (bfs_dequeued fuel rows cols st) /\
  forall e rest, queue st = e :: rest ->
    forall e', In e' (bfs_dequeued fuel rows cols st) -> snd e <= snd e'.
Proof.
  induction fuel as [|fuel IH]; intros st Hl.
  - simpl. destruct (queue st); split; try exact I; intros ? ? ? ? [].
  - simpl. destruct (queue st) as [|e rest] eqn:Hq.
    + split; [exact I | intros ? ? ? ? []].
    + destruct (bfs_expand_layered rows cols st e rest Hl) as [Hl' Hband].
      destruct (IH _ Hl') as [Hsorted Hhead].
      assert (Hlater : forall e', In e' (bfs_dequeued fuel rows cols
                                          (bfs_expand rows cols e rest st)) ->
                snd e <= snd e').
      { intros e' He'.
        destruct (queue (bfs_expand rows cols e rest st)) as [|e1 q1] eqn:Hq1.
        - destruct fuel; simpl in He'; rewrite Hq1 in He'; destruct He'.
        - specialize (Hhead e1 q1 eq_refl e' He').
          specialize (Hband e1 (or_introl eq_refl)). lia. }
      split.
      * split; [exact Hlater | exact Hsorted].
      * intros e0 rest0 [= <- <-] e' [<-|He']; [lia | now apply Hlater].
Qed.

(** The flood fill dequeues its entries layer by layer: in the sequence of
    dequeued entries the depth never decreases, so every entry of depth k is
    expanded before any entry of depth k + 1. *)
Theorem bfs_dequeues_by_depth (rows cols : Z) (stations : list station)
    (fuel : nat) (st0 : bfs_state) :
  bfs_seeded rows cols stations = Ok st0 ->
  by_depth (bfs_dequeued fuel rows cols st0).
Proof.
  intros E0.
  destruct (bfs_seeded_nonneg rows cols stations st0 E0) as [Hr Hc].
  destruct (bfs_seeded_inv rows cols stations Hr Hc) as (st0' & E0' & Hseed).
  rewrite E0 in E0'. injection E0' as <-.
  apply dequeued_by_depth.
  rewrite (s_queue _ _ _ _ Hseed). apply layered_seeds.
Qed.

Lemma bfs_dequeues_by_depth_witness :
  by_depth
    (bfs_dequeued 10 2 2
       {| distance_map := [[0; 0]; [0; 0]];
          visited := [[true; false]; [false; false]];
          queue := [(0, 0, 0)] |}).
Proof.
  apply (bfs_dequeues_by_depth 2 2 [(0, 0); (5, 5)] 10).
  reflexivity.
Defined.

Lemma concat_cells {A : Type} (rows cols : Z) (d b : A) (a : ndarray A) :
  shaped rows cols a -> In b (concat a) ->
  exists y x, in_bounds rows cols y x = true /\ nd_get d a y x = b.
Proof.
  intros [Hl Hr] Hb. apply in_concat in Hb. destruct Hb as (r & Hra & Hbr).
  destruct (In_nth a r [] Hra) as (n & Hn & En).
  destruct (In_nth r b d Hbr) as (m & Hm & Em).
  exists (Z.of_nat n), (Z.of_nat m). split.
  - apply in_bounds_iff. rewrite (Hr r Hra) in Hm. lia.
  - unfold nd_get. rewrite !Nat2Z.id, En. exact Em.
Qed.

Lemma filter_negb_all_true (l : list bool) :
  (forall b, In b l -> b = true) -> filter negb l = [].
Proof.
  induction l as [|b t IH]; intros H; simpl; [reflexivity|].
  rewrite (H b (or_introl eq_refl)). simpl. apply IH.
  intros b' Hb'. apply H. now right.
Qed.

Lemma filter_negb_all_false (l : list bool) :
  (forall b, In b l -> b = false) -> filter negb l = l.
Proof.
  induction l as [|b t IH]; intros H; simpl; [reflexivity|].
  rewrite (H b (or_introl eq_refl)). simpl. f_equal. apply IH.
  intros b' Hb'. apply H. now right.
Qed.

Lemma unvisited_all_marked (rows cols : Z) (a : ndarray bool) :
  shaped rows cols a ->
  (forall y x, in_bounds rows cols y x = true -> nd_get false a y x = true) ->
  unvisited a = O.
Proof.
  intros Hs H. unfold unvisited. rewrite filter_negb_all_true; [reflexivity|].
  intros b Hb. destruct (concat_cells rows cols false b a Hs Hb) as (y & x & Hyx & <-).
  now apply H.
Qed.

Lemma unvisited_none_marked (rows cols : Z) (a : ndarray bool) :
  shaped rows cols a ->
  (forall y x, in_bounds rows cols y x = true -> nd_get false a y x = false) ->
  unvisited a = (Z.to_nat rows * Z.to_nat cols)%nat.
Proof.
  intros Hs H. unfold unvisited. rewrite filter_negb_all_false.
  - now apply length_concat_shaped.
  - intros b Hb.
    destruct (concat_cells rows cols false b a Hs Hb) as (y & x & Hyx & <-).
    now apply H.
Qed.

Lemma dequeued_length (rows cols : Z) (fuel : nat) :
  forall st st', shaped rows cols (visited st) ->
  bfs_while fuel rows cols st = Some st' ->
  (length (bfs_dequeued fuel rows cols st) + bfs_measure st')%nat
  = bfs_measure st.
Proof.
  induction fuel as [|fuel IH]; intros st st' Hs; simpl.
  - destruct (queue st); [|discriminate]. now intros [= <-].
  - destruct (queue st) as [|e rest] eqn:Hq; [now intros [= <-]|].
    intros Hrun.
    destruct (bfs_expand_measure rows cols st e rest Hs Hq) as [Hs' Hm].
    specialize (IH _ _ Hs' Hrun). simpl. lia.
Qed.

Lemma dequeued_length_le (rows cols : Z) (fuel : nat) :
  forall st, shaped rows cols (visited st) ->
  (length (bfs_dequeued fuel rows cols st) <= bfs_measure st)%nat.
Proof.
  induction fuel as [|fuel IH]; intros st Hs; simpl.
  - destruct (queue st); simpl; lia.
  - destruct (queue st) as [|e rest] eqn:Hq; [simpl; lia|].
    destruct (bfs_expand_measure rows cols st e rest Hs Hq) as [Hs' Hm].
    specialize (IH _ Hs'). simpl. lia.
Qed.

(** Seeding pairwise distinct stations marks a fresh cell each time. *)
Lemma seed_fold_measure (rows cols : Z) (ss seen : list station)
    (st : bfs_state) :
  seed_inv rows cols seen st ->
  (forall s, In s ss -> station_in_bounds rows cols s = true) ->
  NoDup (seen ++ ss) ->
  bfs_measure (fold_left (bfs_seed rows cols) ss st) = bfs_measure st.
Proof.
  revert seen st. induction ss as [|[py px] ss IH]; intros seen st Hs Hin Hnd.
  - reflexivity.
  - cbn [fold_left].
    pose proof (seed_inv_fold rows cols [(py, px)] seen st Hs) as Hs1.
    cbn [fold_left] in Hs1.
    assert (Hb : in_bounds rows cols py px = true).
    { apply (Hin (py, px)). now left. }
    rewrite (IH (seen ++ [(py, px)])).
    + assert (Hfresh : nd_get false (visited st) py px = false).
      { apply NoDup_remove_2 in Hnd.
        destruct (nd_get false (visited st) py px) eqn:Hv; [|reflexivity].
        exfalso. apply Hnd. apply in_or_app. left.
        now apply (s_visited _ _ _ _ Hs py px Hb). }
      unfold bfs_seed. rewrite Hb. unfold bfs_measure. cbn [visited queue].
      pose proof (unvisited_mark rows cols _ _ _ (s_shape_v _ _ _ _ Hs) Hb Hfresh).
      rewrite length_app. simpl. lia.
    + apply Hs1. intros s [<-|[]]. exact Hb.
    + intros s Hs'. apply Hin. now right.
    + now rewrite <- app_assoc.
Qed.

(** The while loop of the flood fill runs at most rows * cols +
    len(stations) times; with at least one station inside the grid and the
    in-bounds stations pairwise distinct it runs exactly rows * cols times,
    once per cell. *)
Theorem bfs_iterations (rows cols : Z) (stations : list station) (fuel : nat)
    (st0 : bfs_state) :
  bfs_seeded rows cols stations = Ok st0 ->
  (length (bfs_dequeued fuel rows cols st0) <= bfs_fuel rows cols stations)%nat /\
  (filter (station_in_bounds rows cols) stations <> [] ->
   NoDup (filter (station_in_bounds rows cols) stations) ->
   (bfs_fuel rows cols stations <= fuel)%nat ->
   Z.of_nat (length (bfs_dequeued fuel rows cols st0)) = rows * cols).
Proof.
  intros E0.
  destruct (bfs_seeded_nonneg rows cols stations st0 E0) as [Hr Hc].
  destruct (bfs_seeded_inv rows cols stations Hr Hc) as (st0' & E0' & Hseed).
  rewrite E0 in E0'. injection E0' as <-.
  pose proof (s_shape_v _ _ _ _ Hseed) as Hshape.
  split.
  - pose proof (dequeued_length_le rows cols fuel st0 Hshape) as Hle.
    unfold bfs_measure, bfs_fuel in *.
    pose proof (unvisited_bound rows cols _ Hshape).
    rewrite (s_queue _ _ _ _ Hseed), length_map in Hle.
    pose proof (filter_length_le (station_in_bounds rows cols) stations).
    lia.
  - intros Hne Hnd Hfuel.
    assert (Hin : forall s,
              In s (filter (station_in_bounds rows cols) stations) ->
              station_in_bounds rows cols s = true).
    { intros s Hs. now apply filter_In in Hs. }
    destruct (bfs_run rows cols stations fuel Hne Hfuel)
      as (st0' & st' & E0' & Hrun & Hq & _ & Hinv & _).
    rewrite E0 in E0'. injection E0' as <-.
    pose proof (dequeued_length rows cols fuel st0 st' Hshape Hrun) as Hlen.
    assert (Hend : bfs_measure st' = O).
    { unfold bfs_measure. rewrite Hq. simpl.
      rewrite (unvisited_all_marked rows cols); [reflexivity | |].
      - apply (inv_shape_v _ _ _ _ Hinv).
      - intros y x Hb.
        apply (bfs_inv_final rows cols _ Hin st' Hinv Hq Hne y x Hb). }
    assert (Hstart : bfs_measure st0 = (Z.to_nat rows * Z.to_nat cols)%nat).
    { unfold bfs_seeded in E0.
      destruct (np_full rows cols 0) as [dm|] eqn:Edm; [|discriminate].
      destruct (np_full rows cols false) as [vis|] eqn:Evis; [|discriminate].
      cbn [bind] in E0. injection E0 as <-.
      rewrite fold_seed_filter.
      rewrite (seed_fold_measure rows cols _ []); auto.
      - unfold bfs_measure. cbn [visited queue length].
        rewrite (unvisited_none_marked rows cols).
        + lia.
        + eapply shaped_np_full; eauto.
        + intros y x Hb. apply (nd_get_np_full _ _ _ _ _ _ _ Evis Hb).
      - constructor; unfold is_visited; cbn [distance_map visited queue].
        + eapply shaped_np_full; eauto.
        + eapply shaped_np_full; eauto.
        + reflexivity.
        + intros y x Hb. rewrite (nd_get_np_full _ _ _ _ _ _ _ Evis Hb).
          split; [discriminate | intros []].
        + intros y x Hb. apply (nd_get_np_full _ _ _ _ _ _ _ Edm Hb). }
    lia.
Qed.

Lemma bfs_iterations_witness :
  Nat.le
    (length (bfs_dequeued 10 2 3
               {| distance_map := [[0; 0; 0]; [0; 0; 0]];
                  visited := [[false; false; true]; [false; false; false]];
                  queue := [(0, 2, 0)] |}))
    (bfs_fuel 2 3 [(0, 2); (4, 4)]) /\
  Z.of_nat (length (bfs_dequeued 10 2 3
                      {| distance_map := [[0; 0; 0]; [0; 0; 0]];
                         visited := [[false; false; true]; [false; false; false]];
                         queue := [(0, 2, 0)] |})) = 2 * 3.
Proof.
  destruct (bfs_iterations 2 3 [(0, 2); (4, 4)] 10
              {| distance_map := [[0; 0; 0]; [0; 0; 0]];
                 visited := [[false; false; true]; [false; false; false]];
                 queue := [(0, 2, 0)] |} eq_refl) as [H1 H2].
  split; [exact H1|]. apply H2.
  - discriminate.
  - constructor; [intros [] | constructor].
  - vm_compute. lia.
Defined.


(** ** Prim's algorithm *)

Lemma set_mem_In (v : Z) (nodes : set Z) :
  set_mem Z.eq_dec v nodes = true <-> In v nodes.
Proof.
  split; [apply set_mem_correct1 | apply set_mem_correct2].
Qed.

Lemma set_mem_not_In (v : Z) (nodes : set Z) :
  set_mem Z.eq_dec v nodes = false <-> ~ In v nodes.
Proof.
  split; [apply set_mem_complete1 | apply set_mem_complete2].
Qed.

Lemma set_add_fresh (v : Z) (nodes : set Z) :
  ~ In v nodes -> set_add Z.eq_dec v nodes = nodes ++ [v].
Proof.
  induction nodes as [|a t IH]; intros H; simpl; [reflexivity|].
  destruct (Z.eq_dec v a) as [->|Hne].
  - exfalso. apply H. now left.
  - f_equal. apply IH. intros Hin. apply H. now right.
Qed.

Lemma edge_eqb_eq (e1 e2 : edge) : edge_eqb e1 e2 = true <-> e1 = e2.
Proof.
  destruct e1 as [a b], e2 as [c d]. unfold edge_eqb. simpl.
  rewrite andb_true_iff, !Z.eqb_eq. split.
  - intros [-> ->]. reflexivity.
  - intros [= -> ->]. auto.
Qed.

Lemma dict_set_fresh (d : weights) (k : edge) (w : Z) :
  (forall item, In item d -> fst item <> k) -> dict_set d k w = d ++ [(k, w)].
Proof.
  induction d as [|[k' w'] t IH]; intros H; simpl; [reflexivity|].
  destruct (edge_eqb k k') eqn:E.
  - apply edge_eqb_eq in E. exfalso. apply (H (k', w')); [now left | now symmetry].
  - f_equal. apply IH. intros item Hi. apply H. now right.
Qed.

Lemma item_leb_weight (a b : heap_item) :
  (item_leb a b = true -> fst a <= fst b) /\
  (item_leb a b = false -> fst b <= fst a).
Proof.
  destruct a as [w1 [u1 v1]], b as [w2 [u2 v2]]. unfold item_leb. simpl.
  destruct (Z.ltb_spec w1 w2), (Z.eqb_spec w1 w2); simpl; split; intros;
    try lia; try discriminate.
Qed.

Lemma heappush_In (heap : list heap_item) (item x : heap_item) :
  In x (heappush heap item) <-> x = item \/ In x heap.
Proof.
  induction heap as [|h t IH]; simpl.
  - split; intros [H|H]; auto.
  - destruct (item_leb item h); simpl; rewrite ?IH; split; intros; intuition auto.
Qed.

Lemma heappush_sorted (heap : list heap_item) (item : heap_item) :
  weight_sorted heap -> weight_sorted (heappush heap item).
Proof.
  induction heap as [|h t IH]; intros Hs.
  - simpl. split; [intros x [] | exact I].
  - destruct Hs as [Hh Ht]. cbn [heappush].
    destruct (item_leb item h) eqn:E.
    + destruct (item_leb_weight item h) as [Hle _]. specialize (Hle E).
      split; [|split; assumption].
      intros x [<-|Hx]; [exact Hle|]. specialize (Hh x Hx). lia.
    + destruct (item_leb_weight item h) as [_ Hge]. specialize (Hge E).
      split; [|now apply IH].
      intros x Hx. apply heappush_In in Hx. destruct Hx as [->|Hx];
        [exact Hge | now apply Hh].
Qed.

Lemma pop_unvisited_Some (nodes : set Z) (heap rest : list heap_item)
    (x : heap_item) :
  pop_unvisited nodes heap = Some (x, rest) ->
  exists dropped,
    heap = dropped ++ x :: rest /\
    (forall d, In d dropped -> In (snd (snd d)) nodes) /\
    ~ In (snd (snd x)) nodes.
Proof.
  induction heap as [|[w [u v]] t IH]; simpl; [discriminate|].
  destruct (set_mem Z.eq_dec v nodes) eqn:E.
  - intros H. destruct (IH H) as (dropped & -> & Hd & Hx).
    exists ((w, (u, v)) :: dropped). split; [reflexivity|]. split; [|exact Hx].
    intros d [<-|Hin]; [now apply set_mem_In | now apply Hd].
  - intros [= <- <-]. exists []. split; [reflexivity|].
    split; [intros d [] | now apply set_mem_not_In].
Qed.

Lemma pop_unvisited_None (nodes : set Z) (heap : list heap_item) :
  pop_unvisited nodes heap = None ->
  forall d, In d heap -> In (snd (snd d)) nodes.
Proof.
  induction heap as [|[w [u v]] t IH]; simpl; [intros _ d []|].
  destruct (set_mem Z.eq_dec v nodes) eqn:E; [|discriminate].
  intros H d [<-|Hd]; [now apply set_mem_In | now apply IH].
Qed.

Lemma weight_sorted_app (dropped rest : list heap_item) (x : heap_item) :
  weight_sorted (dropped ++ x :: rest) ->
  weight_sorted rest /\ forall y, In y rest -> fst x <= fst y.
Proof.
  induction dropped as [|d t IH]; simpl.
  - intros [Hx Hr]. now split.
  - intros [_ Ht]. now apply IH.
Qed.

Lemma push_edges_from_In (graph : weights) (v : Z) (nodes : set Z)
    (heap : list heap_item) (x : heap_item) :
  In x (push_edges_from graph v nodes heap) <->
  In x heap \/
  exists b w, x = (w, (v, b)) /\ In ((v, b), w) graph /\ ~ In b nodes.
Proof.
  unfold push_edges_from. revert heap.
  induction graph as [|[[a b] w] t IH]; intros heap; simpl.
  - split; [auto | intros [H|(b & w & _ & [] & _)]; exact H].
  - rewrite IH. clear IH.
    destruct (Z.eqb_spec a v) as [->|Hne];
      [destruct (set_mem Z.eq_dec b nodes) eqn:E|]; simpl.
    + apply set_mem_In in E. split.
      * intros [H|(b' & w' & -> & Hg & Hb)]; [now left|].
        right. exists b', w'. auto.
      * intros [H|(b' & w' & -> & [[= <- <-]|Hg] & Hb)]; [now left | tauto |].
        right. exists b', w'. auto.
    + apply set_mem_not_In in E. rewrite heappush_In. split.
      * intros [[->|H]|(b' & w' & -> & Hg & Hb)].
        -- right. exists b, w. auto.
        -- now left.
        -- right. exists b', w'. auto.
      * intros [H|(b' & w' & -> & [[= <- <-]|Hg] & Hb)].
        -- left. now right.
        -- left. now left.
        -- right. exists b', w'. auto.
    + split.
      * intros [H|(b' & w' & -> & Hg & Hb)]; [now left|].
        right. exists b', w'. auto.
      * intros [H|(b' & w' & -> & [[= -> <- <-]|Hg] & Hb)]; [now left | congruence |].
        right. exists b', w'. auto.
Qed.

Lemma push_edges_from_sorted (graph : weights) (v : Z) (nodes : set Z)
    (heap : list heap_item) :
  weight_sorted heap -> weight_sorted (push_edges_from graph v nodes heap).
Proof.
  unfold push_edges_from. revert heap.
  induction graph as [|[[a b] w] t IH]; intros heap Hs; simpl; [exact Hs|].
  apply IH. destruct (_ && _); [now apply heappush_sorted | exact Hs].
Qed.

Lemma greedy_from_snoc (graph : weights) (tree : weights) (u v w : Z) :
  forall seen,
  greedy_from graph seen tree ->
  let now_seen := seen ++ map (fun item => snd (fst item)) tree in
  In u now_seen -> ~ In v now_seen -> In ((u, v), w) graph ->
  (forall a b w', In ((a, b), w') graph -> In a now_seen -> ~ In b now_seen ->
     w <= w') ->
  greedy_from graph seen (tree ++ [((u, v), w)]).
Proof.
  induction tree as [|[[u0 v0] w0] t IH]; intros seen Hg now_seen Hu Hv Hin Hmin.
  - unfold now_seen in *. simpl in *. rewrite app_nil_r in *. repeat split; auto.
  - destruct Hg as (H1 & H2 & H3 & H4 & H5).
    cbn [app greedy_from]. repeat split; auto.
    apply IH; auto; unfold now_seen in *; cbn [map] in *;
      rewrite <- app_assoc; auto.
Qed.

Lemma init_heap_In (graph : weights) (heap : list heap_item) (x : heap_item) :
  In x (fold_left
          (fun heap '((u, v), weight) =>
             if u =? 0 then heappush heap (weight, (u, v)) else heap)
          graph heap) <->
  In x heap \/ exists b w, x = (w, (0, b)) /\ In ((0, b), w) graph.
Proof.
  revert heap. induction graph as [|[[a b] w] t IH]; intros heap; simpl.
  - split; [auto | intros [H|(b & w & _ & [])]; exact H].
  - rewrite IH. clear IH. destruct (Z.eqb_spec a 0) as [->|Hne].
    + rewrite heappush_In. split.
      * intros [[->|H]|(b' & w' & -> & Hg)].
        -- right. exists b, w. auto.
        -- now left.
        -- right. exists b', w'. auto.
      * intros [H|(b' & w' & -> & [[= <- <-]|Hg])].
        -- left. now right.
        -- left. now left.
        -- right. exists b', w'. auto.
    + split.
      * intros [H|(b' & w' & -> & Hg)]; [now left|].
        right. exists b', w'. auto.
      * intros [H|(b' & w' & -> & [[= -> <- <-]|Hg])]; [now left | congruence |].
        right. exists b', w'. auto.
Qed.

Lemma init_heap_sorted (graph : weights) (heap : list heap_item) :
  weight_sorted heap ->
  weight_sorted
    (fold_left
       (fun heap '((u, v), weight) =>
          if u =? 0 then heappush heap (weight, (u, v)) else heap)
       graph heap).
Proof.
  revert heap. induction graph as [|[[a b] w] t IH]; intros heap Hs; simpl;
    [exact Hs|].
  apply IH. destruct (a =? 0); [now apply heappush_sorted | exact Hs].
Qed.

Lemma prim_inv_init (graph : weights) : prim_inv graph (prim_init graph).
Proof.
  constructor; unfold prim_init; cbn [visited_nodes weight_heap min_node_weights].
  - reflexivity.
  - simpl. constructor; [intros [] | constructor].
  - intros w a b H. apply init_heap_In in H.
    destruct H as [[]|(b' & w' & [= -> -> ->] & Hg)].
    split; [exact Hg | now left].
  - intros a b w Hg Ha _. simpl in Ha. destruct Ha as [<-|[]].
    apply init_heap_In. right. exists b, w. auto.
  - apply init_heap_sorted. exact I.
  - exact I.
Qed.

(** One iteration of the main loop keeps the invariant. *)
Lemma prim_inv_step (graph : weights) (st : prim_state) (w u v : Z)
    (rest : list heap_item) :
  prim_inv graph st ->
  pop_unvisited (visited_nodes st) (weight_heap st) = Some ((w, (u, v)), rest) ->
  let visited' := set_add Z.eq_dec v (visited_nodes st) in
  visited' = visited_nodes st ++ [v] /\
  prim_inv graph
    {| visited_nodes := visited';
       weight_heap := push_edges_from graph v visited' rest;
       min_node_weights := dict_set (min_node_weights st) (u, v) w |}.
Proof.
  intros Hinv Hpop visited'.
  destruct (pop_unvisited_Some _ _ _ _ Hpop) as (dropped & Eh & Hdrop & Hv).
  cbn [snd] in Hv. destruct Hinv.
  assert (Ev : visited' = visited_nodes st ++ [v]) by now apply set_add_fresh.
  assert (Et : dict_set (min_node_weights st) (u, v) w
               = min_node_weights st ++ [((u, v), w)]).
  { apply dict_set_fresh. intros item Hi E. apply Hv. rewrite p_visited0.
    right. apply in_map_iff. exists item.
    split; [|exact Hi]. destruct item as [[a b] w0]. simpl in *. congruence. }
  assert (Hx : In (w, (u, v)) (weight_heap st)).
  { rewrite Eh. apply in_or_app. right. now left. }
  destruct (p_sound0 _ _ _ Hx) as [Hg Hu].
  destruct (weight_sorted_app dropped rest (w, (u, v))) as [Hrs Hmin];
    [now rewrite <- Eh|].
  assert (Hcross : forall a b w', In ((a, b), w') graph ->
            In a (visited_nodes st) -> ~ In b (visited_nodes st) ->
            (w', (a, b)) = (w, (u, v)) \/ In (w', (a, b)) rest).
  { intros a b w' Hg' Ha Hb. pose proof (p_complete0 a b w' Hg' Ha Hb) as Hin.
    rewrite Eh in Hin. apply in_app_or in Hin.
    destruct Hin as [Hin|[E|Hin]]; auto.
    exfalso. apply Hb. apply (Hdrop _ Hin). }
  split; [exact Ev|]. rewrite Ev, Et.
  constructor; cbn [visited_nodes weight_heap min_node_weights].
  - unfold reached. rewrite map_app, p_visited0. reflexivity.
  - now apply NoDup_snoc.
  - intros w' a b H. apply push_edges_from_In in H.
    destruct H as [H|(b' & w0 & [= -> -> ->] & Hg' & Hb')].
    + assert (Hin : In (w', (a, b)) (weight_heap st)).
      { rewrite Eh. apply in_or_app. right. now right. }
      destruct (p_sound0 _ _ _ Hin) as [Hg' Ha].
      split; [exact Hg' | apply in_or_app; now left].
    + split; [exact Hg' | apply in_or_app; right; now left].
  - intros a b w' Hg' Ha Hb. apply push_edges_from_In.
    apply in_app_or in Ha. destruct Ha as [Ha|[<-|[]]].
    + left. destruct (Hcross a b w' Hg' Ha) as [[= -> -> ->]|Hin]; auto.
      * intros Hin. apply Hb. apply in_or_app. now left.
      * exfalso. apply Hb. apply in_or_app. right. now left.
    + right. exists b, w'. auto.
  - now apply push_edges_from_sorted.
  - apply greedy_from_snoc; auto; cbn [app]; fold (reached (min_node_weights st));
      rewrite <- p_visited0; auto.
    intros a b w' Hg' Ha Hb.
    destruct (Hcross a b w' Hg' Ha Hb) as [[= -> -> ->]|Hin]; [lia|].
    apply (Hmin _ Hin).
Qed.

Lemma prim_stuck_closed (graph : weights) (st : prim_state) :
  prim_inv graph st ->
  pop_unvisited (visited_nodes st) (weight_heap st) = None ->
  closed_under graph (visited_nodes st).
Proof.
  intros Hinv Hpop a b w Hg Ha.
  destruct (in_dec Z.eq_dec b (visited_nodes st)) as [Hb|Hb]; [exact Hb|].
  pose proof (p_complete _ _ Hinv a b w Hg Ha Hb) as Hin.
  apply (pop_unvisited_None _ _ Hpop _ Hin).
Qed.

(** The main loop ends, within num_nodes iterations, either with every
    invariant kept and enough nodes visited, or stuck on a set of nodes that
    no edge leaves. *)
Lemma prim_while_spec (graph : weights) (num_nodes : Z) (fuel : nat) :
  forall st, prim_inv graph st ->
  (Z.to_nat (num_nodes - Z.of_nat (length (visited_nodes st))) <= fuel)%nat ->
  (exists st',
     prim_while fuel num_nodes graph st = Some (Ok st') /\
     prim_inv graph st' /\
     num_nodes <= Z.of_nat (length (visited_nodes st'))
     <= Z.max num_nodes (Z.of_nat (length (visited_nodes st)))) \/
  (prim_while fuel num_nodes graph st = Some (Raise ValueError) /\
   exists st', prim_inv graph st' /\
     Z.of_nat (length (visited_nodes st')) < num_nodes /\
     closed_under graph (visited_nodes st')).
Proof.
  induction fuel as [|fuel IH]; intros st Hinv Hfuel.
  - left. exists st. simpl.
    destruct (Z.ltb_spec (Z.of_nat (length (visited_nodes st))) num_nodes); [lia|].
    split; [reflexivity|]. split; [exact Hinv | lia].
  - cbn [prim_while].
    destruct (Z.ltb_spec (Z.of_nat (length (visited_nodes st))) num_nodes)
      as [Hlt|Hge].
    2:{ left. exists st. split; [reflexivity|]. split; [exact Hinv | lia]. }
    destruct (pop_unvisited (visited_nodes st) (weight_heap st))
      as [[[w [u v]] rest]|] eqn:Hpop.
    + destruct (prim_inv_step graph st w u v rest Hinv Hpop) as [Ev Hinv'].
      destruct (IH _ Hinv') as [(st' & E & Hi & Hlen)|(E & st' & Hi & Hlen & Hc)].
      * cbn [visited_nodes]. rewrite Ev, length_app. simpl. lia.
      * left. exists st'. split; [exact E|]. split; [exact Hi|].
        cbn [visited_nodes] in Hlen. rewrite Ev, length_app in Hlen.
        simpl in Hlen. lia.
      * right. split; [exact E|]. exists st'. auto.
    + right. split; [reflexivity|]. exists st.
      split; [exact Hinv|]. split; [exact Hlt|].
      now apply prim_stuck_closed.
Qed.

Lemma greedy_from_incl (graph : weights) (nodes : list Z) (tree : weights) :
  closed_under graph nodes ->
  forall seen, greedy_from graph seen tree -> incl seen nodes ->
  incl (seen ++ map (fun item => snd (fst item)) tree) nodes.
Proof.
  intros Hc. induction tree as [|[[u v] w] t IH]; intros seen Hg Hs.
  - simpl. now rewrite app_nil_r.
  - destruct Hg as (Hu & _ & Hin & _ & Hg).
    assert (Hs' : incl (seen ++ [v]) nodes).
    { intros x Hx. apply in_app_or in Hx. destruct Hx as [Hx|[<-|[]]].
      - now apply Hs.
      - apply (Hc u v w Hin). now apply Hs. }
    pose proof (IH _ Hg Hs') as H. rewrite <- app_assoc in H. exact H.
Qed.

Lemma greedy_from_edges (graph tree : weights) :
  forall seen, greedy_from graph seen tree ->
  forall item, In item tree -> In item graph.
Proof.
  induction tree as [|[[u v] w] t IH]; intros seen Hg item; [intros []|].
  destruct Hg as (_ & _ & Hin & _ & Hg).
  intros [<-|Hi]; [exact Hin | now apply (IH _ Hg)].
Qed.

(** What [prim] returns when given enough fuel. *)
Lemma prim_result (graph : weights) (num_nodes : Z) (fuel : nat) :
  (Z.to_nat num_nodes <= fuel)%nat ->
  (exists tree,
     prim fuel num_nodes graph = Some (Ok tree) /\
     Z.of_nat (length (reached tree)) = Z.max num_nodes 1 /\
     NoDup (reached tree) /\ greedy_from graph [0] tree) \/
  (prim fuel num_nodes graph = Some (Raise ValueError) /\
   exists nodes, In 0 nodes /\ NoDup nodes /\
     Z.of_nat (length nodes) < num_nodes /\ closed_under graph nodes).
Proof.
  intros Hfuel. unfold prim.
  destruct (prim_while_spec graph num_nodes fuel (prim_init graph)
              (prim_inv_init graph))
    as [(st' & E & Hi & Hlen)|(E & st' & Hi & Hlen & Hc)].
  - simpl. lia.
  - left. exists (min_node_weights st'). rewrite E.
    split; [reflexivity|]. rewrite <- (p_visited _ _ Hi).
    change (Z.of_nat (length (visited_nodes (prim_init graph)))) with 1 in Hlen.
    assert (H1 : (1 <= length (visited_nodes st'))%nat).
    { rewrite (p_visited _ _ Hi). unfold reached. cbn [length]. lia. }
    split; [lia|].
    split; [apply (p_nodup _ _ Hi) | apply (p_greedy _ _ Hi)].
  - right. rewrite E. split; [reflexivity|]. exists (visited_nodes st').
    split; [rewrite (p_visited _ _ Hi); now left|].
    split; [apply (p_nodup _ _ Hi)|]. split; [exact Hlen | exact Hc].
Qed.

Lemma greedy_from_split (graph : weights) (pre post : weights) (u v w : Z) :
  forall seen, greedy_from graph seen (pre ++ ((u, v), w) :: post) ->
  let now_seen := seen ++ map (fun item => snd (fst item)) pre in
  In u now_seen /\ ~ In v now_seen /\ In ((u, v), w) graph /\
  (forall a b w', In ((a, b), w') graph -> In a now_seen -> ~ In b now_seen ->
     w <= w').
Proof.
  induction pre as [|[[u0 v0] w0] t IH]; intros seen Hg now_seen.
  - unfold now_seen. simpl. rewrite app_nil_r.
    destruct Hg as (H1 & H2 & H3 & H4 & _). auto.
  - destruct Hg as (_ & _ & _ & _ & Hg).
    specialize (IH _ Hg). unfold now_seen. cbn [map fst snd].
    rewrite <- app_assoc in IH. exact IH.
Qed.

(** [prim] with num_nodes <= 1 returns the empty dictionary at once,
    whatever the graph: the loop condition fails on entry and connectivity
    is never examined. *)
Theorem prim_single_node (fuel : nat) (num_nodes : Z) (graph : weights) :
  num_nodes <= 1 -> prim fuel num_nodes graph = Some (Ok []).
Proof.
  intros H. unfold prim.
  assert (E : prim_while fuel num_nodes graph (prim_init graph)
              = Some (Ok (prim_init graph))).
  { destruct fuel; cbn [prim_while];
      change (Z.of_nat (length (visited_nodes (prim_init graph)))) with 1;
      destruct (Z.ltb_spec 1 num_nodes); try lia; reflexivity. }
  now rewrite E.
Qed.

Lemma prim_single_node_witness :
  prim 0 1 [((0, 1), 4); ((1, 0), 4)] = Some (Ok []).
Proof.
  apply prim_single_node. lia.
Defined.

(** When [prim] returns a dictionary, its items, in insertion order, form a
    tree rooted at node 0: there are num_nodes - 1 of them (for num_nodes >=
    1), each is an edge of the graph with its weight, each leads from a node
    reached before it to a node not reached before, and the num_nodes nodes
    reached are pairwise distinct. *)
Theorem prim_builds_a_tree (fuel : nat) (num_nodes : Z) (graph tree : weights) :
  (Z.to_nat num_nodes <= fuel)%nat ->
  prim fuel num_nodes graph = Some (Ok tree) ->
  Z.of_nat (length tree) = Z.max num_nodes 1 - 1 /\
  NoDup (reached tree) /\
  (forall item, In item tree -> In item graph) /\
  (forall pre post u v w, tree = pre ++ ((u, v), w) :: post ->
     In u (reached pre) /\ ~ In v (reached pre)).
Proof.
  intros Hfuel Hrun.
  destruct (prim_result graph num_nodes fuel Hfuel)
    as [(tree' & E & Hlen & Hnd & Hg)|(E & _)]; rewrite E in Hrun;
    [|discriminate].
  injection Hrun as <-. split; [|split; [exact Hnd|split]].
  - unfold reached in Hlen. cbn [length] in Hlen. rewrite length_map in Hlen.
    unfold weights, edge in *. lia.
  - apply (greedy_from_edges graph tree' [0] Hg).
  - intros pre post u v w ->.
    destruct (greedy_from_split graph pre post u v w [0] Hg) as (Hu & Hv & _).
    split; [exact Hu | exact Hv].
Qed.

Lemma prim_builds_a_tree_witness :
  Z.of_nat (length [((0, 2), 1); ((2, 1), 2); ((2, 3), 7)]) = Z.max 4 1 - 1 /\
  NoDup (reached [((0, 2), 1); ((2, 1), 2); ((2, 3), 7)]) /\
  (forall item, In item [((0, 2), 1); ((2, 1), 2); ((2, 3), 7)] ->
     In item [((0, 1), 4); ((1, 0), 4); ((0, 2), 1); ((2, 0), 1);
              ((1, 2), 2); ((2, 1), 2); ((2, 3), 7); ((3, 2), 7)]) /\
  (forall pre post u v w,
     [((0, 2), 1); ((2, 1), 2); ((2, 3), 7)] = pre ++ ((u, v), w) :: post ->
     In u (reached pre) /\ ~ In v (reached pre)).
Proof.
  apply (prim_builds_a_tree 4 4
           [((0, 1), 4); ((1, 0), 4); ((0, 2), 1); ((2, 0), 1);
            ((1, 2), 2); ((2, 1), 2); ((2, 3), 7); ((3, 2), 7)]).
  - vm_compute. lia.
  - reflexivity.
Defined.

(** Every edge [prim] adds is a lightest edge of the graph leading from the
    nodes reached before it to a node not yet reached. *)
Theorem prim_adds_lightest_edge (fuel : nat) (num_nodes : Z)
    (graph tree : weights) :
  (Z.to_nat num_nodes <= fuel)%nat ->
  prim fuel num_nodes graph = Some (Ok tree) ->
  forall pre post u v w, tree = pre ++ ((u, v), w) :: post ->
  forall a b w', In ((a, b), w') graph ->
    In a (reached pre) -> ~ In b (reached pre) -> w <= w'.
Proof.
  intros Hfuel Hrun pre post u v w Et.
  destruct (prim_result graph num_nodes fuel Hfuel)
    as [(tree' & E & _ & _ & Hg)|(E & _)]; rewrite E in Hrun;
    [|discriminate].
  injection Hrun as <-. subst tree'.
  destruct (greedy_from_split graph pre post u v w [0] Hg) as (_ & _ & _ & Hmin).
  exact Hmin.
Qed.

Lemma prim_adds_lightest_edge_witness :
  In 0 (reached [((0, 2), 1)]) /\ ~ In 1 (reached [((0, 2), 1)]) /\ 2 <= 4.
Proof.
  assert (H0 : In 0 (reached [((0, 2), 1)])) by (left; reflexivity).
  assert (H1 : ~ In 1 (reached [((0, 2), 1)])).
  { intros [H|[H|[]]]; discriminate H. }
  split; [exact H0|]. split; [exact H1|].
  apply (prim_adds_lightest_edge 4 4
           [((0, 1), 4); ((1, 0), 4); ((0, 2), 1); ((2, 0), 1);
            ((1, 2), 2); ((2, 1), 2); ((2, 3), 7); ((3, 2), 7)]
           [((0, 2), 1); ((2, 1), 2); ((2, 3), 7)]
           ltac:(vm_compute; lia) eq_refl
           [((0, 2), 1)] [((2, 3), 7)] 2 1 2 eq_refl 0 1 4).
  - left. reflexivity.
  - exact H0.
  - exact H1.
Defined.

(** Given num_nodes iterations of fuel, [prim] always finishes, and it
    raises the ValueError exactly when some set of fewer than num_nodes
    nodes contains node 0 and is left by no edge of the graph, that is, when
    fewer than num_nodes nodes can be reached from node 0. *)
Theorem prim_raises_iff (fuel : nat) (num_nodes : Z) (graph : weights) :
  (Z.to_nat num_nodes <= fuel)%nat ->
  (exists r, prim fuel num_nodes graph = Some r) /\
  (prim fuel num_nodes graph = Some (Raise ValueError) <->
   exists nodes, In 0 nodes /\ Z.of_nat (length nodes) < num_nodes /\
     closed_under graph nodes).
Proof.
  intros Hfuel.
  destruct (prim_result graph num_nodes fuel Hfuel)
    as [(tree & E & Hlen & Hnd & Hg)|(E & nodes & H0 & Hnd & Hlen & Hc)].
  - split; [eauto|]. rewrite E. split; [discriminate|].
    intros (nodes & H0 & Hlt & Hc). exfalso.
    assert (Hincl : incl (reached tree) nodes).
    { apply (greedy_from_incl graph nodes tree Hc [0] Hg).
      intros x [<-|[]]. exact H0. }
    pose proof (NoDup_incl_length Hnd Hincl). lia.
  - split; [eauto|]. rewrite E. split; [|reflexivity].
    intros _. exists nodes. auto.
Qed.

Lemma prim_raises_iff_witness :
  (exists r, prim 5 5 [((0, 1), 4); ((1, 0), 4); ((3, 4), 2); ((4, 3), 2)]
             = Some r) /\
  (prim 5 5 [((0, 1), 4); ((1, 0), 4); ((3, 4), 2); ((4, 3), 2)]
   = Some (Raise ValueError) <->
   exists nodes, In 0 nodes /\ Z.of_nat (length nodes) < 5 /\
     closed_under [((0, 1), 4); ((1, 0), 4); ((3, 4), 2); ((4, 3), 2)] nodes).
Proof.
  apply prim_raises_iff. vm_compute. lia.
Defined.

(** ** The random graph *)

Lemma dict_get_set (d : weights) (k k' : edge) (w : Z) :
  dict_get (dict_set d k w) k'
  = if edge_eqb k' k then Some w else dict_get d k'.
Proof.
  induction d as [|[k0 w0] t IH]; simpl.
  - reflexivity.
  - destruct (edge_eqb k k0) eqn:E; simpl.
    + apply edge_eqb_eq in E. subst k0.
      destruct (edge_eqb k' k); reflexivity.
    + rewrite IH. destruct (edge_eqb k' k0) eqn:E0; [|reflexivity].
      apply edge_eqb_eq in E0. subst k0.
      destruct (edge_eqb k' k) eqn:E1; [|reflexivity].
      apply edge_eqb_eq in E1. subst k'.
      assert (edge_eqb k k = true) by now apply edge_eqb_eq. congruence.
Qed.

Lemma dict_set_keys (d : weights) (k k' : edge) (w : Z) :
  In k' (map fst (dict_set d k w)) <-> k' = k \/ In k' (map fst d).
Proof.
  induction d as [|[k0 w0] t IH]; simpl.
  - intuition auto.
  - destruct (edge_eqb k k0) eqn:E; simpl.
    + apply edge_eqb_eq in E. subst k0. intuition auto.
    + rewrite IH. intuition auto.
Qed.

Lemma dict_set_NoDup (d : weights) (k : edge) (w : Z) :
  NoDup (map fst d) -> NoDup (map fst (dict_set d k w)).
Proof.
  induction d as [|[k0 w0] t IH]; simpl; intros Hnd.
  - constructor; [intros [] | constructor].
  - inversion Hnd as [|? ? Hk0 Ht]; subst.
    destruct (edge_eqb k k0) eqn:E; simpl.
    + apply edge_eqb_eq in E. subst k0. now constructor.
    + constructor; [|now apply IH].
      intros Hin. apply dict_set_keys in Hin. destruct Hin as [->|Hin]; auto.
      assert (edge_eqb k k = true) by now apply edge_eqb_eq. congruence.
Qed.

Lemma dict_get_In (d : weights) (k : edge) (w : Z) :
  NoDup (map fst d) -> (dict_get d k = Some w <-> In (k, w) d).
Proof.
  induction d as [|[k0 w0] t IH]; simpl; intros Hnd.
  - split; [discriminate | intros []].
  - inversion Hnd as [|? ? Hk0 Ht]; subst.
    destruct (edge_eqb k k0) eqn:E.
    + apply edge_eqb_eq in E. subst k0. split.
      * intros [= ->]. now left.
      * intros [[= ->]|Hin]; [reflexivity|].
        exfalso. apply Hk0. apply in_map_iff. exists (k, w). auto.
    + rewrite (IH Ht). split; [now right|].
      intros [[= -> ->]|Hin]; [|exact Hin].
      assert (edge_eqb k k = true) by now apply edge_eqb_eq. congruence.
Qed.

Lemma In_range_from (a b j : Z) : In j (range_from a b) <-> a <= j < b.
Proof.
  unfold range_from. rewrite in_map_iff. split.
  - intros (k & <- & Hk). apply in_seq in Hk. lia.
  - intros H. exists (Z.to_nat (j - a)). split; [lia|]. apply in_seq. lia.
Qed.

Lemma gen_inv_ext (randint : Z -> Z -> Z) (coin : Z -> Z -> bool)
    (handled handled' : Z -> Z -> Prop) (d : weights) :
  (forall a b, handled a b <-> handled' a b) ->
  gen_inv randint coin handled d -> gen_inv randint coin handled' d.
Proof.
  intros He [Hnd H]. split; [exact Hnd|].
  intros a b w. rewrite H, He. reflexivity.
Qed.

Lemma edge_eqb_pair (a b c d : Z) :
  edge_eqb (a, b) (c, d) = true <-> a = c /\ b = d.
Proof.
  rewrite edge_eqb_eq. split; [intros [= -> ->]; auto | intros [-> ->]; auto].
Qed.

(** Handling the pair [(i, j)]. *)
Lemma gen_inv_step (randint : Z -> Z -> Z) (coin : Z -> Z -> bool)
    (handled : Z -> Z -> Prop) (d : weights) (i j : Z) :
  i < j -> gen_inv randint coin handled d ->
  gen_inv randint coin (fun a b => handled a b \/ (a = i /\ b = j))
    (if coin i j
     then dict_set (dict_set d (i, j) (randint i j)) (j, i) (randint i j)
     else d).
Proof.
  intros Hij [Hnd H]. destruct (coin i j) eqn:Ec; split.
  - now apply dict_set_NoDup, dict_set_NoDup.
  - intros a b w. rewrite !dict_get_set.
    destruct (edge_eqb (a, b) (j, i)) eqn:E1.
    { apply edge_eqb_pair in E1. destruct E1 as [-> ->].
      replace (Z.min j i) with i by lia. replace (Z.max j i) with j by lia.
      split.
      - intros [= <-]. repeat split; auto. lia.
      - intros (_ & _ & _ & ->). reflexivity. }
    destruct (edge_eqb (a, b) (i, j)) eqn:E2.
    { apply edge_eqb_pair in E2. destruct E2 as [-> ->].
      replace (Z.min i j) with i by lia. replace (Z.max i j) with j by lia.
      split.
      - intros [= <-]. repeat split; auto. lia.
      - intros (_ & _ & _ & ->). reflexivity. }
    rewrite H.
    assert (Hne : ~ (Z.min a b = i /\ Z.max a b = j) \/ a = b).
    { destruct (Z.eq_dec a b); [now right|]. left. intros [Hmin Hmax].
      assert (Hcase : (a = i /\ b = j) \/ (a = j /\ b = i)) by lia.
      destruct Hcase as [Hc|Hc].
      - apply edge_eqb_pair in Hc. congruence.
      - apply edge_eqb_pair in Hc. congruence. }
    split.
    + intros (Hab & Hh & Hc & Hw). repeat split; auto.
    + intros (Hab & [Hh|Hh] & Hc & Hw); [repeat split; auto|].
      destruct Hne as [Hne|Hne]; [contradiction | congruence].
  - exact Hnd.
  - intros a b w. rewrite H. split.
    + intros (Hab & Hh & Hc & Hw). repeat split; auto.
    + intros (Hab & [Hh|[Hmin Hmax]] & Hc & Hw); [repeat split; auto|].
      rewrite Hmin, Hmax in Hc. congruence.
Qed.

(** The inner loop of [generate_graph] for the row [i]. *)
Lemma gen_inv_row (randint : Z -> Z -> Z) (coin : Z -> Z -> bool) (i : Z)
    (js : list Z) :
  (forall j, In j js -> i < j) ->
  forall handled d, gen_inv randint coin handled d ->
  gen_inv randint coin (fun a b => handled a b \/ (a = i /\ In b js))
    (fold_left
       (fun start_end_weights j =>
          let weight := randint i j in
          if coin i j then
            dict_set (dict_set start_end_weights (i, j) weight) (j, i) weight
          else start_end_weights)
       js d).
Proof.
  induction js as [|j js IH]; intros Hjs handled d Hinv.
  - simpl. eapply gen_inv_ext; [|exact Hinv]. intros a b. simpl. tauto.
  - cbn [fold_left].
    pose proof (gen_inv_step randint coin handled d i j
                  (Hjs j (or_introl eq_refl)) Hinv) as Hstep.
    eapply gen_inv_ext; [|apply IH; [|exact Hstep]].
    + intros a b. simpl. split.
      * intros [[Hh|[-> ->]]|[-> Hb]]; auto.
      * intros [Hh|[-> [->|Hb]]]; auto.
    + intros j' Hj'. apply Hjs. now right.
Qed.

Lemma gen_inv_rows (randint : Z -> Z -> Z) (coin : Z -> Z -> bool)
    (num_nodes : Z) (rs : list Z) :
  forall handled d, gen_inv randint coin handled d ->
  gen_inv randint coin
    (fun a b => handled a b \/ (In a rs /\ In b (range_from (a + 1) num_nodes)))
    (fold_left
       (fun start_end_weights i =>
          fold_left
            (fun start_end_weights j =>
               let weight := randint i j in
               if coin i j then
                 dict_set (dict_set start_end_weights (i, j) weight) (j, i) weight
               else start_end_weights)
            (range_from (i + 1) num_nodes) start_end_weights)
       rs d).
Proof.
  induction rs as [|i rs IH]; intros handled d Hinv.
  - simpl. eapply gen_inv_ext; [|exact Hinv]. intros a b. simpl. tauto.
  - cbn [fold_left].
    pose proof (gen_inv_row randint coin i (range_from (i + 1) num_nodes)) as Hrow.
    specialize (Hrow (fun j Hj => ltac:(apply In_range_from in Hj; lia))
                  handled d Hinv).
    eapply gen_inv_ext; [|apply IH; exact Hrow].
    intros a b. simpl. split.
    + intros [[Hh|[-> Hb]]|[Ha Hb]]; auto.
    + intros [Hh|[[->|Ha] Hb]]; auto.
Qed.

Lemma generate_graph_inv (randint : Z -> Z -> Z) (coin : Z -> Z -> bool)
    (num_nodes : Z) :
  gen_inv randint coin (fun a b => 0 <= a /\ a < b /\ b < num_nodes)
    (generate_graph randint coin num_nodes).
Proof.
  unfold generate_graph.
  eapply gen_inv_ext;
    [|apply (gen_inv_rows randint coin num_nodes (range num_nodes)
               (fun _ _ => False) [])].
  - intros a b. cbn beta. rewrite In_range, In_range_from. lia.
  - split; [constructor|]. intros a b w. simpl.
    split; [discriminate | tauto].
Qed.

(** [generate_graph] returns an undirected graph without loops on the nodes
    0 .. num_nodes - 1: the edge (a, b) is present, with weight w, exactly
    when a and b are two different nodes, the coin for the pair came up, and
    w is the weight drawn for the pair; so (b, a) is present with the same
    weight; and no key occurs twice. *)
Theorem generate_graph_undirected (randint : Z -> Z -> Z)
    (coin : Z -> Z -> bool) (num_nodes : Z) :
  let graph := generate_graph randint coin num_nodes in
  NoDup (map fst graph) /\
  (forall a b w, In ((a, b), w) graph <->
     0 <= a < num_nodes /\ 0 <= b < num_nodes /\ a <> b /\
     coin (Z.min a b) (Z.max a b) = true /\
     w = randint (Z.min a b) (Z.max a b)) /\
  (forall a b w, In ((a, b), w) graph <-> In ((b, a), w) graph).
Proof.
  intros graph.
  destruct (generate_graph_inv randint coin num_nodes) as [Hnd H].
  fold graph in Hnd, H.
  assert (Hchar : forall a b w, In ((a, b), w) graph <->
     0 <= a < num_nodes /\ 0 <= b < num_nodes /\ a <> b /\
     coin (Z.min a b) (Z.max a b) = true /\
     w = randint (Z.min a b) (Z.max a b)).
  { intros a b w. rewrite <- (dict_get_In graph (a, b) w Hnd), H.
    split.
    - intros (Hab & Hr & Hc & Hw). repeat split; auto; lia.
    - intros (Ha & Hb & Hab & Hc & Hw). repeat split; auto; lia. }
  split; [exact Hnd|]. split; [exact Hchar|].
  intros a b w. rewrite !Hchar, (Z.min_comm b a), (Z.max_comm b a).
  intuition auto.
Qed.

Lemma generate_graph_range (randint : Z -> Z -> Z) (coin : Z -> Z -> bool)
    (num_nodes a b w : Z) :
  In ((a, b), w) (generate_graph randint coin num_nodes) ->
  0 <= a < num_nodes /\ 0 <= b < num_nodes /\
  w = randint (Z.min a b) (Z.max a b).
Proof.
  destruct (generate_graph_inv randint coin num_nodes) as [Hnd H]. intros Hin.
  apply (dict_get_In _ (a, b) w Hnd) in Hin. apply H in Hin.
  destruct Hin as (Hab & Hr & _ & Hw). repeat split; auto; lia.
Qed.

(** On a graph made by [generate_graph] with weights drawn from 1 to 10, a
    tree returned by [prim] for num_nodes >= 1 spans the graph: it has
    num_nodes - 1 edges, reaches every node 0 .. num_nodes - 1, and every
    edge of it weighs between 1 and 10. *)
Theorem prim_spans_generated_graph (randint : Z -> Z -> Z)
    (coin : Z -> Z -> bool) (num_nodes : Z) (fuel : nat) (tree : weights) :
  (forall i j, 1 <= randint i j <= 10) ->
  1 <= num_nodes -> (Z.to_nat num_nodes <= fuel)%nat ->
  prim fuel num_nodes (generate_graph randint coin num_nodes) = Some (Ok tree) ->
  Z.of_nat (length tree) = num_nodes - 1 /\
  (forall k, 0 <= k < num_nodes -> In k (reached tree)) /\
  (forall item, In item tree -> 1 <= snd item <= 10).
Proof.
  intros Hw Hn Hfuel Hrun.
  destruct (prim_result (generate_graph randint coin num_nodes) num_nodes fuel
              Hfuel)
    as [(tree' & E & Hlen & Hnd & Hg)|(E & _)]; rewrite E in Hrun;
    [|discriminate].
  injection Hrun as <-.
  pose proof (greedy_from_edges _ tree' [0] Hg) as Hedges.
  split; [|split].
  - unfold reached in Hlen. cbn [length] in Hlen. rewrite length_map in Hlen.
    unfold weights, edge in *. lia.
  - assert (Hincl : incl (reached tree') (range num_nodes)).
    { intros x [<-|Hx]; [apply In_range; lia|].
      apply in_map_iff in Hx. destruct Hx as ([[a b] w] & <- & Hi).
      apply Hedges, generate_graph_range in Hi. apply In_range. simpl. lia. }
    assert (Hlen' : (length (range num_nodes) <= length (reached tree'))%nat).
    { unfold range. rewrite length_map, length_seq. lia. }
    pose proof (NoDup_length_incl Hnd Hlen' Hincl) as Hback.
    intros k Hk. apply Hback, In_range, Hk.
  - intros [[a b] w] Hi. apply Hedges, generate_graph_range in Hi.
    destruct Hi as (_ & _ & ->). simpl. apply Hw.
Qed.

Lemma prim_spans_generated_graph_witness :
  Z.of_nat (length [((0, 1), 2); ((0, 2), 3); ((0, 3), 4)]) = 4 - 1 /\
  (forall k, 0 <= k < 4 -> In k (reached [((0, 1), 2); ((0, 2), 3); ((0, 3), 4)])) /\
  (forall item, In item [((0, 1), 2); ((0, 2), 3); ((0, 3), 4)] ->
     1 <= snd item <= 10).
Proof.
  apply (prim_spans_generated_graph
           (fun i j => 1 + (i + j) mod 10) (fun i j => Z.even (i * j)) 4 4).
  - intros i j. pose proof (Z.mod_pos_bound (i + j) 10). lia.
  - lia.
  - vm_compute. lia.
  - reflexivity.
Defined.

(** ** Minimality of the tree built by Prim's algorithm *)

Lemma adj_sym (es : weights) (x y : Z) : adj es x y -> adj es y x.
Proof. intros (w & [H|H]); exists w; auto. Qed.

Lemma conn_trans (es : weights) (a b c : Z) :
  conn es a b -> conn es b c -> conn es a c.
Proof.
  induction 1 as [a|a b' c' Hadj Hc IH]; intros H; [exact H|].
  eapply conn_step; eauto.
Qed.

Lemma conn_adj (es : weights) (a b : Z) : adj es a b -> conn es a b.
Proof. intros H. eapply conn_step; [exact H | constructor]. Qed.

Lemma conn_sym (es : weights) (a b : Z) : conn es a b -> conn es b a.
Proof.
  induction 1 as [a|a b' c' Hadj Hc IH]; [constructor|].
  eapply conn_trans; [exact IH|]. apply conn_adj. now apply adj_sym.
Qed.

Lemma conn_map (es es' : weights) :
  (forall x y, adj es x y -> conn es' x y) ->
  forall a b, conn es a b -> conn es' a b.
Proof.
  intros H a b. induction 1 as [a|a b' c' Hadj Hc IH]; [constructor|].
  eapply conn_trans; [apply H, Hadj | exact IH].
Qed.

Lemma chain_cons (es : weights) (p q : Z) (rest : list Z) :
  chain es (p :: q :: rest) <-> adj es p q /\ chain es (q :: rest).
Proof. reflexivity. Qed.

Lemma last_cons_default (l : list Z) (q d : Z) : last (q :: l) d = last l q.
Proof.
  revert q d. induction l as [|x t IH]; intros q d; [reflexivity|].
  change (last (q :: x :: t) d) with (last (x :: t) d). now rewrite !IH.
Qed.

Lemma conn_chain (es : weights) (a b : Z) :
  conn es a b -> exists l, chain es (a :: l) /\ last l a = b.
Proof.
  induction 1 as [a|a b' c' Hadj Hc (l & Hl & El)].
  - exists []. split; [exact I | reflexivity].
  - exists (b' :: l). split.
    + apply chain_cons. now split.
    + rewrite last_cons_default. exact El.
Qed.

Lemma chain_conn (es : weights) (l : list Z) :
  forall a, chain es (a :: l) -> conn es a (last l a).
Proof.
  induction l as [|q t IH]; intros a H; [constructor|].
  apply chain_cons in H. destruct H as [Hadj Ht].
  rewrite last_cons_default. eapply conn_step; [exact Hadj | now apply IH].
Qed.

Lemma chain_app_r (es : weights) (l1 l2 : list Z) :
  chain es (l1 ++ l2) -> chain es l2.
Proof.
  induction l1 as [|p t IH]; [auto|]. intros H. apply IH.
  destruct t as [|q t']; simpl in *.
  - destruct l2; [exact I | apply H].
  - apply H.
Qed.

Lemma chain_app_l (es : weights) (l1 l2 : list Z) :
  chain es (l1 ++ l2) -> chain es l1.
Proof.
  induction l1 as [|p t IH]; [intros; exact I|]. intros H.
  destruct t as [|q t']; [exact I|].
  change ((p :: q :: t') ++ l2) with (p :: q :: (t' ++ l2)) in H.
  apply chain_cons in H. destruct H as [Hadj Ht].
  apply chain_cons. split; [exact Hadj | now apply IH].
Qed.

Lemma last_app_cons (l1 l2 : list Z) (a d : Z) :
  last (l1 ++ a :: l2) d = last l2 a.
Proof.
  induction l1 as [|x t IH]; simpl.
  - apply last_cons_default.
  - destruct (t ++ a :: l2) eqn:E; [destruct t; discriminate | exact IH].
Qed.

(** A chain can be shortened to one that visits no node twice. *)
Lemma chain_simple (es : weights) (l : list Z) :
  forall a, chain es (a :: l) ->
  exists l', chain es (a :: l') /\ last l' a = last l a /\ NoDup (a :: l').
Proof.
  induction l as [|q t IH]; intros a H.
  - exists []. split; [exact I|]. split; [reflexivity|].
    constructor; [intros [] | constructor].
  - apply chain_cons in H. destruct H as [Hadj Ht].
    destruct (IH q Ht) as (t' & Hc & El & Hnd).
    rewrite last_cons_default, <- El.
    destruct (in_dec Z.eq_dec a (q :: t')) as [Hin|Hout].
    + apply in_split in Hin. destruct Hin as (l1 & l2 & E).
      exists l2. split; [|split].
      * rewrite E in Hc. now apply chain_app_r in Hc.
      * rewrite <- (last_cons_default t' q a), E. now rewrite last_app_cons.
      * rewrite E in Hnd. now apply NoDup_app_remove_l in Hnd.
    + exists (q :: t'). split; [|split].
      * apply chain_cons. now split.
      * apply last_cons_default.
      * now constructor.
Qed.

(** A chain leaving a set of nodes has a step that leaves it. *)
Lemma chain_crossing (nodes : list Z) (l : list Z) :
  forall a, In a nodes -> ~ In (last l a) nodes ->
  exists l1 x y l2, a :: l = l1 ++ x :: y :: l2 /\ In x nodes /\ ~ In y nodes.
Proof.
  induction l as [|q t IH]; intros a Ha Hl.
  - simpl in Hl. contradiction.
  - rewrite last_cons_default in Hl.
    destruct (in_dec Z.eq_dec q nodes) as [Hq|Hq].
    + destruct (IH q Hq Hl) as (l1 & x & y & l2 & E & Hx & Hy).
      exists (a :: l1), x, y, l2. split; [simpl; now rewrite E | auto].
    + exists [], a, q, t. auto.
Qed.

Lemma chain_avoid (es es' : weights) (x y : Z) (l : list Z) :
  (forall p q, adj es p q ->
     (p = x /\ q = y) \/ (p = y /\ q = x) \/ adj es' p q) ->
  chain es l -> ~ In x l \/ ~ In y l -> chain es' l.
Proof.
  intros H. induction l as [|p t IH]; intros Hc Hxy; [exact I|].
  destruct t as [|q t']; [exact I|].
  apply chain_cons in Hc. destruct Hc as [Hadj Ht]. apply chain_cons. split.
  - destruct (H p q Hadj) as [[-> ->]|[[-> ->]|Ha]]; [| |exact Ha];
      exfalso; destruct Hxy as [Hn|Hn]; apply Hn; simpl; auto.
  - apply IH; [exact Ht|]. destruct Hxy as [Hn|Hn]; [left|right];
      intros Hin; apply Hn; now right.
Qed.

(** Exchange: if [u] inside and [v] outside a set of nodes are connected,
    some step between a node [x] inside and a node [y] outside can be given
    up for a direct link between [u] and [v] without disconnecting
    anything. *)
Lemma exchange (es : weights) (nodes : list Z) (u v : Z) :
  conn es u v -> In u nodes -> ~ In v nodes ->
  exists x y, In x nodes /\ ~ In y nodes /\ adj es x y /\
    forall es',
      (forall p q, adj es p q ->
         (p = x /\ q = y) \/ (p = y /\ q = x) \/ adj es' p q) ->
      adj es' u v ->
      forall a b, conn es a b -> conn es' a b.
Proof.
  intros Hc Hu Hv.
  destruct (conn_chain es u v Hc) as (l0 & Hl0 & El0).
  destruct (chain_simple es l0 u Hl0) as (l & Hl & El & Hnd).
  rewrite El0 in El. rewrite <- El in Hv.
  destruct (chain_crossing nodes l u Hu Hv) as (l1 & x & y & l2 & E & Hx & Hy).
  assert (Hxy : adj es x y).
  { rewrite E in Hl. apply chain_app_r in Hl. apply chain_cons in Hl.
    apply Hl. }
  exists x, y. split; [exact Hx|]. split; [exact Hy|]. split; [exact Hxy|].
  intros es' Hes' He.
  assert (E' : u :: l = (l1 ++ [x]) ++ y :: l2).
  { rewrite E, <- app_assoc. reflexivity. }
  assert (Hny : ~ In y (l1 ++ [x])).
  { rewrite E' in Hnd. apply NoDup_remove_2 in Hnd.
    intros Hin. apply Hnd. apply in_or_app. now left. }
  assert (Hnx : ~ In x (y :: l2)).
  { rewrite E in Hnd. apply NoDup_remove_2 in Hnd.
    intros Hin. apply Hnd. apply in_or_app. now right. }
  assert (Hpre : conn es' u x).
  { assert (Hch : chain es' (l1 ++ [x])).
    { apply (chain_avoid es es' x y); [exact Hes'| |now right].
      apply (chain_app_l es (l1 ++ [x]) (y :: l2)). now rewrite <- E'. }
    destruct l1 as [|p l1'].
    - simpl in E. injection E as <- _. constructor.
    - simpl in E. injection E as <- _.
      pose proof (chain_conn es' (l1' ++ [x]) u Hch) as Hcn.
      now rewrite last_app_cons in Hcn. }
  assert (Hsuf : conn es' y v).
  { assert (Hch : chain es' (y :: l2)).
    { apply (chain_avoid es es' x y); [exact Hes'| |now left].
      apply (chain_app_r es (l1 ++ [x]) (y :: l2)). now rewrite <- E'. }
    pose proof (chain_conn es' l2 y Hch) as Hcn.
    replace (last l2 y) with v in Hcn; [exact Hcn|].
    rewrite <- El, <- (last_cons_default l u u), E'.
    now rewrite last_app_cons. }
  assert (Hlink : conn es' x y).
  { eapply conn_trans; [apply conn_sym, Hpre|].
    eapply conn_step; [exact He | apply conn_sym, Hsuf]. }
  apply conn_map. intros p q Hadj.
  destruct (Hes' p q Hadj) as [[-> ->]|[[-> ->]|Ha]].
  - exact Hlink.
  - now apply conn_sym.
  - now apply conn_adj.
Qed.

Lemma total_weight_app (l1 l2 : weights) :
  total_weight (l1 ++ l2) = total_weight l1 + total_weight l2.
Proof.
  unfold total_weight. induction l1 as [|i t IH]; simpl; [reflexivity|].
  rewrite IH. lia.
Qed.

Lemma adj_In (es : weights) (a b w : Z) : In ((a, b), w) es -> adj es a b.
Proof. intros H. exists w. now left. Qed.

(** The items of a greedily built tree join nodes it reaches. *)
Lemma greedy_from_nodes (graph : weights) (tree : weights) :
  forall seen, greedy_from graph seen tree ->
  forall a b w, In ((a, b), w) tree ->
    In a (seen ++ map (fun item => snd (fst item)) tree) /\
    In b (seen ++ map (fun item => snd (fst item)) tree).
Proof.
  induction tree as [|[[u v] w0] t IH]; intros seen Hg a b w; [intros []|].
  destruct Hg as (Hu & _ & _ & _ & Hg). cbn [map fst snd].
  intros [[= -> -> ->]|Hin].
  - split; apply in_or_app; [now left | right; now left].
  - destruct (IH _ Hg a b w Hin) as [Ha Hb].
    rewrite <- app_assoc in Ha, Hb. now split.
Qed.

Lemma greedy_from_prefix (graph : weights) (pre post : weights) :
  forall seen, greedy_from graph seen (pre ++ post) ->
  greedy_from graph seen pre.
Proof.
  induction pre as [|[[u v] w] t IH]; intros seen Hg; [exact I|].
  destruct Hg as (H1 & H2 & H3 & H4 & Hg).
  cbn [greedy_from]. repeat split; auto.
Qed.

(** A greedily built tree connects node 0 to every node it reaches. *)
Lemma greedy_from_conn (graph es : weights) (tree : weights) :
  (forall item, In item tree -> In item es) ->
  forall seen, greedy_from graph seen tree ->
  (forall s, In s seen -> conn es 0 s) ->
  forall k, In k (seen ++ map (fun item => snd (fst item)) tree) ->
    conn es 0 k.
Proof.
  intros Hsub. induction tree as [|[[u v] w] t IH]; intros seen Hg Hs k Hk.
  - simpl in Hk. rewrite app_nil_r in Hk. now apply Hs.
  - destruct Hg as (Hu & _ & _ & _ & Hg). cbn [map fst snd] in Hk.
    apply (IH (fun item Hi => Hsub item (or_intror Hi)) (seen ++ [v]) Hg).
    + intros s Hin. apply in_app_or in Hin. destruct Hin as [Hin|[<-|[]]].
      * now apply Hs.
      * eapply conn_trans; [apply (Hs u Hu)|].
        apply conn_adj, (adj_In es u v w), Hsub. now left.
    + now rewrite <- app_assoc.
Qed.

(** Any spanning list of edges can be turned, without raising its weight,
    into one that begins with the edges Prim's algorithm chose. *)
Lemma prim_exchange_chain (graph other : weights) :
  (forall a b w, In ((a, b), w) graph -> In ((b, a), w) graph) ->
  (forall item, In item other -> In item graph) ->
  forall pre post, greedy_from graph [0] (pre ++ post) ->
  (forall k, In k (reached (pre ++ post)) -> conn other 0 k) ->
  exists others,
    (forall item, In item others -> In item graph) /\
    (length pre + length others)%nat = length other /\
    (forall k, In k (reached (pre ++ post)) -> conn (pre ++ others) 0 k) /\
    total_weight (pre ++ others) <= total_weight other.
Proof.
  intros Hsym Hsub pre. induction pre as [|e pre IH] using rev_ind;
    intros post Hg Hspan.
  - exists other. simpl. repeat split; auto. lia.
  - rewrite <- app_assoc in Hg, Hspan. cbn [app] in Hg, Hspan.
    destruct (IH (e :: post) Hg Hspan) as (R & HR & Hlen & Hconn & Hw).
    destruct e as [[u v] w].
    destruct (greedy_from_split graph pre post u v w [0] Hg)
      as (Hu & Hv & Hin & Hmin).
    change ([0] ++ map (fun item => snd (fst item)) pre) with (reached pre)
      in Hu, Hv, Hmin.
    assert (HuV : In u (reached (pre ++ ((u, v), w) :: post))).
    { unfold reached in *. rewrite map_app.
      destruct Hu as [Hu|Hu]; [now left | right].
      apply in_or_app. now left. }
    assert (HvV : In v (reached (pre ++ ((u, v), w) :: post))).
    { unfold reached. rewrite map_app. right. apply in_or_app. right.
      now left. }
    assert (Huv : conn (pre ++ R) u v).
    { eapply conn_trans; [apply conn_sym, Hconn, HuV | apply Hconn, HvV]. }
    destruct (exchange (pre ++ R) (reached pre) u v Huv Hu Hv)
      as (x & y & Hx & Hy & Hxy & Hex).
    assert (Hf : exists f wf, In f R /\ snd f = wf /\ w <= wf /\
                   (fst f = (x, y) \/ fst f = (y, x))).
    { pose proof (greedy_from_prefix graph pre _ [0] Hg) as Hgp.
      destruct Hxy as (wf & [Hi|Hi]); apply in_app_or in Hi;
        destruct Hi as [Hi|Hi].
      - exfalso. apply Hy.
        now destruct (greedy_from_nodes graph pre [0] Hgp _ _ _ Hi).
      - exists ((x, y), wf), wf. repeat split; auto.
        apply (Hmin x y wf); auto.
      - exfalso. apply Hy.
        now destruct (greedy_from_nodes graph pre [0] Hgp _ _ _ Hi).
      - exists ((y, x), wf), wf. repeat split; auto.
        apply (Hmin x y wf); auto. }
    destruct Hf as (f & wf & HfR & Ewf & Hle & Hends).
    apply in_split in HfR. destruct HfR as (R1 & R2 & ER).
    exists (R1 ++ R2). split; [|split; [|split]].
    + intros item Hi. apply HR. rewrite ER. apply in_app_or in Hi.
      apply in_or_app. destruct Hi; [now left | right; now right].
    + rewrite ER in Hlen. rewrite !length_app in *. simpl in *. lia.
    + intros k Hk. rewrite <- app_assoc in Hk. cbn [app] in Hk.
      apply (Hex ((pre ++ [((u, v), w)]) ++ R1 ++ R2)); [| |now apply Hconn].
      * intros p q (w' & Hpq).
        assert (Hcase : forall item, In item (pre ++ R) ->
                  item = f \/ In item ((pre ++ [((u, v), w)]) ++ R1 ++ R2)).
        { intros item Hi. rewrite ER in Hi. apply in_app_or in Hi.
          destruct Hi as [Hi|Hi].
          - right. apply in_or_app. left. apply in_or_app. now left.
          - apply in_app_or in Hi. destruct Hi as [Hi|[Hi|Hi]].
            + right. apply in_or_app. right. apply in_or_app. now left.
            + now left.
            + right. apply in_or_app. right. apply in_or_app. now right. }
        destruct Hpq as [Hi|Hi]; destruct (Hcase _ Hi) as [Ef|Hi'].
        -- rewrite <- Ef in Hends. simpl in Hends.
           destruct Hends as [[= -> ->]|[= -> ->]]; auto.
        -- right. right. exists w'. now left.
        -- rewrite <- Ef in Hends. simpl in Hends.
           destruct Hends as [[= -> ->]|[= -> ->]]; auto.
        -- right. right. exists w'. now right.
      * exists w. left. apply in_or_app. left. apply in_or_app. right.
        now left.
    + rewrite ER in Hw. rewrite !total_weight_app in *.
      unfold total_weight in *. simpl in *. lia.
Qed.

(** On an undirected graph the tree [prim] returns is a minimum spanning
    tree: it connects node 0 to every node it reaches, and no list of as many
    edges of the graph that also connects node 0 to all these nodes has a
    smaller total weight. *)
Theorem prim_minimum_spanning_tree (fuel : nat) (num_nodes : Z)
    (graph tree other : weights) :
  (Z.to_nat num_nodes <= fuel)%nat ->
  (forall a b w, In ((a, b), w) graph -> In ((b, a), w) graph) ->
  prim fuel num_nodes graph = Some (Ok tree) ->
  (forall item, In item other -> In item graph) ->
  length other = length tree ->
  (forall k, In k (reached tree) -> conn other 0 k) ->
  (forall k, In k (reached tree) -> conn tree 0 k) /\
  total_weight tree <= total_weight other.
Proof.
  intros Hfuel Hsym Hrun Hsub Hlen Hspan.
  destruct (prim_result graph num_nodes fuel Hfuel)
    as [(tree' & E & _ & _ & Hg)|(E & _)]; rewrite E in Hrun;
    [|discriminate].
  injection Hrun as <-. split.
  - apply (greedy_from_conn graph tree' tree' (fun item H => H) [0] Hg).
    intros s [<-|[]]. constructor.
  - destruct (prim_exchange_chain graph other Hsym Hsub tree' [])
      as (R & _ & HlenR & _ & Hw).
    + now rewrite app_nil_r.
    + now rewrite app_nil_r.
    + assert (R = []) by (destruct R; [reflexivity | simpl in *; lia]).
      subst R. now rewrite app_nil_r in Hw.
Qed.

Lemma prim_minimum_spanning_tree_witness :
  (forall k, In k (reached [((0, 2), 1); ((2, 1), 2); ((2, 3), 7)]) ->
     conn [((0, 2), 1); ((2, 1), 2); ((2, 3), 7)] 0 k) /\
  total_weight [((0, 2), 1); ((2, 1), 2); ((2, 3), 7)]
  <= total_weight [((0, 1), 4); ((1, 2), 2); ((2, 3), 7)].
Proof.
  apply (prim_minimum_spanning_tree 4 4
           [((0, 1), 4); ((1, 0), 4); ((0, 2), 1); ((2, 0), 1);
            ((1, 2), 2); ((2, 1), 2); ((2, 3), 7); ((3, 2), 7)]).
  - vm_compute. lia.
  - intros a b w H. simpl in H.
    repeat (destruct H as [H|H];
            [injection H as <- <- <-; simpl; tauto|]).
    destruct H.
  - reflexivity.
  - intros item H. simpl in H.
    repeat (destruct H as [H|H]; [subst item; simpl; tauto|]).
    destruct H.
  - reflexivity.
  - assert (H01 : adj [((0, 1), 4); ((1, 2), 2); ((2, 3), 7)] 0 1).
    { exists 4. left. simpl. tauto. }
    assert (H12 : adj [((0, 1), 4); ((1, 2), 2); ((2, 3), 7)] 1 2).
    { exists 2. left. simpl. tauto. }
    assert (H23 : adj [((0, 1), 4); ((1, 2), 2); ((2, 3), 7)] 2 3).
    { exists 7. left. simpl. tauto. }
    intros k Hk. simpl in Hk.
    destruct Hk as [<-|[<-|[<-|[<-|[]]]]].
    + constructor.
    + eapply conn_step; [exact H01|]. now apply conn_adj.
    + now apply conn_adj.
    + eapply conn_step; [exact H01|].
      eapply conn_step; [exact H12|]. now apply conn_adj.
Defined.

Lemma generate_graph_symmetric (randint : Z -> Z -> Z) (coin : Z -> Z -> bool)
    (num_nodes a b w : Z) :
  In ((a, b), w) (generate_graph randint coin num_nodes) ->
  In ((b, a), w) (generate_graph randint coin num_nodes).
Proof.
  destruct (generate_graph_inv randint coin num_nodes) as [Hnd H].
  rewrite <- !(dict_get_In _ _ _ Hnd), !H, (Z.min_comm b a), (Z.max_comm b a).
  intuition auto.
Qed.

(** On a graph made by [generate_graph], whatever the draws, the tree
    [prim] returns has the least total weight among the lists of as many
    edges of the graph that connect node 0 to every node of the tree. *)
Theorem prim_minimal_on_generated_graph (randint : Z -> Z -> Z)
    (coin : Z -> Z -> bool) (num_nodes : Z) (fuel : nat)
    (tree other : weights) :
  (Z.to_nat num_nodes <= fuel)%nat ->
  prim fuel num_nodes (generate_graph randint coin num_nodes) = Some (Ok tree) ->
  (forall item, In item other ->
     In item (generate_graph randint coin num_nodes)) ->
  length other = length tree ->
  (forall k, In k (reached tree) -> conn other 0 k) ->
  total_weight tree <= total_weight other.
Proof.
  intros Hfuel Hrun Hsub Hlen Hspan.
  destruct (prim_result (generate_graph randint coin num_nodes) num_nodes fuel
              Hfuel)
    as [(tree' & E & _ & _ & Hg)|(E & _)]; rewrite E in Hrun;
    [|discriminate].
  injection Hrun as <-.
  destruct (prim_exchange_chain (generate_graph randint coin num_nodes) other
              (generate_graph_symmetric randint coin num_nodes) Hsub tree' [])
    as (R & _ & HlenR & _ & Hw).
  - now rewrite app_nil_r.
  - now rewrite app_nil_r.
  - assert (R = []) by (destruct R; [reflexivity | simpl in *; lia]).
    subst R. now rewrite app_nil_r in Hw.
Qed.

Lemma prim_minimal_on_generated_graph_witness :
  total_weight [((0, 1), 2); ((0, 2), 3); ((0, 3), 4)]
  <= total_weight [((0, 1), 2); ((1, 2), 4); ((2, 3), 6)].
Proof.
  apply (prim_minimal_on_generated_graph
           (fun i j => 1 + (i + j) mod 10) (fun i j => Z.even (i * j)) 4 4).
  - vm_compute. lia.
  - reflexivity.
  - intros item H. simpl in H.
    repeat (destruct H as [H|H]; [subst item; vm_compute; tauto|]).
    destruct H.
  - reflexivity.
  - assert (H01 : adj [((0, 1), 2); ((1, 2), 4); ((2, 3), 6)] 0 1).
    { exists 2. left. simpl. tauto. }
    assert (H12 : adj [((0, 1), 2); ((1, 2), 4); ((2, 3), 6)] 1 2).
    { exists 4. left. simpl. tauto. }
    assert (H23 : adj [((0, 1), 2); ((1, 2), 4); ((2, 3), 6)] 2 3).
    { exists 6. left. simpl. tauto. }
    intros k Hk. simpl in Hk.
    destruct Hk as [<-|[<-|[<-|[<-|[]]]]].
    + constructor.
    + now apply conn_adj.
    + eapply conn_step; [exact H01|]. now apply conn_adj.
    + eapply conn_step; [exact H01|].
      eapply conn_step; [exact H12|]. now apply conn_adj.
Defined.
